(** * Documindr: the ingestion and retrieval pipeline, embedded in Rocq

    A shallow embedding of the Python sources of the service
    (app/domain/..., app/infra/database/queries.py) together with the
    properties its specification states about them.

    Layout:
    - [Text], [Regex]    Python strings (sequences of code points), the
                         string methods and the fragment of [re] the code uses;
    - [Float64]          binary64 arithmetic as the interpreter performs it;
    - [Splitter]         app/domain/documents/splitter.py;
    - [Loader]           app/domain/documents/loader.py ([load_pdf]);
    - [Retrieval]        app/domain/rag/retrieval.py (pure part);
    - [Processor]        app/domain/uploads/processor.py (pure part);
    - [Service]          the stateful part: queries.py, process_upload,
                         the searches, stream_rag and stream_summary over an
                         explicit world. *)

From Stdlib Require Import ZArith NArith List Lia Bool String Ascii DecimalString.
From Stdlib Require Import SpecFloat PrimFloat FloatOps Sorted.
From stdpp Require Import gmap strings list sorting.

#[local] Unset Default Proof Using.
#[local] Open Scope Z_scope.

(* ===================================================================== *)
(** * Python strings *)
(* ===================================================================== *)

Module Text.

(** A [str] is a sequence of Unicode code points. *)
Abbreviation char := N (only parsing).
Abbreviation text := (list N) (only parsing).

(** An ASCII literal of the source as a [str]. *)
Definition lit (s : string) : text := map N_of_ascii (list_ascii_of_string s).
Arguments lit : simpl never.

(** [len(s)] *)
Definition len {A} (s : list A) : Z := Z.of_nat (length s).

(** [Py_UNICODE_ISSPACE]: the characters [str.strip()] removes and [\s]
    matches in a [str] pattern. *)
Definition isspace (c : char) : bool :=
  (((9 <=? c) && (c <=? 13)) || ((28 <=? c) && (c <=? 32))
   || (c =? 133) || (c =? 160) || (c =? 5760)
   || ((8192 <=? c) && (c <=? 8202))
   || (c =? 8232) || (c =? 8233) || (c =? 8239) || (c =? 8287)
   || (c =? 12288))%N.

Lemma isspace_ranges c :
  isspace c = true ->
  (9 <= c <= 13 \/ 28 <= c <= 32 \/ c = 133 \/ c = 160 \/ c = 5760 \/
   8192 <= c <= 8202 \/ c = 8232 \/ c = 8233 \/ c = 8239 \/ c = 8287 \/
   c = 12288)%N.
Proof.
  unfold isspace.
  rewrite !orb_true_iff, !andb_true_iff, !N.leb_le, !N.eqb_eq. tauto.
Qed.

(** [s.lstrip(chars)], [s.rstrip(chars)] with the set [chars] as a predicate. *)
Fixpoint lstrip_where (p : char -> bool) (s : text) : text :=
  match s with
  | c :: s' => if p c then lstrip_where p s' else s
  | [] => []
  end.

Definition rstrip_where (p : char -> bool) (s : text) : text :=
  rev (lstrip_where p (rev s)).

(** [s.strip()] *)
Definition strip (s : text) : text := rstrip_where isspace (lstrip_where isspace s).

(** [s.startswith(prefix)] *)
Fixpoint startswith (s prefix : text) : bool :=
  match prefix, s with
  | [], _ => true
  | p :: prefix', c :: s' => (c =? p)%N && startswith s' prefix'
  | _ :: _, [] => false
  end.

(** [s.replace(old, new)]: the occurrences of [old] are found from left to
    right and do not overlap; the text a replacement produced is not scanned
    again.  [skip] counts the characters of the current occurrence that are
    still to be passed over. *)
Fixpoint replace_scan (old new : text) (skip : nat) (s : text) : text :=
  match s with
  | [] => match old with [] => new | _ => [] end
  | c :: s' =>
      match skip with
      | S k => replace_scan old new k s'
      | O =>
          if startswith s old
          then match old with
               | [] => new ++ c :: replace_scan old new 0 s'
               | _ :: _ => new ++ replace_scan old new (length old - 1) s'
               end
          else c :: replace_scan old new 0 s'
      end
  end.

Definition replace (s old new : text) : text := replace_scan old new 0 s.

(** [s[:n]] for [n >= 0] *)
Definition slice_to (n : nat) (s : text) : text := firstn n s.

(** [os.path.basename(p)] (posixpath): what follows the last ['/']. *)
Fixpoint until_slash (s : text) : text :=
  match s with
  | c :: s' => if (c =? 47)%N then [] else c :: until_slash s'
  | [] => []
  end.

Definition basename (p : text) : text := rev (until_slash (rev p)).

(** [str(n)] for an [int]. *)
Definition str_of_int (n : Z) : text := lit (NilZero.string_of_int (Z.to_int n)).

(** ASCII lower-casing, the part of [str.lower()] that decides membership
    in a set of ASCII extensions. *)
Definition lower_char (c : char) : char :=
  if ((65 <=? c) && (c <=? 90))%N then (c + 32)%N else c.
Definition lower (s : text) : text := map lower_char s.

End Text.

Import Text.

(* ===================================================================== *)
(** * The fragment of [re] the sources use *)
(* ===================================================================== *)

Module Regex.

(** A pattern is a sequence of items; an item is a character class taken
    once (a literal or a bracket expression) or one or more times (a greedy
    [+]).  Every such pattern consumes at least one character. *)
Inductive item :=
| One (cls : char -> bool)
| OneOrMore (cls : char -> bool).

(** The greedy [+] of a backtracking matcher: take one more character while
    the class allows it; when the rest of the pattern, [k], fails after the
    longest run, give the characters back one at a time.  The result is what
    the repetition consumed and the result of [k]. *)
Fixpoint greedy {A} (cls : char -> bool) (k : text -> option A) (s : text)
  : option (text * A) :=
  match s with
  | c :: s' =>
      if cls c then
        match greedy cls k s' with
        | Some (w, r) => Some (c :: w, r)
        | None =>
            match k s' with
            | Some r => Some ([c], r)
            | None => None
            end
        end
      else None
  | [] => None
  end.

(** [match_at p s]: the pattern matched at the start of [s]; the text each
    item consumed, and what is left of [s]. *)
Fixpoint match_at (p : list item) (s : text) : option (list text * text) :=
  match p with
  | [] => Some ([], s)
  | One cls :: p' =>
      match s with
      | c :: s' =>
          if cls c then
            match match_at p' s' with
            | Some (gs, r) => Some ([c] :: gs, r)
            | None => None
            end
          else None
      | [] => None
      end
  | OneOrMore cls :: p' =>
      match greedy cls (match_at p') s with
      | Some (w, (gs, r)) => Some (w :: gs, r)
      | None => None
      end
  end.

(** [re.sub(p, repl, s)]: the matches are searched from left to right, each
    from where the previous one ended; a character at which the pattern does
    not match is copied.  [skip] counts the characters of the current match
    still to be passed over. *)
Fixpoint sub_scan (p : list item) (repl : list text -> text) (skip : nat) (s : text)
  : text :=
  match s with
  | [] => []
  | c :: s' =>
      match skip with
      | S k => sub_scan p repl k s'
      | O =>
          match match_at p s with
          | Some (gs, rest) =>
              repl gs ++ sub_scan p repl (length s - length rest - 1) s'
          | None => c :: sub_scan p repl 0 s'
          end
      end
  end.

Definition sub (p : list item) (repl : list text -> text) (s : text) : text :=
  sub_scan p repl 0 s.

(** The longest prefix in a class, and what follows it. *)
Fixpoint span (cls : char -> bool) (s : text) : text * text :=
  match s with
  | c :: s' => if cls c then let '(w, r) := span cls s' in (c :: w, r) else ([], s)
  | [] => ([], [])
  end.

Lemma span_app cls s : fst (span cls s) ++ snd (span cls s) = s.
Proof.
  induction s as [|c s IH]; simpl; [reflexivity|].
  destruct (cls c); [|reflexivity].
  destruct (span cls s) as [w r]; simpl in *. now rewrite IH.
Qed.

Lemma span_all cls s : forallb cls (fst (span cls s)) = true.
Proof.
  induction s as [|c s IH]; simpl; [reflexivity|].
  destruct (cls c) eqn:E; [|reflexivity].
  destruct (span cls s) as [w r]; simpl in *. now rewrite E, IH.
Qed.

Lemma span_stop cls s :
  match snd (span cls s) with c :: _ => cls c = false | [] => True end.
Proof.
  induction s as [|c s IH]; simpl; [exact I|].
  destruct (cls c) eqn:E; [|exact E].
  destruct (span cls s) as [w r]; simpl in *. exact IH.
Qed.

(** When the rest of the pattern cannot start with a character of the
    class, giving characters back never helps: [+] takes the longest run. *)
Lemma greedy_longest {A} cls (k : text -> option A) :
  (forall c s, cls c = true -> k (c :: s) = None) ->
  forall s,
    greedy cls k s =
    match fst (span cls s) with
    | [] => None
    | w => match k (snd (span cls s)) with
           | Some r => Some (w, r)
           | None => None
           end
    end.
Proof.
  intros Hk. induction s as [|c s IH]; simpl; [reflexivity|].
  destruct (cls c) eqn:Ec; [|reflexivity].
  rewrite IH. destruct s as [|c' s']; simpl.
  - destruct (k []); reflexivity.
  - destruct (cls c') eqn:Ec'; simpl.
    + destruct (span cls s') as [w r]; simpl.
      destruct (k r); [reflexivity|]. now rewrite Hk.
    + destruct (k (c' :: s')); reflexivity.
Qed.

Lemma sub_scan_skip p repl n s :
  sub_scan p repl n s = sub_scan p repl 0 (skipn n s).
Proof.
  revert n. induction s as [|c s IH]; intros [|n]; simpl; try reflexivity.
  apply IH.
Qed.

End Regex.

(* ===================================================================== *)
(** * Python values, exceptions and dictionaries *)
(* ===================================================================== *)

Module Py.

(** The exceptions the modelled code raises or lets through. *)
Inductive exn :=
| OverflowError
| ValueError
| TypeError
| InvalidFileTypeError
| FileTooLargeError
| DocumentProcessingError
| EmbeddingError
| DatabaseError
| BackendError.   (* raised by an external collaborator: model, loader, file system *)

(** A call returns a value or raises. *)
Inductive result (A : Type) :=
| Ok (a : A)
| Raise (e : exn).
Arguments Ok {A} a.
Arguments Raise {A} e.

Definition rbind {A B} (x : result A) (f : A -> result B) : result B :=
  match x with
  | Ok a => f a
  | Raise e => Raise e
  end.

(** The values a metadata dictionary holds: JSON scalars, and the [UUID]
    objects the database driver returns (a [UUID] is identified with its
    128-bit number). *)
Inductive value :=
| VNone
| VInt (n : Z)
| VStr (s : text)
| VUuid (u : N).

#[export] Instance value_eq_dec : EqDecision value.
Proof. solve_decision. Defined.

(** A [dict] with [str] keys. *)
Abbreviation dict := (gmap (list N) value) (only parsing).

(** Truth value of an object ([if x], [x or y]). *)
Definition truthy (v : value) : bool :=
  match v with
  | VNone => false
  | VInt n => negb (n =? 0)
  | VStr [] => false
  | VStr (_ :: _) => true
  | VUuid _ => true
  end.

(** [str(u)] for a [UUID]: its number in hexadecimal, grouped 8-4-4-4-12. *)
Definition hex_digit (n : N) : N := (if n <? 10 then 48 + n else 87 + n)%N.

Fixpoint hex_digits (count : nat) (n : N) (acc : text) : text :=
  match count with
  | O => acc
  | S k => hex_digits k (n / 16)%N (hex_digit (n mod 16)%N :: acc)
  end.

Definition str_of_uuid (u : N) : text :=
  let h := hex_digits 32 u [] in
  firstn 8 h ++ lit "-" ++ firstn 4 (skipn 8 h) ++ lit "-" ++ firstn 4 (skipn 12 h)
  ++ lit "-" ++ firstn 4 (skipn 16 h) ++ lit "-" ++ skipn 20 h.

(** [str(x)] *)
Definition str (v : value) : text :=
  match v with
  | VNone => lit "None"
  | VInt n => str_of_int n
  | VStr s => s
  | VUuid u => str_of_uuid u
  end.

(** The value of a run of ASCII digits. *)
Fixpoint digits_value (acc : Z) (s : text) : option Z :=
  match s with
  | [] => Some acc
  | c :: s' =>
      if ((48 <=? c) && (c <=? 57))%N
      then digits_value (10 * acc + Z.of_N (c - 48)) s'
      else None
  end.

(** [int(s)] for a [str]: surrounding white space, an optional sign and
    ASCII digits (digit-group underscores and the digits of other scripts
    are outside this model). *)
Definition int_of_text (s : text) : result Z :=
  let digits ds :=
    match ds with
    | [] => None
    | _ :: _ => digits_value 0 ds
    end in
  let r :=
    match strip s with
    | 45%N :: ds => option_map Z.opp (digits ds)
    | 43%N :: ds => digits ds
    | ds => digits ds
    end in
  match r with
  | Some n => Ok n
  | None => Raise ValueError
  end.

(** [int(x)] *)
Definition int (v : value) : result Z :=
  match v with
  | VInt n => Ok n
  | VStr s => int_of_text s
  | VNone => Raise TypeError
  | VUuid u => Ok (Z.of_N u)
  end.

(** [d.get(key, default)] *)
Definition get (d : dict) (key : text) (default : value) : value :=
  match d !! key with
  | Some v => v
  | None => default
  end.

End Py.

Import Py.

Notation "'let?' x := c1 'in' c2" := (rbind c1 (fun x => c2))
  (at level 10, x name, c1 at level 100, c2 at level 200).

(* ===================================================================== *)
(** * binary64 arithmetic *)
(* ===================================================================== *)

Module Float64.

(** A [float] is an IEEE 754 binary64 number; the operations are the
    standard library's executable specification of them, with 53 bits of
    precision, rounding to nearest, ties to even. *)
Definition prec : Z := 53.
Definition emax : Z := 1024.

Abbreviation float := spec_float (only parsing).

(** The literals [0.8] and [0.6]: the binary64 numbers nearest to them. *)
Definition f0_8 : float := S754_finite false 7205759403792794 (-53).
Definition f0_6 : float := S754_finite false 5404319552844595 (-53).

(** [float(n)] for an [int]: correctly rounded; too large an [int] raises. *)
Definition of_int (n : Z) : result float :=
  match binary_normalize prec emax n 0 false with
  | S754_infinity _ => Raise OverflowError
  | x => Ok x
  end.

(** [x * y] on floats (an overflow gives an infinity, no exception). *)
Definition mul (x y : float) : float := SFmul prec emax x y.

(** [n * y] for an [int] [n] and a [float] [y]. *)
Definition int_mul (n : Z) (y : float) : result float :=
  match of_int n with
  | Ok x => Ok (mul x y)
  | Raise e => Raise e
  end.

(** [int(x)]: truncation towards zero. *)
Definition to_int (x : float) : result Z :=
  match x with
  | S754_zero _ => Ok 0
  | S754_finite s m e =>
      let v := if 0 <=? e then Zpos m * 2 ^ e else Zpos m / 2 ^ (- e) in
      Ok (if s then - v else v)
  | S754_infinity _ => Raise OverflowError
  | S754_nan => Raise ValueError
  end.

(** [n <= x] for an [int] [n] and a [float] [x]: the comparison is exact. *)
Definition int_le (n : Z) (x : float) : bool :=
  match x with
  | S754_zero _ => n <=? 0
  | S754_finite s m e =>
      let m := if s then Zneg m else Zpos m in
      if 0 <=? e then n <=? m * 2 ^ e else n * 2 ^ (- e) <=? m
  | S754_infinity s => negb s
  | S754_nan => false
  end.

(** The constants are the numbers the interpreter reads the literals as
    ([(0.8).hex()] is [0x1.999999999999ap-1]). *)
Example f0_8_is_literal : Prim2SF 0x1.999999999999ap-1%float = f0_8.
Proof. vm_compute. reflexivity. Qed.

Example f0_6_is_literal : Prim2SF 0x1.3333333333333p-1%float = f0_6.
Proof. vm_compute. reflexivity. Qed.

Example int_mul_800 : int_mul 800 f0_8 = Ok (S754_finite false 5629499534213120 (-43)).
Proof. vm_compute. reflexivity. Qed.

(** ** The rounding of a product, step by step *)

(** One step of [shr] on a non-negative mantissa. *)
Lemma shr_1_nonneg m r s :
  0 <= m ->
  shr_1 (Build_shr_record m r s) = Build_shr_record (m / 2) (Z.odd m) (r || s).
Proof.
  intros Hm. destruct m as [|p|p]; [reflexivity| |lia].
  destruct p as [p|p|]; cbn [shr_1].
  - f_equal. rewrite Pos2Z.inj_xI. apply Z.div_unique with 1; lia.
  - f_equal. rewrite Pos2Z.inj_xO. apply Z.div_unique with 0; lia.
  - reflexivity.
Qed.

Lemma iter_pos_nat {A} (f : A -> A) n x : SpecFloat.iter_pos f n x = Nat.iter (Pos.to_nat n) f x.
Proof.
  revert x. induction n as [n IH|n IH|]; intros x; cbn [SpecFloat.iter_pos].
  - rewrite !IH, Pos2Nat.inj_xI. 
    replace (S (2 * Pos.to_nat n))%nat with (Pos.to_nat n + (Pos.to_nat n + 1))%nat by lia.
    rewrite !Nat.iter_add. reflexivity.
  - rewrite !IH, Pos2Nat.inj_xO.
    replace (2 * Pos.to_nat n)%nat with (Pos.to_nat n + Pos.to_nat n)%nat by lia.
    now rewrite Nat.iter_add.
  - reflexivity.
Qed.

(** [k+1] steps of [shr] on [m]: the quotient by [2^(k+1)], whether the
    remainder reaches one half, and whether it is off zero and one half. *)
Lemma shr_iter m k :
  0 <= m ->
  Nat.iter (S k) shr_1 (Build_shr_record m false false) =
  Build_shr_record (m / 2 ^ Z.of_nat (S k))
                   (2 ^ Z.of_nat k <=? m mod 2 ^ Z.of_nat (S k))
                   (negb (m mod 2 ^ Z.of_nat k =? 0)).
Proof.
  intros Hm. induction k as [|k IH].
  - cbn [Nat.iter]. rewrite shr_1_nonneg by assumption.
    change (2 ^ Z.of_nat 1) with 2. change (2 ^ Z.of_nat 0) with 1.
    rewrite Z.mod_1_r. f_equal.
    rewrite Zodd_mod. destruct (Z.eqb_spec (m mod 2) 1), (Z.leb_spec 1 (m mod 2));
      try reflexivity; pose proof (Z.mod_pos_bound m 2); lia.
  - rewrite Nat.iter_succ, IH.
    assert (Hp : 0 < 2 ^ Z.of_nat k) by (apply Z.pow_pos_nonneg; lia).
    assert (E1 : 2 ^ Z.of_nat (S k) = 2 ^ Z.of_nat k * 2).
    { rewrite Nat2Z.inj_succ, Z.pow_succ_r by lia. lia. }
    assert (E2 : 2 ^ Z.of_nat (S (S k)) = 2 ^ Z.of_nat (S k) * 2).
    { rewrite (Nat2Z.inj_succ (S k)), Z.pow_succ_r by lia. lia. }
    rewrite shr_1_nonneg by (apply Z.div_pos; lia).
    f_equal.
    + rewrite E2, Z.div_div by lia. reflexivity.
    + rewrite E2, Z.rem_mul_r by lia. rewrite Zodd_mod.
      pose proof (Z.mod_pos_bound m (2 ^ Z.of_nat (S k))).
      pose proof (Z.mod_pos_bound (m / 2 ^ Z.of_nat (S k)) 2).
      set (a := m mod 2 ^ Z.of_nat (S k)) in *.
      set (b := (m / 2 ^ Z.of_nat (S k)) mod 2) in *.
      assert (Hb : b = 0 \/ b = 1) by lia.
      destruct Hb as [-> | ->]; simpl Z.eqb; cbv iota.
      * symmetry. apply Z.leb_gt. lia.
      * symmetry. apply Z.leb_le. lia.
    + rewrite E1, Z.rem_mul_r by lia.
      pose proof (Z.mod_pos_bound m (2 ^ Z.of_nat k)).
      pose proof (Z.mod_pos_bound (m / 2 ^ Z.of_nat k) 2).
      set (a := m mod 2 ^ Z.of_nat k) in *.
      set (b := (m / 2 ^ Z.of_nat k) mod 2) in *.
      assert (Hb : b = 0 \/ b = 1) by lia.
      destruct Hb as [-> | ->];
        destruct (Z.leb_spec (2 ^ Z.of_nat k) (a + 2 ^ Z.of_nat k * 0)),
                 (Z.leb_spec (2 ^ Z.of_nat k) (a + 2 ^ Z.of_nat k * 1)),
                 (Z.eqb_spec a 0),
                 (Z.eqb_spec (a + 2 ^ Z.of_nat k * 0) 0),
                 (Z.eqb_spec (a + 2 ^ Z.of_nat k * 1) 0);
        simpl; try reflexivity; lia.
Qed.

Lemma digits2_pos_bounds p :
  2 ^ (Zpos (digits2_pos p) - 1) <= Zpos p < 2 ^ Zpos (digits2_pos p).
Proof.
  induction p as [p IH|p IH|]; cbn [digits2_pos].
  - rewrite Pos2Z.inj_succ, Z.pow_succ_r by lia.
    replace (Z.succ (Z.pos (digits2_pos p)) - 1) with (Z.succ (Z.pos (digits2_pos p) - 1)) by lia.
    rewrite Z.pow_succ_r by lia. lia.
  - rewrite Pos2Z.inj_succ, Z.pow_succ_r by lia.
    replace (Z.succ (Z.pos (digits2_pos p)) - 1) with (Z.succ (Z.pos (digits2_pos p) - 1)) by lia.
    rewrite Z.pow_succ_r by lia. lia.
  - simpl. lia.
Qed.

Lemma digits2_pos_unique p k :
  2 ^ (k - 1) <= Zpos p < 2 ^ k -> Zpos (digits2_pos p) = k.
Proof.
  intros H. pose proof (digits2_pos_bounds p) as B.
  set (d := Zpos (digits2_pos p)) in *.
  assert (0 < k).
  { destruct (Z.ltb_spec 0 k); [assumption|].
    assert (2 ^ k <= 1); [|lia].
    destruct (Z.eq_dec k 0) as [->|]; [simpl; lia|].
    rewrite Z.pow_neg_r by lia. lia. }
  destruct (Z.lt_trichotomy d k) as [L|[E|G]]; [|exact E|].
  - assert (2 ^ d <= 2 ^ (k - 1)) by (apply Z.pow_le_mono_r; lia). lia.
  - assert (2 ^ k <= 2 ^ (d - 1)) by (apply Z.pow_le_mono_r; lia). lia.
Qed.

Lemma fexp_normal x : -1074 <= x - 53 -> fexp prec emax x = x - 53.
Proof. unfold fexp, emin, prec, emax. lia. Qed.

(** Rounding a mantissa of [53 + s] bits, [s >= 1], in the normal range. *)
Lemma round_aux_shift sx (m : positive) e (k : nat) :
  Zpos (digits2_pos m) = 53 + Z.of_nat (S k) ->
  -1074 <= e + Z.of_nat (S k) ->
  e + Z.of_nat (S k) + 1 <= 971 ->
  let s := Z.of_nat (S k) in
  let q := Zpos m / 2 ^ s in
  let rem := Zpos m mod 2 ^ s in
  let m0 := if (2 ^ (s - 1) <? rem) || ((rem =? 2 ^ (s - 1)) && Z.odd q)
            then q + 1 else q in
  binary_round_aux prec emax sx (Zpos m) e loc_Exact =
  if m0 =? 2 ^ 53
  then S754_finite sx (Z.to_pos (2 ^ 52)) (e + s + 1)
  else S754_finite sx (Z.to_pos m0) (e + s).
Proof.
  intros Hd Hlo Hhi s q rem m0.
  pose proof (digits2_pos_bounds m) as B. rewrite Hd in B.
  assert (Hs : 0 < 2 ^ s) by (apply Z.pow_pos_nonneg; lia).
  assert (Hk : 0 < 2 ^ (s - 1)) by (apply Z.pow_pos_nonneg; lia).
  assert (Es : 2 ^ s = 2 ^ (s - 1) * 2).
  { replace s with (Z.succ (s - 1)) at 1 by lia. rewrite Z.pow_succ_r by lia. lia. }
  assert (Bq : 2 ^ 52 <= q < 2 ^ 53).
  { replace (53 + Z.of_nat (S k) - 1) with (52 + s) in B by lia.
    fold s in B. rewrite !Z.pow_add_r in B by lia.
    unfold q. split.
    - apply Z.div_le_lower_bound; lia.
    - apply Z.div_lt_upper_bound; lia. }
  pose proof (Z.mod_pos_bound (Zpos m) (2 ^ s) Hs) as Brem. fold rem in Brem.
  unfold binary_round_aux, shr_fexp.
  cbn [Zdigits2]. rewrite Hd.
  rewrite fexp_normal by lia.
  replace (53 + Z.of_nat (S k) + e - 53 - e) with (Z.pos (Pos.of_succ_nat k)) by lia.
  cbn [shr shr_record_of_loc]. rewrite iter_pos_nat, SuccNat2Pos.id_succ.
  rewrite shr_iter by lia.
  replace (Z.pos (Pos.of_succ_nat k)) with s by lia.
  fold s. fold q. fold rem.
  replace (Z.of_nat k) with (s - 1) by lia.
  assert (Em : Z.pos m mod 2 ^ (s - 1) = rem mod 2 ^ (s - 1)).
  { unfold rem. rewrite Es, Z.rem_mul_r by lia.
    rewrite Z.mul_comm, Z.mod_add by lia. now rewrite Z.mod_mod by lia. }
  rewrite Em.
  assert (Em0 : round_nearest_even q
            (loc_of_shr_record
               {| shr_m := q; shr_r := 2 ^ (s - 1) <=? rem;
                  shr_s := negb (rem mod 2 ^ (s - 1) =? 0) |}) = m0).
  { unfold m0. cbn [loc_of_shr_record].
    pose proof (Z.mod_pos_bound rem (2 ^ (s - 1)) Hk) as Br.
    pose proof (Z.div_mod rem (2 ^ (s - 1)) ltac:(lia)) as Dr.
    assert (rem / 2 ^ (s - 1) = 0 \/ rem / 2 ^ (s - 1) = 1) as Hq.
    { assert (0 <= rem / 2 ^ (s - 1) < 2); [|lia]. split.
      - apply Z.div_pos; lia.
      - apply Z.div_lt_upper_bound; lia. }
    rewrite <- Z.negb_even.
    destruct (Z.leb_spec (2 ^ (s - 1)) rem), (Z.eqb_spec (rem mod 2 ^ (s - 1)) 0),
      (Z.ltb_spec (2 ^ (s - 1)) rem), (Z.eqb_spec rem (2 ^ (s - 1)));
      cbn [negb orb andb round_nearest_even]; try reflexivity; try (exfalso; nia).
    - destruct (Z.even q); reflexivity. }
  cbn [shr_m]. rewrite Em0.
  assert (Bm0 : 2 ^ 52 <= m0 <= 2 ^ 53).
  { unfold m0. destruct (_ || _); lia. }
  destruct (Z.eqb_spec m0 (2 ^ 53)) as [E53|N53].
  - rewrite E53. replace (Zdigits2 (2 ^ 53)) with 54 by reflexivity.
    rewrite fexp_normal by lia.
    replace (54 + (e + s) - 53 - (e + s)) with 1 by lia.
    cbn [shr SpecFloat.iter_pos shr_1 shr_m].
    replace (e + s + 1 <=? emax - prec) with true; [reflexivity|].
    symmetry. apply Z.leb_le. unfold emax, prec. lia.
  - destruct m0 as [|p0|p0] eqn:E0; try lia.
    cbn [Zdigits2]. rewrite (digits2_pos_unique p0 53) by lia.
    rewrite fexp_normal by lia.
    replace (53 + (e + s) - 53 - (e + s)) with 0 by lia.
    cbn [shr shr_m].
    replace (e + s <=? emax - prec) with true; [reflexivity|].
    symmetry. apply Z.leb_le. unfold emax, prec. lia.
Qed.

Lemma iter_xO_mul p q : Zpos (Pos.iter xO p q) = Zpos p * 2 ^ Zpos q.
Proof.
  induction q as [|q IH] using Pos.peano_ind.
  - simpl. lia.
  - rewrite Pos.iter_succ, Pos2Z.inj_xO, IH, Pos2Z.inj_succ, Z.pow_succ_r by lia. lia.
Qed.

(** [float(n)] for an [n] of fewer than 53 bits: the mantissa is [|n|]
    shifted to 53 bits. *)
Definition signed (sx : bool) (p : positive) : Z := if sx then Zneg p else Zpos p.

Lemma of_int_signed sx p :
  let d := Zpos (digits2_pos p) in
  d < 53 ->
  of_int (signed sx p) =
  Ok (S754_finite sx (Z.to_pos (Zpos p * 2 ^ (53 - d))) (d - 53)).
Proof.
  intros d Hd. pose proof (digits2_pos_bounds p) as B. fold d in B.
  assert (0 < d) by (unfold d; lia).
  assert (E : of_int (signed sx p) =
              match binary_round prec emax sx p 0 with
              | S754_infinity _ => Raise OverflowError
              | x => Ok x
              end) by (destruct sx; reflexivity).
  rewrite E. clear E.
  unfold binary_round, shl_align.
  fold d. rewrite fexp_normal by lia.
  destruct (d + 0 - 53 - 0) as [|z|z] eqn:Ez; try lia.
  assert (Hz : Zpos z = 53 - d) by lia.
  assert (Hm : Zpos (Pos.iter xO p z) = Zpos p * 2 ^ (53 - d)).
  { rewrite iter_xO_mul, Hz. reflexivity. }
  assert (H2 : 0 < 2 ^ (53 - d)) by (apply Z.pow_pos_nonneg; lia).
  assert (Hdg : Zpos (digits2_pos (Pos.iter xO p z)) = 53).
  { apply digits2_pos_unique. rewrite Hm.
    replace (2 ^ (53 - 1)) with (2 ^ (d - 1) * 2 ^ (53 - d))
      by (rewrite <- Z.pow_add_r by lia; f_equal; lia).
    replace (2 ^ 53) with (2 ^ d * 2 ^ (53 - d))
      by (rewrite <- Z.pow_add_r by lia; f_equal; lia).
    nia. }
  unfold binary_round_aux, shr_fexp. cbn [Zdigits2]. rewrite Hdg.
  rewrite fexp_normal by lia.
  replace (53 + (d + 0 - 53) - 53 - (d + 0 - 53)) with 0 by lia.
  cbn [shr shr_record_of_loc shr_m loc_of_shr_record round_nearest_even Zdigits2].
  rewrite Hdg, fexp_normal by lia.
  replace (53 + (d + 0 - 53) - 53 - (d + 0 - 53)) with 0 by lia.
  cbn [shr shr_m].
  replace (d + 0 - 53 <=? emax - prec) with true
    by (symmetry; apply Z.leb_le; unfold emax, prec; lia).
  rewrite <- Hm, Pos2Z.id. do 2 f_equal; lia.
Qed.

(** A finite float of sign [sx] whose magnitude has integer part [k]. *)
Definition brackets (sx : bool) (x : float) (k : Z) : Prop :=
  exists m e, x = S754_finite sx m e /\ e < 0 /\
              k * 2 ^ (- e) <= Zpos m < (k + 1) * 2 ^ (- e).

Lemma brackets_to_int sx x k :
  brackets sx x k -> to_int x = Ok (if sx then - k else k).
Proof.
  intros (m & e & -> & He & Hb). unfold to_int.
  destruct (Z.leb_spec 0 e); [lia|].
  assert (0 < 2 ^ (- e)) by (apply Z.pow_pos_nonneg; lia).
  assert (Zpos m / 2 ^ (- e) = k) as ->; [|reflexivity].
  symmetry. apply Z.div_unique with (Zpos m - k * 2 ^ (- e)); lia.
Qed.

Lemma brackets_int_le x k l : brackets false x k -> int_le l x = (l <=? k).
Proof.
  intros (m & e & -> & He & Hb). unfold int_le.
  destruct (Z.leb_spec 0 e); [lia|].
  assert (0 < 2 ^ (- e)) by (apply Z.pow_pos_nonneg; lia).
  destruct (Z.leb_spec l k), (Z.leb_spec (l * 2 ^ (- e)) (Zpos m)); try reflexivity; nia.
Qed.

Lemma brackets_int_le_neg x k l : brackets true x k -> 0 <= l -> int_le l x = false.
Proof.
  intros (m & e & -> & He & Hb) Hl. unfold int_le.
  destruct (Z.leb_spec 0 e); [lia|].
  assert (0 < 2 ^ (- e)) by (apply Z.pow_pos_nonneg; lia).
  apply Z.leb_gt. nia.
Qed.

(** [round_aux_shift] in the form the arithmetic below uses: the rounded
    mantissa is the quotient or its successor, as the remainder decides; when
    the successor reaches [2^53] the mantissa is [2^52] one exponent up. *)
Lemma round_aux_cases sx (P : positive) e sh :
  1 <= sh ->
  Zpos (digits2_pos P) = 53 + sh ->
  -1074 <= e + sh -> e + sh + 1 <= 971 ->
  let q := Zpos P / 2 ^ sh in
  let r := Zpos P mod 2 ^ sh in
  exists m e',
    binary_round_aux prec emax sx (Zpos P) e loc_Exact = S754_finite sx m e' /\
    ((e' = e + sh /\ q <= Zpos m <= q + 1 /\
      (2 ^ (sh - 1) < r -> Zpos m = q + 1) /\ (r < 2 ^ (sh - 1) -> Zpos m = q))
     \/ (e' = e + sh + 1 /\ Zpos m = 2 ^ 52 /\ q + 1 = 2 ^ 53 /\ 2 ^ (sh - 1) <= r)).
Proof.
  intros Hsh Hd Hlo Hhi q r.
  assert (Esh : sh = Z.of_nat (S (Nat.pred (Z.to_nat sh)))) by lia.
  pose proof (round_aux_shift sx P e (Nat.pred (Z.to_nat sh))) as R.
  rewrite <- Esh in R. cbv zeta in R. fold q r in R.
  rewrite R by assumption. clear R.
  pose proof (digits2_pos_bounds P) as B. rewrite Hd in B.
  assert (Hs : 0 < 2 ^ sh) by (apply Z.pow_pos_nonneg; lia).
  assert (Bq : 2 ^ 52 <= q < 2 ^ 53).
  { replace (53 + sh - 1) with (52 + sh) in B by lia.
    rewrite !Z.pow_add_r in B by lia. unfold q. split.
    - apply Z.div_le_lower_bound; lia.
    - apply Z.div_lt_upper_bound; lia. }
  destruct (Z.ltb_spec (2 ^ (sh - 1)) r) as [L|L];
    destruct (Z.eqb_spec r (2 ^ (sh - 1))) as [E|E];
    destruct (Z.odd q); cbn [orb andb];
    match goal with
    | |- context [?x =? 2 ^ 53] => destruct (Z.eqb_spec x (2 ^ 53))
    end;
    eexists _, _; (split; [reflexivity|]);
    try (right; change (Zpos (Z.to_pos (2 ^ 52))) with (2 ^ 52); lia);
    left; rewrite Z2Pos.id by lia; lia.
Qed.

(** Powers of two around the 53-bit mantissa of an [int] of [d] bits. *)
Lemma pow2_scale d :
  0 < d <= 50 ->
  let U := 2 ^ (51 - d) in
  2 <= U /\ 2 ^ (52 - d) = 2 * U /\ 2 ^ (53 - d) = 4 * U /\ 2 ^ (54 - d) = 8 * U /\
  2 ^ (d - 1) * (4 * U) = 2 ^ 52 /\ 2 ^ d * (4 * U) = 2 ^ 53.
Proof.
  intros Hd U. unfold U.
  assert (2 ^ 1 <= 2 ^ (51 - d)) by (apply Z.pow_le_mono_r; lia).
  replace (52 - d) with (1 + (51 - d)) by lia.
  replace (53 - d) with (2 + (51 - d)) by lia.
  replace (54 - d) with (3 + (51 - d)) by lia.
  rewrite !Z.pow_add_r by lia.
  replace (2 ^ 52) with (2 ^ (d - 1) * 2 ^ (2 + (51 - d)))
    by (rewrite <- Z.pow_add_r by lia; f_equal; lia).
  replace (2 ^ 53) with (2 ^ d * 2 ^ (2 + (51 - d)))
    by (rewrite <- Z.pow_add_r by lia; f_equal; lia).
  rewrite !Z.pow_add_r by lia. change (2 ^ 1) with 2 in *.
  change (2 ^ 2) with 4. change (2 ^ 3) with 8. lia.
Qed.

(** [n * c] for [0 < |n| < 2^50] and a constant [c = mf * 2^-53] of 53
    bits: the product of the two mantissas, rounded. *)
Lemma int_mul_signed sx p mf :
  let d := Zpos (digits2_pos p) in
  d <= 50 ->
  int_mul (signed sx p) (S754_finite false mf (-53)) =
  Ok (binary_round_aux prec emax sx
        (Zpos (Z.to_pos (Zpos p * (4 * 2 ^ (51 - d))) * mf)) (d - 53 + -53) loc_Exact).
Proof.
  intros d Hd. assert (0 < d) by (unfold d; lia).
  destruct (pow2_scale d ltac:(lia)) as (_ & _ & E4 & _).
  unfold int_mul. rewrite of_int_signed by (fold d; lia). fold d.
  rewrite E4. unfold mul. cbn [SFmul]. now rewrite xorb_false_r.
Qed.

Lemma bits_below_50 p : Zpos p < 2 ^ 50 -> 0 < Zpos (digits2_pos p) <= 50.
Proof.
  intros H. pose proof (digits2_pos_bounds p) as B. split; [lia|].
  destruct (Z.leb_spec (Zpos (digits2_pos p)) 50); [assumption|].
  assert (2 ^ 50 <= 2 ^ (Zpos (digits2_pos p) - 1)) by (apply Z.pow_le_mono_r; lia).
  lia.
Qed.

(** The arithmetic of one product: [num/5] is the number the literal
    stands for, [mf] the mantissa of the float it is read as.  With [d] the
    number of bits of [p] and [U = 2^(51-d)], everything is linear in
    [A = p * U] and [Y = k * U], where [k] is the integer part sought. *)
Ltac int_mul_bracket sx p mf num :=
  pose proof (bits_below_50 p ltac:(lia)) as Hd;
  pose proof (digits2_pos_bounds p) as B;
  rewrite int_mul_signed by lia;
  eexists; split; [reflexivity|];
  set (d := Zpos (digits2_pos p)) in *;
  destruct (pow2_scale d Hd) as (HU & E2 & E4 & E8 & E52 & E53);
  set (U := 2 ^ (51 - d)) in *;
  set (k := num * Zpos p / 5);
  assert (Hk : 5 * k <= num * Zpos p <= 5 * k + 4)
    by (unfold k; pose proof (Z.div_mod (num * Zpos p) 5 ltac:(lia));
        pose proof (Z.mod_pos_bound (num * Zpos p) 5 ltac:(lia)); lia);
  assert (BX : 2 ^ 52 <= Zpos p * (4 * U) < 2 ^ 53) by nia;
  set (A := Zpos p * U) in *; set (Y := k * U);
  assert (HY : 5 * Y <= num * A <= 5 * Y + 4 * U) by (unfold A, Y; nia);
  replace (Zpos p * (4 * U)) with (4 * A) in * by (unfold A; lia);
  destruct (4 * A) as [|X|X] eqn:EX; try lia; cbn [Z.to_pos];
  set (P := (X * mf)%positive);
  assert (EP : Zpos P = 4 * A * Zpos mf) by (unfold P; lia);
  assert (BP : 2 ^ 104 <= Zpos P < 2 ^ 106) by lia;
  let finish sh a b :=
    destruct (round_aux_cases sx P (d - 53 + -53) sh ltac:(lia)
                ltac:(apply digits2_pos_unique; lia) ltac:(lia) ltac:(lia))
      as (m & e' & -> & [(-> & C)|(-> & C)]);
    do 2 eexists; (split; [reflexivity|]); (split; [lia|]);
    pose proof (Z.div_mod (Zpos P) (2 ^ sh) ltac:(lia));
    pose proof (Z.mod_pos_bound (Zpos P) (2 ^ sh) ltac:(lia));
    [ replace (- (d - 53 + -53 + sh)) with (a - d) by lia
    | replace (- (d - 53 + -53 + sh + 1)) with (b - d) by lia ];
    first [rewrite E2 | rewrite E4 | rewrite E8];
    match goal with
    | |- ?a * (?c * U) <= _ < _ =>
        replace (a * (c * U)) with (c * Y) by (unfold Y, k; lia);
        replace ((a + 1) * (c * U)) with (c * Y + c * U) by (unfold Y, k; lia)
    end;
    lia in
  destruct (Z.ltb_spec (Zpos P) (2 ^ 105)); [finish 52 54 53 | finish 53 53 52].

Lemma int_mul_0_8_signed sx p :
  Zpos p < 2 ^ 50 ->
  exists x, int_mul (signed sx p) f0_8 = Ok x /\ brackets sx x (4 * Zpos p / 5).
Proof.
  intros Hn. unfold f0_8.
  int_mul_bracket sx p 7205759403792794%positive 4.
Qed.

Lemma int_mul_0_6_signed sx p :
  Zpos p < 2 ^ 50 ->
  exists x, int_mul (signed sx p) f0_6 = Ok x /\ brackets sx x (3 * Zpos p / 5).
Proof.
  intros Hn. unfold f0_6.
  int_mul_bracket sx p 5404319552844595%positive 3.
Qed.

(** What the code needs of [n * c]: its truncation is that of the exact
    product, and an [int] compares with it as with the floor of the exact
    product. *)
Definition exact_product (num n : Z) (x : float) : Prop :=
  to_int x = Ok (Z.quot (num * n) 5) /\
  forall l, 0 <= l -> int_le l x = (l <=? num * n / 5).

Lemma brackets_exact sx p num x :
  0 < num ->
  brackets sx x (num * Zpos p / 5) -> exact_product num (signed sx p) x.
Proof.
  intros Hnum Hb. split.
  - rewrite (brackets_to_int _ _ _ Hb). f_equal. destruct sx; unfold signed.
    + replace (num * Zneg p) with (- (num * Zpos p)) by lia.
      rewrite Z.quot_opp_l by lia. f_equal. symmetry. apply Z.quot_div_nonneg; lia.
    + symmetry. apply Z.quot_div_nonneg; lia.
  - intros l Hl. destruct sx; unfold signed.
    + rewrite (brackets_int_le_neg _ _ _ Hb Hl). symmetry. apply Z.leb_gt.
      assert (num * Zneg p / 5 < 0); [|lia].
      apply Z.div_lt_upper_bound; lia.
    + apply (brackets_int_le _ _ _ Hb).
Qed.

Lemma int_mul_zero c m e :
  c = S754_finite false m e -> 
  int_mul 0 c = Ok (S754_zero false).
Proof. intros ->. reflexivity. Qed.

Theorem int_mul_0_8 n :
  - 2 ^ 50 < n < 2 ^ 50 -> exists x, int_mul n f0_8 = Ok x /\ exact_product 4 n x.
Proof.
  intros Hn. destruct n as [|p|p].
  - exists (S754_zero false). split; [reflexivity|]. split; [reflexivity|].
    intros l _. reflexivity.
  - destruct (int_mul_0_8_signed false p ltac:(lia)) as (x & E & Hb).
    exists x. split; [exact E|]. now apply (brackets_exact false).
  - destruct (int_mul_0_8_signed true p ltac:(lia)) as (x & E & Hb).
    exists x. split; [exact E|]. now apply (brackets_exact true).
Qed.

Theorem int_mul_0_6 n :
  - 2 ^ 50 < n < 2 ^ 50 -> exists x, int_mul n f0_6 = Ok x /\ exact_product 3 n x.
Proof.
  intros Hn. destruct n as [|p|p].
  - exists (S754_zero false). split; [reflexivity|]. split; [reflexivity|].
    intros l _. reflexivity.
  - destruct (int_mul_0_6_signed false p ltac:(lia)) as (x & E & Hb).
    exists x. split; [exact E|]. now apply (brackets_exact false).
  - destruct (int_mul_0_6_signed true p ltac:(lia)) as (x & E & Hb).
    exists x. split; [exact E|]. now apply (brackets_exact true).
Qed.

End Float64.

(* ===================================================================== *)
(** * langchain_core.documents.Document *)
(* ===================================================================== *)

(** A unit of text with its provenance; [page_content] may be [None]. *)
Record Document := {
  page_content : option (list N);
  metadata : gmap (list N) value
}.

(** [doc.page_content or ""] *)
Definition content (d : Document) : text :=
  match page_content d with
  | Some s => s
  | None => []
  end.

(** [doc.page_content = s] *)
Definition set_content (d : Document) (s : text) : Document :=
  {| page_content := Some s; metadata := metadata d |}.

(* ===================================================================== *)
(** * app/domain/documents/splitter.py *)
(* ===================================================================== *)

Module Splitter.

Definition choose_chunk_size (length base : Z) : result Z :=
  if length <? 2000 then
    let? x := Float64.int_mul base Float64.f0_8 in
    let? v := Float64.to_int x in
    Ok (Z.max v 300)
  else if length <? 10000 then
    Ok base
  else
    let? x := Float64.int_mul base Float64.f0_6 in
    let? v := Float64.to_int x in
    Ok (Z.max v 400).

Section SplitDocuments.

(** [RecursiveCharacterTextSplitter(chunk_size=size, chunk_overlap=overlap,
    length_function=len, separators=[...], is_separator_regex=False)
    .split_documents([doc])], a function of the library (it raises on a
    chunk size or an overlap it refuses). *)
Variable recursive_split : Z -> Z -> Document -> result (list Document).

(** The first loop: a unit is kept, with its text trimmed, when the trimmed
    text has at least [min_chars] characters. *)
Definition keep_unit (min_chars : Z) (d : Document) : list Document :=
  let text := strip (content d) in
  if min_chars <=? len text then [set_content d text] else [].

(** The second loop, over the units kept. *)
Fixpoint split_loop (base_chunk_size overlap : Z) (filtered out : list Document)
  : result (list Document) :=
  match filtered with
  | [] => Ok out
  | doc :: rest =>
      let text := content doc in
      let? size := choose_chunk_size (len text) base_chunk_size in
      let? limit := Float64.int_mul size Float64.f0_8 in
      if Float64.int_le (len text) limit
      then split_loop base_chunk_size overlap rest (out ++ [doc])
      else
        let? pieces := recursive_split size overlap doc in
        split_loop base_chunk_size overlap rest (out ++ pieces)
  end.

Definition split_documents (docs : list Document)
    (base_chunk_size overlap min_chars : Z) : result (list Document) :=
  match docs with
  | [] => Ok []
  | _ :: _ =>
      match flat_map (keep_unit min_chars) docs with
      | [] => Ok []
      | filtered => split_loop base_chunk_size overlap filtered []
      end
  end.

(** ** The chunker in the specification's words *)

(** The three bands of the target size, in exact arithmetic. *)
Definition target_size (length base : Z) : Z :=
  if length <? 2000 then Z.max (4 * base / 5) 300
  else if length <? 10000 then base
  else Z.max (3 * base / 5) 400.

(** What one loaded unit contributes: nothing when its trimmed text is
    shorter than [min_chars]; itself, with the trimmed text, when that text
    is at most 0.8 times the target size; the pieces the recursive splitter
    cuts it into otherwise. *)
Definition unit_chunks (base_chunk_size overlap min_chars : Z) (d : Document)
  : result (list Document) :=
  let text := strip (content d) in
  if len text <? min_chars then Ok []
  else
    let size := target_size (len text) base_chunk_size in
    if 5 * len text <=? 4 * size then Ok [set_content d text]
    else recursive_split size overlap (set_content d text).

(** The contributions in order; the first failure is the failure of the whole. *)
Fixpoint collect {A} (rs : list (result (list A))) : result (list A) :=
  match rs with
  | [] => Ok []
  | r :: rs' =>
      let? xs := r in
      let? ys := collect rs' in
      Ok (xs ++ ys)
  end.

End SplitDocuments.

Import Float64.

(** ** Properties of the chunker *)

Lemma max_quot_div a c : 0 <= c -> Z.max (Z.quot a 5) c = Z.max (a / 5) c.
Proof.
  intros Hc. destruct (Z.le_gt_cases 0 a) as [Ha|Ha].
  - now rewrite Z.quot_div_nonneg by lia.
  - assert (Z.quot a 5 <= 0) by (apply Z.quot_le_upper_bound; lia).
    assert (a / 5 < 0) by (apply Z.div_lt_upper_bound; lia).
    lia.
Qed.

(** Within the range where binary64 holds the products exactly enough,
    the chosen size is the target size of the specification. *)
Lemma choose_chunk_size_in_range length base :
  - 2 ^ 50 < base < 2 ^ 50 ->
  choose_chunk_size length base = Ok (target_size length base).
Proof.
  intros Hb. unfold choose_chunk_size, target_size.
  destruct (length <? 2000); [|destruct (length <? 10000); [reflexivity|]].
  - destruct (int_mul_0_8 base Hb) as (x & -> & Hx & _). cbn [rbind].
    rewrite Hx. cbn [rbind]. now rewrite max_quot_div.
  - destruct (int_mul_0_6 base Hb) as (x & -> & Hx & _). cbn [rbind].
    rewrite Hx. cbn [rbind]. now rewrite max_quot_div.
Qed.

Lemma target_size_range length base :
  - 2 ^ 50 < base < 2 ^ 50 -> - 2 ^ 50 < target_size length base < 2 ^ 50.
Proof.
  intros Hb. unfold target_size.
  pose proof (Z.div_mod (4 * base) 5 ltac:(lia)).
  pose proof (Z.mod_pos_bound (4 * base) 5 ltac:(lia)).
  pose proof (Z.div_mod (3 * base) 5 ltac:(lia)).
  pose proof (Z.mod_pos_bound (3 * base) 5 ltac:(lia)).
  destruct (length <? 2000); [|destruct (length <? 10000)]; lia.
Qed.

(** C4: [choose_chunk_size] is a step function of the length with three
    bands: below 2000 it returns [max(floor(0.8*base), 300)], from 2000 to
    below 10000 it returns [base], from 10000 on [max(floor(0.6*base), 400)],
    for every base whose products with the two factors binary64 arithmetic
    truncates as exact arithmetic does ([|base| < 2^50]). *)
Theorem choose_chunk_size_bands length base :
  - 2 ^ 50 < base < 2 ^ 50 ->
  choose_chunk_size length base =
  Ok (if length <? 2000 then Z.max (4 * base / 5) 300
      else if length <? 10000 then base
      else Z.max (3 * base / 5) 400).
Proof. apply choose_chunk_size_in_range. Qed.

(** For [base = 800]: 500 characters give a size of at least 300, 3000
    give exactly 800, 20000 give at least 400. *)
Lemma choose_chunk_size_bands_witness :
  (choose_chunk_size 500 800 = Ok 640 /\ 300 <= 640) /\
  choose_chunk_size 3000 800 = Ok 800 /\
  (choose_chunk_size 20000 800 = Ok 480 /\ 400 <= 480).
Proof.
  split; [split; [|lia]|split; [|split; [|lia]]].
  - apply (choose_chunk_size_bands 500 800). lia.
  - apply (choose_chunk_size_bands 3000 800). lia.
  - apply (choose_chunk_size_bands 20000 800). lia.
Defined.

(** Beyond the precision of binary64 the product is rounded before it is
    truncated: for [base = 2^53 + 3] the code returns one more than
    [floor(0.8 * base)]. *)
Lemma choose_chunk_size_large_base :
  choose_chunk_size 500 9007199254740995 = Ok 7205759403792797 /\
  Z.max (4 * 9007199254740995 / 5) 300 = 7205759403792796.
Proof. split; vm_compute; reflexivity. Qed.

Section SplitProperties.

Variable recursive_split : Z -> Z -> Document -> result (list Document).

Lemma content_set_content d s : content (set_content d s) = s.
Proof. reflexivity. Qed.

Lemma len_nonneg {A} (s : list A) : 0 <= len s.
Proof. unfold len. lia. Qed.

Lemma split_loop_collect base overlap min_chars docs :
  - 2 ^ 50 < base < 2 ^ 50 ->
  forall out,
    split_loop recursive_split base overlap (flat_map (keep_unit min_chars) docs) out =
    let? ys := collect (map (unit_chunks recursive_split base overlap min_chars) docs) in
    Ok (out ++ ys).
Proof.
  intros Hb. induction docs as [|d docs IH]; intros out.
  - cbn. now rewrite app_nil_r.
  - cbn [flat_map map collect]. unfold keep_unit at 1, unit_chunks at 1. cbv zeta.
    set (text := strip (content d)).
    destruct (Z.leb_spec min_chars (len text)) as [Hk|Hk];
      destruct (Z.ltb_spec (len text) min_chars) as [Hk'|Hk']; try lia.
    + cbn [app split_loop]. rewrite content_set_content.
      rewrite choose_chunk_size_in_range by assumption. cbn [rbind].
      set (size := target_size (len text) base).
      destruct (int_mul_0_8 size (target_size_range _ _ Hb)) as (x & -> & _ & Hx).
      cbn [rbind]. rewrite (Hx _ (len_nonneg text)).
      assert (E : (len text <=? 4 * size / 5) = (5 * len text <=? 4 * size)).
      { pose proof (Z.div_mod (4 * size) 5 ltac:(lia)).
        pose proof (Z.mod_pos_bound (4 * size) 5 ltac:(lia)).
        destruct (Z.leb_spec (len text) (4 * size / 5)),
          (Z.leb_spec (5 * len text) (4 * size)); try reflexivity; lia. }
      rewrite E. destruct (5 * len text <=? 4 * size).
      * rewrite IH. cbn [rbind].
        destruct (collect _) as [ys|e]; cbn [rbind]; [|reflexivity].
        now rewrite <- app_assoc.
      * destruct (recursive_split size overlap (set_content d text)) as [ps|e];
          cbn [rbind]; [|reflexivity].
        rewrite IH. destruct (collect _) as [ys|e]; cbn [rbind]; [|reflexivity].
        now rewrite <- app_assoc.
    + cbn [app rbind]. rewrite IH. now destruct (collect _).
Qed.

(** C5: within that range of [base_chunk_size], [split_documents] returns
    the contributions of the loaded units in order, where a unit whose
    trimmed text is shorter than [min_chars] contributes nothing, and a unit
    whose trimmed text has at least [min_chars] characters and at most 0.8
    times its chosen target size contributes exactly itself, with the
    trimmed text and its own metadata; [target_size] is the size
    [choose_chunk_size] chooses. *)
Theorem split_documents_small_unit_passthrough docs base_chunk_size overlap min_chars :
  - 2 ^ 50 < base_chunk_size < 2 ^ 50 ->
  split_documents recursive_split docs base_chunk_size overlap min_chars =
  collect (map (unit_chunks recursive_split base_chunk_size overlap min_chars) docs)
  /\
  (forall d,
      let text := strip (content d) in
      let size := target_size (len text) base_chunk_size in
      choose_chunk_size (len text) base_chunk_size = Ok size /\
      (len text < min_chars ->
       unit_chunks recursive_split base_chunk_size overlap min_chars d = Ok []) /\
      (min_chars <= len text -> 5 * len text <= 4 * size ->
       unit_chunks recursive_split base_chunk_size overlap min_chars d =
       Ok [{| page_content := Some text; metadata := metadata d |}])).
Proof.
  intros Hb. split.
  - unfold split_documents. destruct docs as [|d docs]; [reflexivity|].
    pose proof (split_loop_collect base_chunk_size overlap min_chars (d :: docs) Hb []) as L.
    destruct (flat_map (keep_unit min_chars) (d :: docs)) as [|f fs] eqn:F.
    + cbn [split_loop] in L.
      destruct (collect _) as [ys|e]; cbn [rbind app] in L; congruence.
    + rewrite L. destruct (collect _); reflexivity.
  - intros d text size. split; [now apply choose_chunk_size_in_range|].
    unfold unit_chunks. fold text. fold size. split.
    + intros H. destruct (Z.ltb_spec (len text) min_chars); [reflexivity|lia].
    + intros H1 H2. destruct (Z.ltb_spec (len text) min_chars); [lia|].
      destruct (Z.leb_spec (5 * len text) (4 * size)); [reflexivity|lia].
Qed.

End SplitProperties.

(** Two loaded units, a splitter that is never reached: a short page is
    dropped, a small one comes back trimmed, with its metadata. *)
Definition page (s : string) (n : Z) : Document :=
  {| page_content := Some (lit s); metadata := {[ lit "page" := VInt n ]} |}.

Lemma split_documents_small_unit_passthrough_witness :
  split_documents (fun _ _ _ => Raise ValueError)
    [page "  7 " 1; page "  Hello, world.  " 2] 800 100 10
  = Ok [page "Hello, world." 2].
Proof.
  destruct (split_documents_small_unit_passthrough (fun _ _ _ => Raise ValueError)
              [page "  7 " 1; page "  Hello, world.  " 2] 800 100 10 ltac:(lia))
    as [E _].
  rewrite E. vm_compute. reflexivity.
Defined.

(** A base beyond the range of binary64: the unit is within 0.8 times the
    size chosen for it, and the comparison raises instead of keeping it. *)
Definition unit3000 : Document :=
  {| page_content := Some (repeat 97%N 3000); metadata := ∅ |}.

Lemma split_documents_overflow :
  strip (content unit3000) = content unit3000 /\
  1 <= len (content unit3000) /\
  choose_chunk_size (len (content unit3000)) (2 ^ 1024) = Ok (2 ^ 1024) /\
  5 * len (content unit3000) <= 4 * 2 ^ 1024 /\
  split_documents (fun _ _ _ => Ok []) [unit3000] (2 ^ 1024) 0 1 = Raise OverflowError.
Proof.
  split; [vm_compute; reflexivity|].
  split; [vm_compute; discriminate|].
  split; [vm_compute; reflexivity|].
  split; [vm_compute; discriminate|].
  vm_compute. reflexivity.
Qed.

End Splitter.

(* ===================================================================== *)
(** * app/domain/documents/loader.py *)
(* ===================================================================== *)

Module Loader.

(** The metadata [load_pdf] gives the page of index [i]. *)
Definition pdf_metadata (path name : text) (i : Z) : gmap (list N) value :=
  {[ lit "source" := VStr path;
     lit "page" := VInt (i + 1);
     lit "category" := VStr (lit "PDFPage");
     lit "filename" := VStr name ]}.

(** The loop of [load_pdf] over [enumerate(reader.pages)]; [pages] holds
    what [page.extract_text()] returns for each page of the file, in order. *)
Fixpoint load_pdf_loop (path name : text) (i : Z) (pages : list (list N))
    (docs : list Document) : list Document :=
  match pages with
  | [] => docs
  | [] :: rest => load_pdf_loop path name (i + 1) rest docs
  | text :: rest =>
      let text := strip text in
      if len text <? 10 then load_pdf_loop path name (i + 1) rest docs
      else
        load_pdf_loop path name (i + 1) rest
          (docs ++ [{| page_content := Some text;
                       metadata := pdf_metadata path name i |}])
  end.

Definition load_pdf (path : text) (pages : list (list N)) : list Document :=
  load_pdf_loop path (basename path) 0 pages [].

(** The page number a document carries. *)
Definition page_of (d : Document) : Z :=
  match metadata d !! lit "page" with
  | Some (VInt n) => n
  | _ => 0
  end.

(** ** Trimming *)

Lemma lstrip_where_fixed p s :
  match s with [] => True | c :: _ => p c = false end -> lstrip_where p s = s.
Proof. destruct s as [|c s]; [reflexivity|]. cbn. now intros ->. Qed.

Lemma lstrip_where_head p s :
  match lstrip_where p s with [] => True | c :: _ => p c = false end.
Proof.
  induction s as [|c s IH]; [exact I|]. cbn.
  destruct (p c) eqn:E; [exact IH|exact E].
Qed.

Lemma lstrip_where_idem p s : lstrip_where p (lstrip_where p s) = lstrip_where p s.
Proof. apply lstrip_where_fixed, lstrip_where_head. Qed.

Lemma lstrip_where_snoc p s c :
  p c = false -> lstrip_where p (s ++ [c]) = lstrip_where p s ++ [c].
Proof.
  intros Hc. induction s as [|a s IH]; cbn; [now rewrite Hc|].
  destruct (p a); [exact IH|reflexivity].
Qed.

Lemma rstrip_where_cons p c s :
  p c = false -> rstrip_where p (c :: s) = c :: rstrip_where p s.
Proof.
  intros Hc. unfold rstrip_where. cbn [rev].
  now rewrite lstrip_where_snoc, rev_app_distr by assumption.
Qed.

Lemma rstrip_where_idem p s : rstrip_where p (rstrip_where p s) = rstrip_where p s.
Proof. unfold rstrip_where. now rewrite rev_involutive, lstrip_where_idem. Qed.

(** [s.strip().strip() == s.strip()] *)
Lemma strip_idem s : strip (strip s) = strip s.
Proof.
  unfold strip. pose proof (lstrip_where_head isspace s) as Hh.
  destruct (lstrip_where isspace s) as [|c l]; [reflexivity|].
  rewrite (rstrip_where_cons _ _ _ Hh).
  rewrite lstrip_where_fixed by exact Hh.
  now rewrite (rstrip_where_cons _ _ _ Hh), rstrip_where_idem.
Qed.

(** ** What [load_pdf] returns *)

(** The documents of the pages from index [i] on, without the accumulator. *)
Fixpoint pdf_documents (path name : text) (i : Z) (pages : list (list N))
  : list Document :=
  match pages with
  | [] => []
  | text :: rest =>
      (if (len (strip text) <? 10) || bool_decide (text = [])
       then []
       else [{| page_content := Some (strip text);
                metadata := pdf_metadata path name i |}])
      ++ pdf_documents path name (i + 1) rest
  end.

Lemma load_pdf_loop_documents path name pages : forall i docs,
  load_pdf_loop path name i pages docs = docs ++ pdf_documents path name i pages.
Proof.
  induction pages as [|text rest IH]; intros i docs; cbn [load_pdf_loop pdf_documents].
  - now rewrite app_nil_r.
  - destruct text as [|c text].
    + rewrite IH. now rewrite orb_true_r.
    + rewrite orb_false_r. destruct (len (strip (c :: text)) <? 10).
      * apply IH.
      * rewrite IH. now rewrite <- app_assoc.
Qed.

Lemma page_of_pdf_metadata path name i content :
  page_of {| page_content := content; metadata := pdf_metadata path name i |} = i + 1.
Proof. reflexivity. Qed.

Lemma pdf_documents_pages path name pages : forall i,
  Forall (fun d =>
            exists k text,
              pages !! k = Some text /\
              page_content d = Some (strip text) /\
              10 <= len (strip text) /\
              metadata d = pdf_metadata path name (i + Z.of_nat k))
         (pdf_documents path name i pages).
Proof.
  induction pages as [|text rest IH]; intros i; [constructor|].
  cbn [pdf_documents]. apply Forall_app. split.
  - destruct (Z.ltb_spec (len (strip text)) 10) as [Hl|Hl]; cbn [orb]; [constructor|].
    destruct (bool_decide (text = [])); constructor; [|constructor].
    exists 0%nat, text. cbn. repeat split; [exact Hl|].
    now rewrite Z.add_0_r.
  - specialize (IH (i + 1)). eapply List.Forall_impl; [|exact IH].
    intros d (k & t & Hk & Hc & Hl & Hm). exists (S k), t.
    repeat split; try assumption. rewrite Hm. f_equal. lia.
Qed.

Lemma pdf_documents_sorted path name pages : forall i,
  Forall (fun d => i < page_of d) (pdf_documents path name i pages) /\
  StronglySorted Z.lt (map page_of (pdf_documents path name i pages)).
Proof.
  induction pages as [|text rest IH]; intros i; [split; constructor|].
  cbn [pdf_documents]. destruct (IH (i + 1)) as [Hall Hs].
  assert (Hall' : Forall (fun d => i + 1 < page_of d)
                    (pdf_documents path name (i + 1) rest)) by exact Hall.
  destruct ((len (strip text) <? 10) || bool_decide (text = [])); cbn [app map].
  - split; [|exact Hs]. eapply List.Forall_impl; [|exact Hall]. cbn. lia.
  - split.
    + constructor; [rewrite page_of_pdf_metadata; lia|].
      eapply List.Forall_impl; [|exact Hall]. cbn. lia.
    + constructor; [exact Hs|]. rewrite page_of_pdf_metadata.
      apply Forall_map. exact Hall'.
Qed.


(** ** Loading, then chunking *)

Section LoadAndSplit.

Variable recursive_split : Z -> Z -> Document -> result (list Document).

(** What a page contributes to the chunks: itself when its text is within
    0.8 times the size chosen for it, and else what the recursive splitter
    makes of it. *)
Definition page_chunks (base_chunk_size overlap : Z) (d : Document)
  : result (list Document) :=
  let size := Splitter.target_size (len (content d)) base_chunk_size in
  if 5 * len (content d) <=? 4 * size then Ok [d]
  else recursive_split size overlap d.

Lemma unit_chunks_page base overlap min_chars d text :
  min_chars <= 10 ->
  page_content d = Some (strip text) -> 10 <= len (strip text) ->
  Splitter.unit_chunks recursive_split base overlap min_chars d
  = page_chunks base overlap d.
Proof.
  intros Hm Hc Hl. unfold Splitter.unit_chunks, page_chunks, content. rewrite Hc.
  rewrite strip_idem.
  destruct (Z.ltb_spec (len (strip text)) min_chars); [lia|].
  assert (set_content d (strip text) = d) as ->; [|reflexivity].
  destruct d as [pc md]. cbn in Hc. subst pc. reflexivity.
Qed.


End LoadAndSplit.


End Loader.

(* ===================================================================== *)
(** * The tables of the store *)
(* ===================================================================== *)

Module Database.

(** The rows of the two tables, with the columns the [INSERT] statements of
    queries.py name.  An id is a UUID; an embedding is a list of floats; the
    [metadata] column holds the JSON text [json.dumps] made of the
    dictionary, read back as a dictionary. *)
Inductive Status := Processing | Completed.

#[export] Instance Status_eq_dec : EqDecision Status.
Proof. solve_decision. Defined.

Record DocumentRow := {
  doc_id : N;
  filename : list N;
  file_type : list N;
  file_size : Z;
  content_hash : list N;
  status : Status
}.

Record ChunkRow := {
  chunk_id : N;
  document_id : N;
  chunk_index : Z;
  chunk_content : list N;
  embedding : list spec_float;
  chunk_metadata : gmap (list N) value
}.

Record Store := {
  documents : list DocumentRow;
  document_chunks : list ChunkRow
}.

(** The key under which queries.py records a chunk's position. *)
Definition key_chunk_index : text := lit "chunk_index".

(** The rows [insert_document_chunks] builds, one for each pair of
    [zip(chunks, embeddings)] numbered by [enumerate] from [chunk_index];
    [uuid] is the number of the next fresh UUID. *)
Fixpoint chunk_rows (document_id : N) (chunk_index : Z) (uuid : N)
    (pairs : list (Document * list spec_float)) : list ChunkRow :=
  match pairs with
  | [] => []
  | (document, embedding) :: rest =>
      {| chunk_id := uuid;
         document_id := document_id;
         chunk_index := chunk_index;
         chunk_content := content document;
         embedding := embedding;
         chunk_metadata := <[key_chunk_index := VInt chunk_index]> (metadata document) |}
      :: chunk_rows document_id (chunk_index + 1) (uuid + 1) rest
  end.

(** The rows of one document, in the order of the table. *)
Definition chunks_of (s : Store) (d : N) : list ChunkRow :=
  List.filter (fun r => (document_id r =? d)%N) (document_chunks s).

End Database.

Import Database.

(* ===================================================================== *)
(** * app/domain/rag/retrieval.py: the functions without effects *)
(* ===================================================================== *)

Module Retrieval.

Section PercentSpacing.

(** The decimal digits of Unicode beyond ASCII (category Nd), as the
    interpreter's character database lists them. *)
Variable unicode_decimal : char -> bool.

(** [\d] in a [str] pattern. *)
Definition isdecimal (c : char) : bool :=
  if (c <? 128)%N then ((48 <=? c) && (c <=? 57))%N else unicode_decimal c.

Definition percent : char := 37%N.

(** [r"(\d+)\s+%"] *)
Definition percent_pattern : list Regex.item :=
  [Regex.OneOrMore isdecimal; Regex.OneOrMore isspace; Regex.One (N.eqb percent)].

(** [r"\1%"]: group 1 is what the first item consumed. *)
Definition percent_repl (groups : list text) : text := nth 0 groups [] ++ [percent].

Definition fix_percent_spacing (t : text) : text :=
  Regex.sub percent_pattern percent_repl t.

(** ** The rule in the specification's words

    An occurrence is one or more digits, then white space, then ['%']. *)
Definition has_occurrence (t : text) : Prop :=
  exists pre ds ws post,
    t = pre ++ ds ++ ws ++ percent :: post /\
    ds <> [] /\ ws <> [] /\
    forallb isdecimal ds = true /\ forallb isspace ws = true.

(** The white space starting here runs up to a ['%']. *)
Definition gap_before_percent (s : text) : bool :=
  match lstrip_where isspace s with
  | c :: _ => (c =? percent)%N
  | [] => false
  end.

(** Rewriting every occurrence: the white space between a digit and a
    ['%'] is dropped, everything else is kept. *)
Fixpoint close_gaps (after_digit : bool) (s : text) : text :=
  match s with
  | [] => []
  | c :: s' =>
      if after_digit && isspace c && gap_before_percent s
      then close_gaps true s'
      else c :: close_gaps (isdecimal c) s'
  end.

(** Some white space of [s] stands between a digit and a ['%']. *)
Fixpoint gap_site (after_digit : bool) (s : text) : bool :=
  match s with
  | [] => false
  | c :: s' =>
      (after_digit && isspace c && gap_before_percent s) || gap_site (isdecimal c) s'
  end.

Hypothesis unicode_decimal_not_space :
  forall c, unicode_decimal c = true -> isspace c = false.

Lemma decimal_not_space c : isdecimal c = true -> isspace c = false.
Proof.
  unfold isdecimal. destruct (c <? 128)%N eqn:E; [|apply unicode_decimal_not_space].
  intros H. apply andb_true_iff in H as [H1 H2].
  apply N.leb_le in H1, H2.
  destruct (isspace c) eqn:Es; [|reflexivity].
  apply isspace_ranges in Es. lia.
Qed.

Lemma space_not_decimal c : isspace c = true -> isdecimal c = false.
Proof.
  intros H. destruct (isdecimal c) eqn:E; [|reflexivity].
  apply decimal_not_space in E. congruence.
Qed.

Lemma percent_not_space : isspace percent = false.
Proof. reflexivity. Qed.

Lemma percent_not_decimal : isdecimal percent = false.
Proof. reflexivity. Qed.

Lemma lstrip_span p s : lstrip_where p s = snd (Regex.span p s).
Proof.
  induction s as [|c s IH]; simpl; [reflexivity|].
  destruct (p c); [|reflexivity].
  rewrite IH. now destruct (Regex.span p s).
Qed.

(** The pattern matches at the start of [s] exactly when the longest run of
    digits there is followed by a run of white space and a ['%']. *)
Lemma match_percent s :
  Regex.match_at percent_pattern s =
  let ds := fst (Regex.span isdecimal s) in
  let r1 := snd (Regex.span isdecimal s) in
  let ws := fst (Regex.span isspace r1) in
  let r2 := snd (Regex.span isspace r1) in
  match ds, ws, r2 with
  | _ :: _, _ :: _, c :: r3 =>
      if (percent =? c)%N then Some ([ds; ws; [c]], r3) else None
  | _, _, _ => None
  end.
Proof.
  unfold percent_pattern. cbn [Regex.match_at].
  rewrite Regex.greedy_longest.
  2:{ intros c s' Hc. cbn [Regex.greedy]. now rewrite (decimal_not_space c Hc). }
  cbv zeta.
  destruct (fst (Regex.span isdecimal s)) as [|d ds]; [reflexivity|].
  rewrite Regex.greedy_longest.
  2:{ intros c s' Hc. destruct (N.eqb_spec percent c) as [<-|]; [|reflexivity].
      now rewrite percent_not_space in Hc. }
  destruct (fst (Regex.span isspace _)) as [|w ws]; [reflexivity|].
  destruct (snd (Regex.span isspace _)) as [|c r3]; [reflexivity|].
  destruct (percent =? c)%N; reflexivity.
Qed.

Lemma close_gaps_digits b ds r :
  forallb isdecimal ds = true ->
  close_gaps b (ds ++ r) = ds ++ close_gaps (match ds with [] => b | _ => true end) r.
Proof.
  revert b. induction ds as [|d ds IH]; intros b H; [reflexivity|].
  simpl in H. apply andb_true_iff in H as [Hd Hds].
  cbn [app close_gaps]. rewrite (decimal_not_space d Hd), andb_false_r. simpl.
  rewrite Hd, (IH true Hds). now destruct ds.
Qed.

Lemma gap_before_percent_spaces ws r :
  forallb isspace ws = true ->
  gap_before_percent (ws ++ r) = gap_before_percent r.
Proof.
  unfold gap_before_percent. induction ws as [|w ws IH]; intros H; [reflexivity|].
  simpl in H. apply andb_true_iff in H as [Hw Hws].
  simpl. rewrite Hw. now apply IH.
Qed.

Lemma gap_before_percent_head r : gap_before_percent (percent :: r) = true.
Proof. reflexivity. Qed.

Lemma close_gaps_gap ws r :
  forallb isspace ws = true ->
  close_gaps true (ws ++ percent :: r) = percent :: close_gaps false r.
Proof.
  induction ws as [|w ws IH]; intros H; [reflexivity|].
  pose proof (gap_before_percent_spaces (w :: ws) (percent :: r) H) as G.
  simpl in H. apply andb_true_iff in H as [Hw Hws].
  cbn [app close_gaps]. cbn [app] in G.
  rewrite Hw, G, gap_before_percent_head. simpl. now apply IH.
Qed.

Lemma close_gaps_after_digit s :
  match s with c :: _ => isspace c && gap_before_percent s = false | [] => True end ->
  close_gaps true s = close_gaps false s.
Proof.
  destruct s as [|c s]; [reflexivity|]. intros H. simpl close_gaps.
  simpl andb at 1. now rewrite H.
Qed.

Lemma sub_is_close_gaps n :
  forall s, (length s <= n)%nat ->
  Regex.sub_scan percent_pattern percent_repl 0 s = close_gaps false s.
Proof.
  induction n as [|n IH]; intros s Hn.
  { destruct s; [reflexivity|simpl in Hn; lia]. }
  destruct s as [|c s']; [reflexivity|].
  cbn [Regex.sub_scan]. rewrite match_percent. cbv zeta.
  pose proof (Regex.span_app isdecimal (c :: s')) as Happ1.
  pose proof (Regex.span_all isdecimal (c :: s')) as Hall1.
  pose proof (Regex.span_stop isdecimal (c :: s')) as Hstop1.
  destruct (Regex.span isdecimal (c :: s')) as [ds r1] eqn:E1. cbn [fst snd] in *.
  pose proof (Regex.span_app isspace r1) as Happ2.
  pose proof (Regex.span_all isspace r1) as Hall2.
  pose proof (lstrip_span isspace r1) as Hl2.
  destruct (Regex.span isspace r1) as [ws r2] eqn:E2. cbn [fst snd] in *.
  assert (Hfail : isdecimal c = true ->
            match ws, r2 with
            | _ :: _, x :: _ => (percent =? x)%N = false
            | _, _ => True
            end ->
            c :: Regex.sub_scan percent_pattern percent_repl 0 s' =
            close_gaps false (c :: s')).
  { intros Hc Hno. cbn [close_gaps]. rewrite andb_false_l, Hc. f_equal.
    rewrite (IH s') by (simpl in Hn; lia). symmetry.
    apply close_gaps_after_digit.
    destruct s' as [|c2 s2]; [exact I|].
    destruct (isspace c2) eqn:Ec2; [|reflexivity]. simpl.
    (* the run of digits is [c] alone, and the white space starts at [c2] *)
    simpl in E1. rewrite Hc, (space_not_decimal c2 Ec2) in E1.
    injection E1 as <- <-.
    unfold gap_before_percent. rewrite Hl2.
    simpl in E2. rewrite Ec2 in E2.
    destruct (Regex.span isspace s2) as [ws2 r2'] eqn:E3.
    injection E2 as <- <-.
    destruct r2' as [|x r3]; [reflexivity|].
    rewrite N.eqb_sym. exact Hno. }
  destruct ds as [|d ds].
  { (* no digit here *)
    simpl in E1. destruct (isdecimal c) eqn:Ec.
    - destruct (Regex.span isdecimal s'); discriminate.
    - cbn [close_gaps]. rewrite andb_false_l, Ec. f_equal.
      apply IH. simpl in Hn; lia. }
  assert (Hc : isdecimal c = true).
  { simpl in E1. destruct (isdecimal c); [reflexivity|discriminate]. }
  destruct ws as [|w ws]; [now apply Hfail|].
  destruct r2 as [|x r3]; [now apply Hfail|].
  destruct (N.eqb_spec percent x) as [<-|Hx]; [|now apply Hfail].
  (* a match: digits [d :: ds], white space [w :: ws], then ['%'] *)
  rewrite Regex.sub_scan_skip.
  assert (Hs : c :: s' = (d :: ds) ++ (w :: ws) ++ percent :: r3)
    by (now rewrite Happ2, Happ1).
  rewrite Hs at 2.
  rewrite (close_gaps_digits false (d :: ds)), (close_gaps_gap (w :: ws)) by assumption.
  unfold percent_repl. cbn [nth]. rewrite <- app_assoc. f_equal. cbn [app]. f_equal.
  assert (Hskip : skipn (length (c :: s') - length r3 - 1) s' = r3).
  { replace s' with (tl (c :: s')) by reflexivity. rewrite Hs.
    assert (L : forall (a b : text), skipn (length (a ++ b) - length b - 1) (tl (a ++ b)) = b
                                     \/ a = []).
    { intros a b. destruct a as [|a0 a]; [now right|left]. cbn [app tl length].
      rewrite length_app.
      replace (S (length a + length b) - length b - 1)%nat with (length a) by lia.
      now rewrite skipn_app, skipn_all, Nat.sub_diag. }
    rewrite !app_assoc.
    destruct (L ((((d :: ds) ++ w :: ws) ++ [percent])) r3) as [H|H].
    - rewrite <- !app_assoc in *. exact H.
    - destruct ds; discriminate. }
  rewrite Hskip. apply IH.
  apply (f_equal (@length N)) in Hs. rewrite !length_app in Hs. simpl in Hs, Hn. lia.
Qed.

Lemma fix_percent_spacing_spec t : fix_percent_spacing t = close_gaps false t.
Proof. apply (sub_is_close_gaps (length t)). lia. Qed.

Lemma gap_site_mono b s : gap_site false s = true -> gap_site b s = true.
Proof.
  destruct s as [|c s]; simpl; [discriminate|].
  intros ->. apply orb_true_r.
Qed.

Lemma gap_site_prefix pre s b : gap_site false s = true -> gap_site b (pre ++ s) = true.
Proof.
  revert b. induction pre as [|c pre IH]; intros b H; simpl.
  - now apply gap_site_mono.
  - rewrite (IH _ H). apply orb_true_r.
Qed.

Lemma gap_site_digits b ds ws post :
  ds <> [] -> ws <> [] ->
  forallb isdecimal ds = true -> forallb isspace ws = true ->
  gap_site b (ds ++ ws ++ percent :: post) = true.
Proof.
  intros Hds Hws Hd Hw. revert b Hds Hd.
  induction ds as [|d ds IH]; intros b Hds Hd; [congruence|].
  simpl in Hd. apply andb_true_iff in Hd as [Hd1 Hd2].
  cbn [app gap_site]. rewrite Hd1. destruct ds as [|d' ds].
  - destruct ws as [|w ws]; [congruence|].
    pose proof (gap_before_percent_spaces (w :: ws) (percent :: post) Hw) as G.
    simpl in Hw. apply andb_true_iff in Hw as [Hw1 Hw2].
    cbn [app gap_site] in *. rewrite Hw1, G. simpl. apply orb_true_r.
  - rewrite IH; [apply orb_true_r|congruence|assumption].
Qed.

Lemma occurrence_gap_site t : has_occurrence t -> gap_site false t = true.
Proof.
  intros (pre & ds & ws & post & -> & Hds & Hws & Hd & Hw).
  apply gap_site_prefix. now apply gap_site_digits.
Qed.

Lemma gap_site_occurrence s : forall b,
  gap_site b s = true ->
  (b = true /\ exists ws post, s = ws ++ percent :: post /\ ws <> [] /\
                               forallb isspace ws = true)
  \/ has_occurrence s.
Proof.
  induction s as [|c s IH]; intros b H; [discriminate|].
  cbn [gap_site] in H. apply orb_true_iff in H as [H|H].
  - apply andb_true_iff in H as [H Hg]. apply andb_true_iff in H as [-> Hc].
    left. split; [reflexivity|].
    unfold gap_before_percent in Hg. rewrite lstrip_span in Hg.
    pose proof (Regex.span_app isspace (c :: s)) as Happ.
    pose proof (Regex.span_all isspace (c :: s)) as Hall.
    destruct (Regex.span isspace (c :: s)) as [ws r] eqn:E. cbn [fst snd] in *.
    destruct r as [|x post]; [discriminate|].
    apply N.eqb_eq in Hg as ->.
    exists ws, post. repeat split; [now symmetry| |assumption].
    simpl in E. rewrite Hc in E. destruct (Regex.span isspace s).
    injection E as <- _. discriminate.
  - right. destruct (IH _ H) as [(Hc & ws & post & -> & Hws & Hw)|Ho].
    + exists [], [c], ws, post. repeat split; try assumption; [discriminate|].
      simpl. now rewrite Hc.
    + destruct Ho as (pre & ds & ws & post & -> & Ho).
      exists (c :: pre), ds, ws, post. now split.
Qed.

Lemma close_gaps_fixed s : forall b, gap_site b s = false -> close_gaps b s = s.
Proof.
  induction s as [|c s IH]; intros b H; [reflexivity|].
  cbn [gap_site] in H. apply orb_false_iff in H as [H1 H2].
  cbn [close_gaps]. rewrite H1. f_equal. now apply IH.
Qed.

Lemma gap_before_percent_cons c s :
  gap_before_percent (c :: s) =
  if isspace c then gap_before_percent s else (c =? percent)%N.
Proof. unfold gap_before_percent. simpl. now destruct (isspace c). Qed.

Lemma gap_before_percent_close_gaps s :
  gap_before_percent (close_gaps false s) = gap_before_percent s.
Proof.
  induction s as [|c s IH]; [reflexivity|].
  cbn [close_gaps]. rewrite andb_false_l, !gap_before_percent_cons.
  destruct (isspace c) eqn:Ec; [|reflexivity].
  now rewrite (space_not_decimal c Ec).
Qed.

Lemma gap_site_close_gaps s : forall b, gap_site b (close_gaps b s) = false.
Proof.
  induction s as [|c s IH]; intros b; [reflexivity|].
  cbn [close_gaps].
  destruct (b && isspace c && gap_before_percent (c :: s)) eqn:E.
  - apply andb_true_iff in E as [E _]. apply andb_true_iff in E as [-> _]. apply IH.
  - cbn [gap_site]. rewrite IH, orb_false_r.
    destruct (b && isspace c) eqn:E2; [|reflexivity].
    apply andb_true_iff in E2 as [-> Hc].
    rewrite andb_true_l, gap_before_percent_cons, Hc in E.
    rewrite andb_true_l, gap_before_percent_cons, Hc.
    now rewrite (space_not_decimal c Hc), gap_before_percent_close_gaps.
Qed.

(** C7: [fix_percent_spacing] rewrites every occurrence of digits, white
    space and ['%'] into the digits followed at once by ['%']: it turns
    "50 %" into "50%", leaves "100% already correct" as it is, is the
    function that drops the white space between a digit and a ['%'] and
    keeps every other character, leaves no occurrence behind, and returns a
    text with no occurrence unchanged. *)
Theorem fix_percent_spacing_rewrites_every_occurrence :
  fix_percent_spacing (lit "50 %") = lit "50%" /\
  fix_percent_spacing (lit "100% already correct") = lit "100% already correct" /\
  (forall ds ws post,
      ds <> [] -> ws <> [] ->
      forallb isdecimal ds = true -> forallb isspace ws = true ->
      fix_percent_spacing (ds ++ ws ++ percent :: post)
      = ds ++ percent :: fix_percent_spacing post) /\
  (forall t, fix_percent_spacing t = close_gaps false t) /\
  (forall t, ~ has_occurrence (fix_percent_spacing t)) /\
  (forall t, ~ has_occurrence t -> fix_percent_spacing t = t).
Proof.
  split; [reflexivity|]. split; [reflexivity|].
  split; [|split; [|split]].
  - intros ds ws post Hds Hws Hd Hw.
    rewrite !fix_percent_spacing_spec, close_gaps_digits by assumption.
    destruct ds; [congruence|]. now rewrite close_gaps_gap.
  - apply fix_percent_spacing_spec.
  - intros t Ho. apply occurrence_gap_site in Ho.
    now rewrite fix_percent_spacing_spec, gap_site_close_gaps in Ho.
  - intros t Hno. rewrite fix_percent_spacing_spec. apply close_gaps_fixed.
    destruct (gap_site false t) eqn:E; [|reflexivity].
    destruct (gap_site_occurrence t false E) as [[? _]|Ho]; [discriminate|contradiction].
Qed.

End PercentSpacing.

(** The Arabic-Indic digits U+0660..U+0669, a part of category Nd. *)
Definition arabic_indic_digit (c : char) : bool := ((1632 <=? c) && (c <=? 1641))%N.

Lemma fix_percent_spacing_rewrites_every_occurrence_witness :
  fix_percent_spacing arabic_indic_digit (lit "50 %") = lit "50%" /\
  fix_percent_spacing arabic_indic_digit (lit "100% already correct")
  = lit "100% already correct" /\
  fix_percent_spacing arabic_indic_digit [1637; 1632; 160; 37; 33]%N
  = [1637; 1632; 37; 33]%N.
Proof.
  assert (H : forall c, arabic_indic_digit c = true -> isspace c = false).
  { intros c H. unfold arabic_indic_digit in H.
    apply andb_true_iff in H as [H1 H2]. apply N.leb_le in H1, H2.
    destruct (isspace c) eqn:Es; [|reflexivity].
    apply isspace_ranges in Es. lia. }
  destruct (fix_percent_spacing_rewrites_every_occurrence arabic_indic_digit H)
    as (E1 & E2 & E3 & _).
  split; [exact E1|]. split; [exact E2|].
  apply (E3 [1637; 1632]%N [160]%N [33]%N); [discriminate|discriminate|reflexivity|reflexivity].
Defined.


(** ** Context assembly and source extraction *)

(** The document [semantic_search] and [get_all_document_chunks] make of a
    row: the stored metadata, with the row's id, document id and chunk
    index written into it. *)
Definition document_of_row (r : ChunkRow) : Document :=
  let m := chunk_metadata r in
  let m := <[lit "id" := VUuid (chunk_id r)]> m in
  let m := <[lit "document_id" := VUuid (document_id r)]> m in
  let m := <[lit "chunk_index" := VInt (chunk_index r)]> m in
  {| page_content := Some (chunk_content r); metadata := m |}.

(** [int(x)] under [try: ... except Exception: x = 0] *)
Definition int_or_zero (v : value) : Z :=
  match Py.int v with
  | Ok n => n
  | Raise _ => 0
  end.

(** The body of the loop of [extract_sources], for one chunk's metadata. *)
Definition extract_source (meta : gmap (list N) value) : text :=
  let source := Py.get meta (lit "source") (VStr []) in
  let page := Py.get meta (lit "page") (VInt 0) in
  let idx := Py.get meta (lit "chunkIndex") (VInt 0) in
  let name := if truthy source then basename (Py.str source) else lit "unknown" in
  let page := int_or_zero page in
  let idx := int_or_zero idx in
  name ++ lit ":" ++ str_of_int page ++ lit ":" ++ str_of_int idx.

Definition extract_sources (chunks : list Document) : list (list N) :=
  map (fun c => extract_source (metadata c)) chunks.

(** [sep.join(parts)] *)
Fixpoint join (sep : text) (parts : list (list N)) : text :=
  match parts with
  | [] => []
  | [p] => p
  | p :: rest => p ++ sep ++ join sep rest
  end.

(** [build_context]: the chunk texts, each under its 1-based label. *)
Fixpoint context_parts (i : Z) (chunks : list Document) : list (list N) :=
  match chunks with
  | [] => []
  | doc :: rest =>
      (lit "[Chunk " ++ str_of_int i ++ lit "]" ++ [10%N] ++ content doc)
      :: context_parts (i + 1) rest
  end.

Definition build_context (chunks : list Document) : text :=
  join ([10; 10]%N ++ lit "---" ++ [10; 10]%N) (context_parts 1 chunks).

(** ** Citations of ingested chunks *)

(** A chunk of page 2 of [/data/report.pdf], as the loader and the chunker
    hand it to ingestion. *)
Definition report_chunk : Document :=
  {| page_content := Some (lit "Revenue grew by 12% in the second quarter.");
     metadata := {[ lit "source" := VStr (lit "/data/report.pdf");
                    lit "page" := VInt 2 ]} |}.

(** C6: a chunk stored by [insert_document_chunks] with chunk index 3 and
    read back by [semantic_search] carries the index 3 in the column and
    under the key "chunk_index" of its metadata, yet the citation
    [extract_sources] makes of it ends in ":0": the function reads the key
    "chunkIndex", which nothing writes. *)
Theorem extract_sources_misses_chunk_index :
  let rows := chunk_rows 7 3 100 [(report_chunk, [])] in
  let retrieved := map document_of_row rows in
  map chunk_index rows = [3] /\
  map (fun d => metadata d !! lit "chunk_index") retrieved = [Some (VInt 3)] /\
  extract_sources retrieved = [lit "report.pdf:2:0"].
Proof. vm_compute. repeat split. Qed.

(** Whatever the chunk, the index component is read from "chunkIndex". *)
Lemma extract_source_index meta :
  meta !! lit "chunkIndex" = None ->
  exists name page, extract_source meta = name ++ lit ":" ++ page ++ lit ":0".
Proof.
  intros H. unfold extract_source, Py.get. rewrite H.
  eexists _, _. reflexivity.
Qed.

Lemma extract_source_unknown : extract_source ∅ = lit "unknown:0:0".
Proof. vm_compute. reflexivity. Qed.

(** ** What the rewriting keeps *)

Section PercentSpacingKeeps.

Variable unicode_decimal : N -> bool.

Hypothesis unicode_decimal_not_space :
  forall c, unicode_decimal c = true -> isspace c = false.

Lemma close_gaps_sublist s : forall b, sublist (close_gaps unicode_decimal b s) s.
Proof.
  induction s as [|c s IH]; intros b; [constructor|].
  cbn [close_gaps].
  destruct (b && isspace c && gap_before_percent (c :: s)).
  - apply sublist_cons, IH.
  - apply sublist_skip, IH.
Qed.

Lemma close_gaps_keeps s : forall b,
  List.filter (fun c => negb (isspace c)) (close_gaps unicode_decimal b s)
  = List.filter (fun c => negb (isspace c)) s.
Proof.
  induction s as [|c s IH]; intros b; [reflexivity|].
  cbn [close_gaps].
  destruct (b && isspace c && gap_before_percent (c :: s)) eqn:E.
  - apply andb_true_iff in E as [E _]. apply andb_true_iff in E as [_ Hc].
    cbn [List.filter]. rewrite Hc. cbn [negb]. apply IH.
  - cbn [List.filter]. now rewrite IH.
Qed.


End PercentSpacingKeeps.

Lemma arabic_indic_digit_not_space c :
  arabic_indic_digit c = true -> isspace c = false.
Proof.
  intros H. unfold arabic_indic_digit in H.
  apply andb_true_iff in H as [H1 H2]. apply N.leb_le in H1, H2.
  destruct (isspace c) eqn:Es; [|reflexivity].
  apply isspace_ranges in Es. lia.
Qed.


End Retrieval.

(* ===================================================================== *)
(** * app/domain/uploads/processor.py: the functions without effects *)
(* ===================================================================== *)

Module Processor.

(** [Path(name).suffix] for a name without ['/']: from the last ['.'] on,
    unless that dot is the first or the last character. *)
Fixpoint rfind_dot (s : text) (i : nat) (found : option nat) : option nat :=
  match s with
  | [] => found
  | c :: s' => rfind_dot s' (S i) (if (c =? 46)%N then Some i else found)
  end.

Definition suffix (name : text) : text :=
  match rfind_dot name 0 None with
  | Some i => if (0 <? i)%nat && (i <? length name - 1)%nat then skipn i name else []
  | None => []
  end.

Definition ALLOWED_EXT : list (list N) :=
  [lit ".txt"; lit ".rtf"; lit ".doc"; lit ".docx"; lit ".pdf"; lit ".ppt"; lit ".pptx"].

Definition text_eqb (a b : text) : bool := bool_decide (a = b).

Definition validate_extension (name : text) : bool :=
  existsb (text_eqb (lower (suffix name))) ALLOWED_EXT.

Section Sanitize.

(** The alphanumeric characters of Unicode beyond ASCII
    ([Py_UNICODE_ISALNUM]), as the interpreter's character database lists
    them. *)
Variable unicode_alnum : char -> bool.

(** [\w] in a [str] pattern. *)
Definition isword (c : char) : bool :=
  if (c <? 128)%N
  then (((48 <=? c) && (c <=? 57)) || ((65 <=? c) && (c <=? 90))
        || ((97 <=? c) && (c <=? 122)) || (c =? 95))%N
  else unicode_alnum c.

(** The class [[\w\s.-]]. *)
Definition safe (c : char) : bool :=
  isword c || isspace c || (c =? 46)%N || (c =? 45)%N.

Definition sanitize_filename (name : text) : text :=
  let name := strip name in
  let name := replace name (lit "..") [] in
  let name := replace name (lit "/") (lit "_") in
  let name := replace name [92%N] (lit "_") in
  let name := Regex.sub [Regex.One (fun c => negb (safe c))] (fun _ => []) name in
  slice_to 255 name.

(** ** What [sanitize_filename] ensures, and what it does not *)

Lemma sub_one_filter cls s :
  Regex.sub [Regex.One cls] (fun _ => []) s = List.filter (fun c => negb (cls c)) s.
Proof.
  unfold Regex.sub. induction s as [|c s IH]; [reflexivity|].
  cbn [Regex.sub_scan Regex.match_at List.filter].
  destruct (cls c); cbn [negb].
  - cbn [length app]. replace (S (length s) - length s - 1)%nat with 0%nat by lia.
    exact IH.
  - now rewrite IH.
Qed.

(** The result has at most 255 characters, all of the safe class, and so
    neither ['/'] nor ['\']. *)
Lemma sanitize_filename_safe name :
  (length (sanitize_filename name) <= 255)%nat /\
  forallb safe (sanitize_filename name) = true /\
  ~ In 47%N (sanitize_filename name) /\ ~ In 92%N (sanitize_filename name).
Proof.
  unfold sanitize_filename, slice_to. rewrite sub_one_filter.
  set (s := replace _ _ _).
  assert (Hsafe : forallb safe (firstn 255 (List.filter (fun c => negb (negb (safe c))) s)) = true).
  { apply forallb_forall. intros c Hc.
    assert (Hc' : In c (List.filter (fun c => negb (negb (safe c))) s)).
    { rewrite <- (firstn_skipn 255). apply in_or_app. now left. }
    apply filter_In in Hc' as [_ Hc']. now destruct (safe c). }
  split; [apply firstn_le_length|]. split; [exact Hsafe|].
  split; intros Hin; apply (proj1 (forallb_forall _ _) Hsafe) in Hin; discriminate.
Qed.

(** C9: [sanitize_filename] removes the ".." sequences before it removes
    the characters outside the safe class, and the second removal can bring
    two dots together: [".*."] becomes [".."], and ["report.?.pdf"], a name
    whose extension is accepted, becomes ["report..pdf"]. *)
Theorem sanitize_filename_leaves_dot_dot :
  sanitize_filename (lit ".*.") = lit ".." /\
  sanitize_filename (lit "report.?.pdf") = lit "report..pdf" /\
  validate_extension (sanitize_filename (lit "report.?.pdf")) = true.
Proof. vm_compute. repeat split. Qed.

End Sanitize.

(** ** The extension check *)

Lemma lower_char_dot c : (lower_char c =? 46)%N = (c =? 46)%N.
Proof.
  unfold lower_char.
  destruct ((65 <=? c) && (c <=? 90))%N eqn:E; [|reflexivity].
  apply andb_true_iff in E as [H1 H2]. apply N.leb_le in H1, H2.
  destruct (N.eqb_spec (c + 32) 46), (N.eqb_spec c 46); try reflexivity; lia.
Qed.

Lemma rfind_dot_lower s : forall i found,
  rfind_dot (lower s) i found = rfind_dot s i found.
Proof.
  induction s as [|c s IH]; intros i found; [reflexivity|].
  cbn [lower map rfind_dot]. rewrite lower_char_dot. apply IH.
Qed.

Lemma suffix_lower name : suffix (lower name) = lower (suffix name).
Proof.
  unfold suffix. rewrite rfind_dot_lower.
  assert (length (lower name) = length name) as -> by (unfold lower; apply length_map).
  destruct (rfind_dot name 0 None) as [i|]; [|reflexivity].
  destruct ((0 <? i)%nat && (i <? length name - 1)%nat); [|reflexivity].
  unfold lower. now rewrite skipn_map.
Qed.

(** The suffix of a name is a proper end of it. *)
Lemma suffix_shorter name : suffix name <> [] -> (length (suffix name) < length name)%nat.
Proof.
  unfold suffix. destruct (rfind_dot name 0 None) as [i|]; [|congruence].
  destruct (Nat.ltb_spec 0 i) as [Hi|Hi]; cbn [andb]; [|congruence].
  destruct (Nat.ltb_spec i (length name - 1)) as [Hj|Hj]; [|congruence].
  intros _. rewrite length_skipn. lia.
Qed.

Lemma validate_extension_allowed name :
  validate_extension name = true <-> In (lower (suffix name)) ALLOWED_EXT.
Proof.
  unfold validate_extension. rewrite existsb_exists. split.
  - intros (ext & Hin & E). unfold text_eqb in E.
    apply bool_decide_eq_true in E. now subst.
  - intros Hin. exists (lower (suffix name)). split; [exact Hin|].
    unfold text_eqb. now apply bool_decide_eq_true.
Qed.


Section AcceptedNames.

Variable unicode_alnum : char -> bool.


End AcceptedNames.



End Processor.

(* ===================================================================== *)
(** * The service over an explicit world *)
(* ===================================================================== *)

Module Service.

(** The calls that leave the process or that a property speaks of, in the
    order they are made. *)
Inductive Event :=
| EvEmbedDocuments (batch : list (list N))   (* model.embed_documents(batch) *)
| EvEmbedQuery (query : list N)              (* embed.embed_query(query) *)
| EvSleep (seconds : Z)                      (* time.sleep(seconds) *)
| EvSelectByHash (content_hash : list N)     (* SELECT id FROM documents WHERE content_hash = .. *)
| EvInsertDocument (document_id : N)         (* INSERT INTO documents .. *)
| EvInsertChunks (document_id : N) (rows : nat)  (* INSERT INTO document_chunks .., executemany *)
| EvMarkCompleted (document_id : N)          (* UPDATE documents SET status = 'completed' .. *)
| EvSelectNearest (k : Z)                    (* SELECT .. ORDER BY embedding <-> .. LIMIT .. *)
| EvCommit (after : Store)                   (* conn.commit() of a write, and the store it leaves *)
| EvSaveUpload (path : list N)               (* the upload written to disk *)
| EvLoadDocument (path : list N)             (* load_document(path) *)
| EvSplitDocuments (units : nat)             (* split_documents(docs) *)
| EvModelStream (prompt : list N).           (* model.stream(prompt) *)

Section Service.

(** ** The collaborators

    [Ext] is the state of whatever lies outside the process: the embedding
    and generation servers, the database server's availability, the disk.
    Each collaborator is a function of that state. *)
Context {Ext : Type}.

(** [OllamaEmbeddings.embed_documents(batch)]; [None] when it raises. *)
Variable embed_documents : list (list N) -> Ext -> option (list (list spec_float)) * Ext.
(** [OllamaEmbeddings.embed_query(text)]; [None] when it raises. *)
Variable embed_query : list N -> Ext -> option (list spec_float) * Ext.
(** Whether the next round trip to the database, or the next write to the
    disk, raises. *)
Variable io_fault : Ext -> bool * Ext.
(** [load_document(path)] on the bytes stored there; [None] when it raises. *)
Variable load_document : list N -> list N -> Ext -> option (list Document) * Ext.
(** [hashlib.sha256] of the bytes, in hexadecimal. *)
Variable sha256_hex : list N -> list N.
(** The recursive splitter of the library (see [Splitter]). *)
Variable recursive_split : Z -> Z -> Document -> result (list Document).
(** The rows in the order of [ORDER BY embedding <-> vector]. *)
Variable nearest : list spec_float -> list ChunkRow -> list ChunkRow.
(** [BM25Retriever.from_documents(docs, k=k).invoke(query)]. *)
Variable bm25 : list N -> Z -> list Document -> result (list Document).
(** [get_rag_chat_template().format(context=.., query=..)]. *)
Variable rag_chat_prompt : list N -> list N -> list N.
(** [model.stream(prompt)]: the [content] of each chunk of the answer, and
    whether the stream ends by raising. *)
Variable model_stream : list N -> Ext -> list (option (list N)) * bool * Ext.
(** The decimal digits of Unicode beyond ASCII (see [Retrieval]) and its
    alphanumeric characters (see [Processor]). *)
Variable unicode_decimal : N -> bool.
Variable unicode_alnum : N -> bool.

(** The settings. *)
Variable BASE_CHUNK MIN_CHARS OVERLAP MAX_FILE_SIZE retriever_k : Z.
Variable BASE_UPLOAD_DIR : list N.

(** ** The world and the monad of effects *)

Record World := {
  db : Store;                       (* the two tables *)
  next_uuid : N;                    (* the number of the next fresh UUID *)
  files : gmap (list N) (list N);   (* the files of the upload directory *)
  embedding_cached : bool;          (* the lru_cache of get_embedding_function *)
  warmed_up : bool;                 (* provider._warmed_up *)
  ext : Ext
}.

(** A computation returns or raises, changes the world, and leaves events. *)
Definition M (A : Type) : Type := World -> result A * World * list Event.

Definition ret {A} (a : A) : M A := fun w => (Ok a, w, []).

Definition raise {A} (e : exn) : M A := fun w => (Raise e, w, []).

Definition bind {A B} (c : M A) (k : A -> M B) : M B :=
  fun w =>
    match c w with
    | (Ok a, w1, t1) => let '(r, w2, t2) := k a w1 in (r, w2, t1 ++ t2)
    | (Raise e, w1, t1) => (Raise e, w1, t1)
    end.

(** [try: c except Exception as e: handler(e)] *)
Definition try_except {A} (c : M A) (handler : exn -> M A) : M A :=
  fun w =>
    match c w with
    | (Ok a, w1, t1) => (Ok a, w1, t1)
    | (Raise e, w1, t1) => let '(r, w2, t2) := handler e w1 in (r, w2, t1 ++ t2)
    end.

Definition emit (e : Event) : M unit := fun w => (Ok tt, w, [e]).

Definition get_world : M World := fun w => (Ok w, w, []).

Definition put_world (w' : World) : M unit := fun _ => (Ok tt, w', []).

Definition lift {A} (r : result A) : M A := fun w => (r, w, []).

Notation "'do' x <- c1 ; c2" := (bind c1 (fun x => c2))
  (at level 10, x name, c1 at level 100, c2 at level 200).
Notation "c1 ;; c2" := (bind c1 (fun _ => c2))
  (at level 100, c2 at level 200, right associativity).

Definition set_db (s : Store) (w : World) : World :=
  {| db := s; next_uuid := next_uuid w; files := files w;
     embedding_cached := embedding_cached w; warmed_up := warmed_up w; ext := ext w |}.

Definition set_ext (e : Ext) (w : World) : World :=
  {| db := db w; next_uuid := next_uuid w; files := files w;
     embedding_cached := embedding_cached w; warmed_up := warmed_up w; ext := e |}.

Definition set_next_uuid (n : N) (w : World) : World :=
  {| db := db w; next_uuid := n; files := files w;
     embedding_cached := embedding_cached w; warmed_up := warmed_up w; ext := ext w |}.

(** A call to a collaborator: its answer, and the state it leaves. *)
Definition ask {A} (f : Ext -> A * Ext) : M A :=
  fun w => let '(a, e) := f (ext w) in (Ok a, set_ext e w, []).

(** [uuid.uuid4()] *)
Definition uuid4 : M N :=
  fun w => (Ok (next_uuid w), set_next_uuid (next_uuid w + 1) w, []).

(** A write, committed: the store changes and the commit is recorded. *)
Definition commit (s : Store) : M unit :=
  fun w => (Ok tt, set_db s w, [EvCommit s]).

(** ** app/infra/database/queries.py *)

Definition get_document_by_hash (content_hash : list N) : M (option N) :=
  emit (EvSelectByHash content_hash) ;;
  do fault <- ask io_fault ;
  if fault : bool then raise DatabaseError
  else
    do w <- get_world ;
    ret (option_map doc_id
           (List.find (fun r => Processor.text_eqb (Database.content_hash r) content_hash)
                      (documents (db w)))).

Definition insert_document (filename file_type : list N) (file_size : Z)
    (content_hash : list N) : M N :=
  do document_id <- uuid4 ;
  emit (EvInsertDocument document_id) ;;
  do fault <- ask io_fault ;
  if fault : bool then raise DatabaseError
  else
    do w <- get_world ;
    commit {| documents :=
                documents (db w) ++
                [{| doc_id := document_id; filename := filename; file_type := file_type;
                    file_size := file_size; content_hash := content_hash;
                    status := Processing |}];
              document_chunks := document_chunks (db w) |} ;;
    ret document_id.

Definition insert_document_chunks (document_id : N) (chunks : list Document)
    (embeddings : list (list spec_float)) : M Z :=
  do w <- get_world ;
  let rows := chunk_rows document_id 0 (next_uuid w) (combine chunks embeddings) in
  put_world (set_next_uuid (next_uuid w + N.of_nat (length rows)) w) ;;
  emit (EvInsertChunks document_id (length rows)) ;;
  do fault <- ask io_fault ;
  if fault : bool then raise DatabaseError
  else
    do w <- get_world ;
    commit {| documents := documents (db w);
              document_chunks := document_chunks (db w) ++ rows |} ;;
    ret (len rows).

Definition complete (document_id : N) (r : DocumentRow) : DocumentRow :=
  if (doc_id r =? document_id)%N
  then {| doc_id := doc_id r; filename := filename r; file_type := file_type r;
          file_size := file_size r; content_hash := content_hash r;
          status := Completed |}
  else r.

Definition mark_document_completed (document_id : N) : M unit :=
  emit (EvMarkCompleted document_id) ;;
  do fault <- ask io_fault ;
  if fault : bool then raise DatabaseError
  else
    do w <- get_world ;
    commit {| documents := map (complete document_id) (documents (db w));
              document_chunks := document_chunks (db w) |}.

(** [range(start, stop, step)] *)
Definition py_range (start stop step : Z) : result (list Z) :=
  if step =? 0 then Raise ValueError
  else
    let count :=
      if 0 <? step
      then (if start <? stop then (stop - start + step - 1) / step else 0)
      else (if stop <? start then (start - stop - step - 1) / (- step) else 0) in
    Ok (map (fun j => start + Z.of_nat j * step) (seq 0 (Z.to_nat count))).

(** [xs[i : j]] for [0 <= i <= j] *)
Definition slice {A} (xs : list A) (i j : Z) : list A :=
  firstn (Z.to_nat (j - i)) (skipn (Z.to_nat i) xs).

(** The inner loop of [batch_embed]: the attempts on one sub-batch.  [None]
    is returned when the loop ends without a [break]. *)
Fixpoint embed_attempts (max_retries : Z) (attempts : list Z) (batch : list (list N))
  : M (option (list (list spec_float))) :=
  match attempts with
  | [] => ret None
  | attempt :: rest =>
      emit (EvEmbedDocuments batch) ;;
      do answer <- ask (embed_documents batch) ;
      match answer with
      | Some vectors => ret (Some vectors)
      | None =>
          if attempt =? max_retries - 1 then raise BackendError
          else
            emit (EvSleep (2 ^ attempt)) ;;
            embed_attempts max_retries rest batch
      end
  end.

(** The outer loop, over the start of each sub-batch. *)
Fixpoint embed_batches (texts : list (list N)) (batch_size : Z) (max_retries : Z)
    (attempts : list Z) (starts : list Z) (embeddings : list (list spec_float))
  : M (list (list spec_float)) :=
  match starts with
  | [] => ret embeddings
  | i :: rest =>
      let batch := slice texts i (i + batch_size) in
      do answer <- embed_attempts max_retries attempts batch ;
      embed_batches texts batch_size max_retries attempts rest
        (match answer with
         | Some vectors => embeddings ++ vectors
         | None => embeddings
         end)
  end.

Definition batch_embed (texts : list (list N)) (batch_size max_retries : Z)
  : M (list (list spec_float)) :=
  do starts <- lift (py_range 0 (len texts) batch_size) ;
  do attempts <- lift (py_range 0 max_retries 1) ;
  embed_batches texts batch_size max_retries attempts starts [].

(** ** app/domain/embeddings/provider.py *)

Definition set_embedding_flags (cached warmed : bool) (w : World) : World :=
  {| db := db w; next_uuid := next_uuid w; files := files w;
     embedding_cached := cached; warmed_up := warmed; ext := ext w |}.

Definition get_embedding_function : M unit :=
  do w <- get_world ;
  if embedding_cached w then ret tt
  else
    (if warmed_up w then ret tt
     else
       emit (EvEmbedQuery (lit "warmup")) ;;
       do answer <- ask (embed_query (lit "warmup")) ;
       match answer with
       | Some _ =>
           do w <- get_world ;
           put_world (set_embedding_flags (embedding_cached w) true w)
       | None => raise EmbeddingError
       end) ;;
    do w <- get_world ;
    put_world (set_embedding_flags true (warmed_up w) w).

Definition index_chunks (filename file_type : list N) (file_size : Z)
    (content_hash : list N) (chunks : list Document) : M (N * Z) :=
  do existing_id <- get_document_by_hash content_hash ;
  match existing_id with
  | Some existing_id => ret (existing_id, 0)
  | None =>
      do document_id <- insert_document filename file_type file_size content_hash ;
      do embeddings <-
        try_except
          (get_embedding_function ;;
           batch_embed (map content chunks) 32 3)
          (fun _ => raise EmbeddingError) ;
      do count <- insert_document_chunks document_id chunks embeddings ;
      mark_document_completed document_id ;;
      ret (document_id, count)
  end.

(** ** app/domain/uploads/processor.py *)

(** An upload: the declared file name, if any, and the bytes. *)
Record UploadFile := {
  upload_filename : option (list N);
  upload_bytes : list N
}.

Definition set_files (fs : gmap (list N) (list N)) (w : World) : World :=
  {| db := db w; next_uuid := next_uuid w; files := fs;
     embedding_cached := embedding_cached w; warmed_up := warmed_up w; ext := ext w |}.

(** [BASE_UPLOAD_DIR / name] for a name without ['/']. *)
Definition upload_path (name : list N) : list N := BASE_UPLOAD_DIR ++ lit "/" ++ name.

Definition save_upload (file : UploadFile) : M (list N) :=
  let sanitized_name :=
    Processor.sanitize_filename unicode_alnum (default [] (upload_filename file)) in
  let dest := upload_path sanitized_name in
  emit (EvSaveUpload dest) ;;
  do fault <- ask io_fault ;
  if fault : bool then raise BackendError
  else
    do w <- get_world ;
    put_world (set_files (<[dest := upload_bytes file]> (files w)) w) ;;
    ret dest.

(** [Path(filename).suffix.lower().lstrip(".") or "unknown"] *)
Definition file_type_of (filename : list N) : list N :=
  match lstrip_where (N.eqb 46) (lower (Processor.suffix filename)) with
  | [] => lit "unknown"
  | t => t
  end.

Definition process_upload (file : UploadFile) : M (N * Z * list N) :=
  match upload_filename file with
  | None | Some [] => raise InvalidFileTypeError
  | Some name =>
      let sanitized_filename := Processor.sanitize_filename unicode_alnum name in
      if negb (Processor.validate_extension sanitized_filename)
      then raise InvalidFileTypeError
      else
        let file_size := len (upload_bytes file) in
        if MAX_FILE_SIZE <? file_size then raise FileTooLargeError
        else if file_size =? 0 then raise InvalidFileTypeError
        else
          do path <- try_except (save_upload file)
                                (fun _ => raise DocumentProcessingError) ;
          try_except
            (let filename := sanitized_filename in
             let file_type := file_type_of filename in
             do w <- get_world ;
             match files w !! path with
             | None => raise BackendError
             | Some bytes =>
                 let actual_file_size := len bytes in
                 let content_hash := sha256_hex bytes in
                 emit (EvLoadDocument path) ;;
                 do loaded <- ask (load_document path bytes) ;
                 match loaded with
                 | None => raise BackendError
                 | Some docs =>
                     emit (EvSplitDocuments (length docs)) ;;
                     do chunks <-
                       lift (Splitter.split_documents recursive_split docs
                               BASE_CHUNK OVERLAP MIN_CHARS) ;
                     do indexed <-
                       index_chunks filename file_type actual_file_size content_hash chunks ;
                     ret (fst indexed, snd indexed, filename)
                 end
             end)
            (fun _ => raise DocumentProcessingError)
  end.

(** ** app/domain/rag/retrieval.py and streaming.py *)

Definition semantic_search (query : list N) (k : Z) (document_id : option N)
  : M (list Document) :=
  get_embedding_function ;;
  emit (EvEmbedQuery query) ;;
  do answer <- ask (embed_query query) ;
  match answer with
  | None => raise BackendError
  | Some vector =>
      emit (EvSelectNearest k) ;;
      do fault <- ask io_fault ;
      if (fault : bool) || (k <? 0) then raise BackendError
      else
        do w <- get_world ;
        let candidates :=
          match document_id with
          | Some d => chunks_of (db w) d
          | None => document_chunks (db w)
          end in
        let rows := firstn (Z.to_nat k) (nearest vector candidates) in
        ret (map Retrieval.document_of_row rows)
  end.

Definition hybrid_search (query : list N) (k : Z) (document_id : option N)
  : M (list Document) :=
  do semantic <- semantic_search query k document_id ;
  match semantic with
  | [] => ret []
  | _ :: _ => lift (bm25 query k semantic)
  end.

Definition NOT_FOUND : list N :=
  lit "I cannot find this information in the provided text.".

(** The loop over the chunks of the answer; [total] counts the characters
    seen so far. *)
Fixpoint stream_loop (chunks : list (option (list N))) (total : Z) : list (list N) :=
  match chunks with
  | [] => []
  | None :: rest | Some [] :: rest => stream_loop rest total
  | Some text :: rest =>
      let total := total + len text in
      let text :=
        if total =? len text
        then lstrip_where (fun c => (c =? 10) || (c =? 13) || (c =? 32))%N text
        else text in
      Retrieval.fix_percent_spacing unicode_decimal text :: stream_loop rest total
  end.

(** A generator: what it yields, and how it ends. *)
Definition stream_rag (query : list N) (k : option Z) (document_id : option N)
  : World -> (list (list N) * result unit) * World * list Event :=
  fun w =>
    let k := default retriever_k k in
    match hybrid_search query k document_id w with
    | (Raise e, w1, t1) => (([], Raise e), w1, t1)
    | (Ok [], w1, t1) => (([NOT_FOUND], Ok tt), w1, t1)
    | (Ok results, w1, t1) =>
        let context := Retrieval.build_context results in
        let prompt := rag_chat_prompt context query in
        let '(chunks, failed, e) := model_stream prompt (ext w1) in
        ((stream_loop chunks 0, if failed : bool then Raise BackendError else Ok tt),
         set_ext e w1, t1 ++ [EvModelStream prompt])
    end.

(** ** Reasoning about computations *)

(** Only the state of the collaborators differs. *)
Definition same_process (w w' : World) : Prop :=
  db w' = db w /\ next_uuid w' = next_uuid w /\ files w' = files w /\
  embedding_cached w' = embedding_cached w /\ warmed_up w' = warmed_up w.

Lemma same_process_refl w : same_process w w.
Proof. repeat split. Qed.

Lemma same_process_trans w1 w2 w3 :
  same_process w1 w2 -> same_process w2 w3 -> same_process w1 w3.
Proof.
  intros (D1 & U1 & F1 & C1 & W1) (D2 & U2 & F2 & C2 & W2).
  repeat split; congruence.
Qed.

Lemma same_process_set_ext e w : same_process w (set_ext e w).
Proof. repeat split. Qed.

Lemma bind_run {A B} (c : M A) (k : A -> M B) w :
  bind c k w =
  match c w with
  | (Ok a, w1, t1) => let '(r, w2, t2) := k a w1 in (r, w2, t1 ++ t2)
  | (Raise e, w1, t1) => (Raise e, w1, t1)
  end.
Proof. reflexivity. Qed.

(** ** The embedding gateway: [batch_embed] *)

(** The sub-batches of the specification: consecutive slices of [size]
    texts, the last one possibly shorter. *)
Definition sub_batches (size : nat) (texts : list (list N)) : list (list (list N)) :=
  map (fun j => firstn size (skipn (j * size) texts))
      (seq 0 ((length texts + size - 1) / size)).

(** The calls of [n] attempts on a sub-batch: before the attempt numbered
    [a + 1] the process sleeps [2^a]. *)
Definition attempts_trace (batch : list (list N)) (n : nat) : list Event :=
  match n with
  | O => []
  | S m =>
      EvEmbedDocuments batch
      :: flat_map (fun a => [EvSleep (2 ^ Z.of_nat a); EvEmbedDocuments batch]) (seq 0 m)
  end.

(** Where a request for a sub-batch was answered with these vectors. *)
Definition answered (batch : list (list N)) (vectors : list (list spec_float)) : Prop :=
  exists e e', embed_documents batch e = (Some vectors, e').

Lemma embed_attempts_3 batch w r w' tr :
  embed_attempts 3 [0; 1; 2] batch w = (r, w', tr) ->
  same_process w w' /\
  exists n, (1 <= n <= 3)%nat /\ tr = attempts_trace batch n /\
    match r with
    | Ok (Some vectors) => answered batch vectors
    | Ok None => False
    | Raise e => e = BackendError /\ n = 3%nat
    end.
Proof.
  unfold embed_attempts, bind, emit, ask, ret, raise. change (3 - 1) with 2. cbn.
  destruct (embed_documents batch (ext w)) as [[v1|] e1] eqn:E1; cbn.
  { intros [= <- <- <-]. split; [apply same_process_set_ext|].
    exists 1%nat. repeat split; try lia. now exists (ext w), e1. }
  destruct (embed_documents batch e1) as [[v2|] e2] eqn:E2; cbn.
  { intros [= <- <- <-]. split; [repeat split|].
    exists 2%nat. repeat split; try lia. now exists e1, e2. }
  destruct (embed_documents batch e2) as [[v3|] e3] eqn:E3; cbn.
  { intros [= <- <- <-]. split; [repeat split|].
    exists 3%nat. repeat split; try lia. now exists e2, e3. }
  intros [= <- <- <-]. split; [repeat split|].
  exists 3%nat. repeat split; lia.
Qed.

Lemma embed_batches_spec texts starts : forall acc w r w' tr,
  embed_batches texts 32 3 [0; 1; 2] starts acc w = (r, w', tr) ->
  let batches := map (fun i => slice texts i (i + 32)) starts in
  same_process w w' /\
  exists attempts : list nat,
    Forall (fun n => 1 <= n <= 3)%nat attempts /\
    (length attempts <= length batches)%nat /\
    tr = concat (zip_with attempts_trace batches attempts) /\
    match r with
    | Ok embeddings =>
        length attempts = length batches /\
        exists answers, embeddings = acc ++ concat answers /\
                        Forall2 answered batches answers
    | Raise e => e = BackendError /\ exists earlier, attempts = earlier ++ [3%nat]
    end.
Proof.
  induction starts as [|i starts IH]; intros acc w r w' tr.
  - cbn. intros [= <- <- <-]. split; [apply same_process_refl|].
    exists []. repeat split; try constructor.
    exists []. split; [now rewrite app_nil_r|constructor].
  - cbn [embed_batches map]. rewrite bind_run.
    destruct (embed_attempts 3 [0; 1; 2] (slice texts i (i + 32)) w)
      as [[r1 w1] t1] eqn:E1.
    apply embed_attempts_3 in E1 as (S1 & n & Hn & -> & Hr1).
    destruct r1 as [[v|]|e]; [| contradiction |].
    + destruct (embed_batches texts 32 3 [0; 1; 2] starts (acc ++ v) w1)
        as [[r2 w2] t2] eqn:E2.
      intros [= <- <- <-].
      apply IH in E2 as (S2 & ns & Hns & Hlen & -> & Hr2).
      split; [eapply same_process_trans; eassumption|].
      exists (n :: ns). split; [now constructor|]. split; [cbn; lia|].
      split; [reflexivity|].
      destruct r2 as [embs|e].
      * destruct Hr2 as (Hl & answers & -> & Hall).
        split; [cbn; lia|]. exists (v :: answers). split.
        -- cbn. now rewrite app_assoc.
        -- now constructor.
      * destruct Hr2 as (-> & earlier & ->). split; [reflexivity|].
        now exists (n :: earlier).
    + destruct Hr1 as (-> & ->). intros [= <- <- <-].
      split; [assumption|].
      exists [3%nat]. split; [constructor; [lia|constructor]|].
      split; [cbn; lia|]. split; [cbn [zip_with concat]; rewrite zip_with_nil_r; cbn [concat]; now rewrite app_nil_r|].
      split; [reflexivity|]. now exists [].
Qed.

Lemma py_range_batches n :
  py_range 0 (Z.of_nat n) 32 =
  Ok (map (fun j => Z.of_nat (j * 32)) (seq 0 ((n + 32 - 1) / 32))).
Proof.
  unfold py_range. cbn [Z.eqb Z.ltb Z.compare].
  assert (E : Z.to_nat (if 0 <? Z.of_nat n then (Z.of_nat n - 0 + 32 - 1) / 32 else 0)
              = ((n + 32 - 1) / 32)%nat).
  { destruct (Z.ltb_spec 0 (Z.of_nat n)).
    - replace (Z.of_nat n - 0 + 32 - 1) with (Z.of_nat (n + 32 - 1)) by lia.
      change 32 with (Z.of_nat 32). rewrite <- Nat2Z.inj_div. apply Nat2Z.id.
    - assert (n = 0)%nat as -> by lia. reflexivity. }
  rewrite E. f_equal. apply map_ext. intros j. lia.
Qed.

Lemma sub_batches_slices texts :
  map (fun i => slice texts i (i + 32))
      (map (fun j => Z.of_nat (j * 32)) (seq 0 ((length texts + 32 - 1) / 32)))
  = sub_batches 32 texts.
Proof.
  unfold sub_batches. rewrite map_map. apply map_ext. intros j. unfold slice.
  replace (Z.to_nat (Z.of_nat (j * 32) + 32 - Z.of_nat (j * 32))) with 32%nat by lia.
  now rewrite Nat2Z.id.
Qed.

(** The sub-batches cut the texts into consecutive pieces of 1 to [size]. *)
Lemma sub_batches_from {A} size (xs : list A) : forall m start,
  (0 < size)%nat ->
  concat (map (fun j => firstn size (skipn (j * size) xs)) (seq start m))
  = firstn (m * size) (skipn (start * size) xs).
Proof.
  induction m as [|m IH]; intros start Hs; [reflexivity|].
  cbn [seq map concat]. rewrite IH by assumption.
  replace (S start * size)%nat with (size + start * size)%nat by lia.
  rewrite <- skipn_skipn.
  replace (S m * size)%nat with (size + m * size)%nat by lia.
  set (ys := skipn (start * size) xs).
  rewrite <- (firstn_skipn size ys) at 3.
  rewrite firstn_app.
  destruct (Nat.le_gt_cases size (length ys)) as [L|L].
  - rewrite firstn_firstn, length_firstn.
    replace (Init.Nat.min (size + m * size) size) with size by lia.
    do 2 f_equal. lia.
  - rewrite (skipn_all2 ys) by lia. rewrite !firstn_nil, !app_nil_r.
    rewrite firstn_firstn. f_equal. lia.
Qed.

Lemma sub_batches_partition texts :
  concat (sub_batches 32 texts) = texts /\
  Forall (fun b => 1 <= length b <= 32)%nat (sub_batches 32 texts).
Proof.
  unfold sub_batches. split.
  - rewrite sub_batches_from by lia. cbn [Nat.mul skipn].
    apply firstn_all2.
    pose proof (Nat.div_mod_eq (length texts + 32 - 1) 32).
    pose proof (Nat.mod_upper_bound (length texts + 32 - 1) 32). lia.
  - apply List.Forall_forall. intros b Hb. apply in_map_iff in Hb as (j & <- & Hj).
    apply in_seq in Hj. rewrite length_firstn, length_skipn.
    pose proof (Nat.div_mod_eq (length texts + 32 - 1) 32).
    pose proof (Nat.mod_upper_bound (length texts + 32 - 1) 32). lia.
Qed.

Lemma Forall2_concat {A B} (R : A -> B -> Prop) xss yss :
  Forall2 (Forall2 R) xss yss -> Forall2 R (concat xss) (concat yss).
Proof.
  induction 1 as [|xs ys xss yss H _ IH]; [constructor|].
  cbn. now apply Forall2_app.
Qed.

(** C3: [batch_embed] with its default parameters cuts the texts into
    consecutive sub-batches of at most 32; every sub-batch it reaches is
    attempted one to three times, with a sleep of 1 before the second
    attempt and of 2 before the third; it raises only when the third attempt
    of a sub-batch has failed, with the error of the model; and when it
    returns, every sub-batch was answered and the result holds one
    embedding for each text, in the order of the texts ([R] is any relation
    between a text and a vector that the answers of the model satisfy). *)
Theorem batch_embed_retries (R : list N -> list spec_float -> Prop) texts w r w' tr :
  (forall batch e vectors e',
      embed_documents batch e = (Some vectors, e') -> Forall2 R batch vectors) ->
  batch_embed texts 32 3 w = (r, w', tr) ->
  let batches := sub_batches 32 texts in
  concat batches = texts /\
  Forall (fun b => 1 <= length b <= 32)%nat batches /\
  exists attempts : list nat,
    Forall (fun n => 1 <= n <= 3)%nat attempts /\
    (length attempts <= length batches)%nat /\
    tr = concat (zip_with attempts_trace batches attempts) /\
    match r with
    | Ok embeddings => length attempts = length batches /\ Forall2 R texts embeddings
    | Raise e => e = BackendError /\ exists earlier, attempts = earlier ++ [3%nat]
    end.
Proof.
  intros HR Hrun batches.
  destruct (sub_batches_partition texts) as [Hcat Hlen].
  split; [exact Hcat|]. split; [exact Hlen|].
  unfold batch_embed in Hrun.
  change (py_range 0 3 1) with (@Ok (list Z) [0; 1; 2]) in Hrun.
  unfold len in Hrun. rewrite py_range_batches in Hrun.
  unfold bind, lift in Hrun. cbv beta iota in Hrun.
  destruct (embed_batches texts 32 3 [0; 1; 2] _ [] w) as [[r2 w2] t2] eqn:E.
  cbn [app] in Hrun. injection Hrun as <- <- <-.
  apply embed_batches_spec in E. cbv zeta in E.
  rewrite sub_batches_slices in E. fold batches in E.
  destruct E as (_ & ns & Hns & Hl & -> & Hr).
  exists ns. repeat split; try assumption.
  destruct r2 as [embs|e]; [|exact Hr].
  destruct Hr as (Hl2 & answers & -> & Hall). split; [exact Hl2|].
  cbn [app]. rewrite <- Hcat. apply Forall2_concat.
  eapply Forall2_impl; [exact Hall|].
  intros b v (e & e' & Hev). eapply HR, Hev.
Qed.

(** ** The store operations, one by one *)

Definition find_by_hash (s : Store) (h : list N) : option DocumentRow :=
  List.find (fun r => Processor.text_eqb (content_hash r) h) (documents s).

Definition processing_row (d : N) (filename file_type : list N) (file_size : Z)
    (h : list N) : DocumentRow :=
  {| doc_id := d; filename := filename; file_type := file_type;
     file_size := file_size; content_hash := h; status := Processing |}.

Definition with_document (s : Store) (r : DocumentRow) : Store :=
  {| documents := documents s ++ [r]; document_chunks := document_chunks s |}.

Definition with_chunks (s : Store) (rows : list ChunkRow) : Store :=
  {| documents := documents s; document_chunks := document_chunks s ++ rows |}.

Definition completed (s : Store) (d : N) : Store :=
  {| documents := map (complete d) (documents s);
     document_chunks := document_chunks s |}.

(** Everything but the tables, the UUID counter and the collaborators. *)
Definition same_files (w w' : World) : Prop :=
  files w' = files w /\ embedding_cached w' = embedding_cached w /\
  warmed_up w' = warmed_up w.

Lemma get_document_by_hash_run h w r w' tr :
  get_document_by_hash h w = (r, w', tr) ->
  same_process w w' /\ tr = [EvSelectByHash h] /\
  (r = Raise DatabaseError \/ r = Ok (option_map doc_id (find_by_hash (db w) h))).
Proof.
  unfold get_document_by_hash, bind, emit, ask, ret, raise, get_world. cbn.
  destruct (io_fault (ext w)) as [[|] e]; cbn; intros [= <- <- <-];
    (split; [repeat split|]); (split; [reflexivity|]); [now left|now right].
Qed.

Lemma insert_document_run filename file_type file_size h w r w' tr :
  insert_document filename file_type file_size h w = (r, w', tr) ->
  let d := next_uuid w in
  next_uuid w' = (d + 1)%N /\ same_files w w' /\
  ((r = Raise DatabaseError /\ db w' = db w /\ tr = [EvInsertDocument d])
   \/ (r = Ok d /\
       db w' = with_document (db w) (processing_row d filename file_type file_size h) /\
       tr = [EvInsertDocument d; EvCommit (db w')])).
Proof.
  unfold insert_document, bind, emit, ask, ret, raise, get_world, uuid4, commit. cbn.
  destruct (io_fault (ext w)) as [[|] e]; cbn; intros [= <- <- <-];
    (split; [reflexivity|]); (split; [repeat split|]); [left|right]; repeat split.
Qed.

Lemma insert_document_chunks_run d chunks embeddings w r w' tr :
  insert_document_chunks d chunks embeddings w = (r, w', tr) ->
  let rows := chunk_rows d 0 (next_uuid w) (combine chunks embeddings) in
  next_uuid w' = (next_uuid w + N.of_nat (length rows))%N /\ same_files w w' /\
  ((r = Raise DatabaseError /\ db w' = db w /\ tr = [EvInsertChunks d (length rows)])
   \/ (r = Ok (len rows) /\ db w' = with_chunks (db w) rows /\
       tr = [EvInsertChunks d (length rows); EvCommit (db w')])).
Proof.
  unfold insert_document_chunks, bind, emit, ask, ret, raise, get_world, put_world, commit.
  cbn.
  destruct (io_fault (ext w)) as [[|] e]; cbn; intros [= <- <- <-];
    (split; [reflexivity|]); (split; [repeat split|]); [left|right]; repeat split.
Qed.

Lemma mark_document_completed_run d w r w' tr :
  mark_document_completed d w = (r, w', tr) ->
  next_uuid w' = next_uuid w /\ same_files w w' /\
  ((r = Raise DatabaseError /\ db w' = db w /\ tr = [EvMarkCompleted d])
   \/ (r = Ok tt /\ db w' = completed (db w) d /\
       tr = [EvMarkCompleted d; EvCommit (db w')])).
Proof.
  unfold mark_document_completed, bind, emit, ask, ret, raise, get_world, commit. cbn.
  destruct (io_fault (ext w)) as [[|] e]; cbn; intros [= <- <- <-];
    (split; [reflexivity|]); (split; [repeat split|]); [left|right]; repeat split.
Qed.

(** The events of the embedding gateway. *)
Definition embedding_event (e : Event) : Prop :=
  match e with
  | EvEmbedDocuments _ | EvEmbedQuery _ | EvSleep _ => True
  | _ => False
  end.

Lemma attempts_trace_embedding batch n : Forall embedding_event (attempts_trace batch n).
Proof.
  destruct n as [|m]; [constructor|]. cbn [attempts_trace].
  constructor; [exact I|]. induction (seq 0 m) as [|a l IH]; [constructor|].
  cbn. repeat (constructor; [exact I|]). exact IH.
Qed.

Lemma zip_attempts_embedding batches : forall attempts,
  Forall embedding_event (concat (zip_with attempts_trace batches attempts)).
Proof.
  induction batches as [|b bs IH]; intros [|n ns]; cbn; try constructor.
  apply Forall_app. split; [apply attempts_trace_embedding|apply IH].
Qed.

Lemma get_embedding_function_run w r w' tr :
  get_embedding_function w = (r, w', tr) ->
  db w' = db w /\ next_uuid w' = next_uuid w /\ files w' = files w /\
  Forall embedding_event tr /\ (r = Ok tt \/ r = Raise EmbeddingError).
Proof.
  unfold get_embedding_function, bind, emit, ask, ret, raise, get_world, put_world. cbn.
  destruct (embedding_cached w); cbn.
  { intros [= <- <- <-]. repeat split; [constructor|now left]. }
  destruct (warmed_up w); cbn.
  { intros [= <- <- <-]. repeat split; [constructor|now left]. }
  destruct (embed_query (lit "warmup") (ext w)) as [[v|] e]; cbn;
    intros [= <- <- <-]; repeat split;
    try (constructor; [exact I|constructor]); [now left|now right].
Qed.

(** What the embedding step of [index_chunks] leaves: the tables and the
    counter as they were, events of the gateway only, and on success the
    answers of the model to the sub-batches of the texts. *)
Lemma embedding_step_run texts w r w' tr :
  try_except (get_embedding_function ;; batch_embed texts 32 3)
             (fun _ => raise EmbeddingError) w = (r, w', tr) ->
  db w' = db w /\ next_uuid w' = next_uuid w /\ files w' = files w /\
  Forall embedding_event tr /\
  match r with
  | Ok embeddings =>
      exists answers, embeddings = concat answers /\
                      Forall2 answered (sub_batches 32 texts) answers
  | Raise e => e = EmbeddingError
  end.
Proof.
  unfold try_except. rewrite bind_run.
  destruct (get_embedding_function w) as [[r1 w1] t1] eqn:E1.
  apply get_embedding_function_run in E1 as (D1 & U1 & F1 & T1 & R1).
  destruct R1 as [-> | ->].
  2:{ unfold raise. cbn. intros [= <- <- <-]. rewrite app_nil_r. now repeat split. }
  destruct (batch_embed texts 32 3 w1) as [[r2 w2] t2] eqn:E2.
  unfold batch_embed in E2.
  change (py_range 0 3 1) with (@Ok (list Z) [0; 1; 2]) in E2.
  unfold len in E2. rewrite py_range_batches in E2.
  unfold bind, lift in E2. cbv beta iota in E2.
  destruct (embed_batches texts 32 3 [0; 1; 2] _ [] w1) as [[r3 w3] t3] eqn:E3.
  cbn [app] in E2. injection E2 as <- <- <-.
  apply embed_batches_spec in E3. cbv zeta in E3. rewrite sub_batches_slices in E3.
  destruct E3 as ((D3 & U3 & F3 & _) & ns & _ & _ & -> & Hr).
  assert (HT : Forall embedding_event
                 (t1 ++ concat (zip_with attempts_trace (sub_batches 32 texts) ns))).
  { apply Forall_app. split; [exact T1|apply zip_attempts_embedding]. }
  destruct r3 as [embs|e]; unfold raise; cbn; intros [= <- <- <-].
  - repeat split; try congruence; [exact HT|].
    destruct Hr as (_ & answers & -> & Hall). now exists answers.
  - rewrite app_nil_r. repeat split; try congruence. exact HT.
Qed.

(** ** The ways a run of [index_chunks] can go

    [s0] is the store before the run, [d] the fresh UUID, [row] the row of
    the new document.  Each way gives the result, the store and the UUID
    counter after the run, and the events. *)
Section Outcomes.

Variables (s0 : Store) (d : N) (h : list N) (row : DocumentRow) (chunks : list Document).

Let s1 : Store := with_document s0 row.
Let rows (answers : list (list (list spec_float))) : list ChunkRow :=
  chunk_rows d 0 (d + 1) (combine chunks (concat answers)).
Let s2 answers : Store := with_chunks s1 (rows answers).
Let s3 answers : Store := completed (s2 answers) d.
Let answered_all answers : Prop :=
  Forall2 answered (sub_batches 32 (map content chunks)) answers.

Inductive index_outcome : result (N * Z) -> Store -> N -> list Event -> Prop :=
| Existing doc :
    find_by_hash s0 h = Some doc ->
    index_outcome (Ok (doc_id doc, 0)) s0 d [EvSelectByHash h]
| LookupFailed :
    index_outcome (Raise DatabaseError) s0 d [EvSelectByHash h]
| InsertFailed :
    find_by_hash s0 h = None ->
    index_outcome (Raise DatabaseError) s0 (d + 1)
      [EvSelectByHash h; EvInsertDocument d]
| EmbeddingFailed te :
    find_by_hash s0 h = None -> Forall embedding_event te ->
    index_outcome (Raise EmbeddingError) s1 (d + 1)
      ([EvSelectByHash h; EvInsertDocument d; EvCommit s1] ++ te)
| ChunksFailed te answers :
    find_by_hash s0 h = None -> Forall embedding_event te -> answered_all answers ->
    index_outcome (Raise DatabaseError) s1 (d + 1 + N.of_nat (length (rows answers)))
      ([EvSelectByHash h; EvInsertDocument d; EvCommit s1] ++ te
       ++ [EvInsertChunks d (length (rows answers))])
| MarkFailed te answers :
    find_by_hash s0 h = None -> Forall embedding_event te -> answered_all answers ->
    index_outcome (Raise DatabaseError) (s2 answers)
      (d + 1 + N.of_nat (length (rows answers)))
      ([EvSelectByHash h; EvInsertDocument d; EvCommit s1] ++ te
       ++ [EvInsertChunks d (length (rows answers)); EvCommit (s2 answers);
           EvMarkCompleted d])
| Indexed te answers :
    find_by_hash s0 h = None -> Forall embedding_event te -> answered_all answers ->
    index_outcome (Ok (d, len (rows answers))) (s3 answers)
      (d + 1 + N.of_nat (length (rows answers)))
      ([EvSelectByHash h; EvInsertDocument d; EvCommit s1] ++ te
       ++ [EvInsertChunks d (length (rows answers)); EvCommit (s2 answers);
           EvMarkCompleted d; EvCommit (s3 answers)]).

End Outcomes.

Lemma index_chunks_cases filename file_type file_size h chunks w r w' tr :
  index_chunks filename file_type file_size h chunks w = (r, w', tr) ->
  index_outcome (db w) (next_uuid w) h
    (processing_row (next_uuid w) filename file_type file_size h) chunks
    r (db w') (next_uuid w') tr
  /\ files w' = files w.
Proof.
  unfold index_chunks. rewrite bind_run.
  destruct (get_document_by_hash h w) as [[r1 w1] t1] eqn:E1.
  apply get_document_by_hash_run in E1 as ((D1 & U1 & F1 & _) & -> & R1).
  destruct R1 as [-> | ->].
  { intros [= <- <- <-]. rewrite D1, U1. split; [constructor|exact F1]. }
  destruct (find_by_hash (db w) h) as [doc|] eqn:Hfind; cbn [option_map].
  { unfold ret. cbn. intros [= <- <- <-]. rewrite D1, U1.
    split; [now constructor|exact F1]. }
  rewrite bind_run.
  destruct (insert_document filename file_type file_size h w1) as [[r2 w2] t2] eqn:E2.
  apply insert_document_run in E2 as (U2 & (F2 & _) & R2). cbv zeta in *.
  rewrite U1 in *. rewrite D1 in *.
  destruct R2 as [(-> & D2 & ->) | (-> & D2 & ->)].
  { intros [= <- <- <-]. rewrite D2, U2. split; [now constructor|congruence]. }
  rewrite bind_run.
  destruct (try_except _ _ w2) as [[r3 w3] t3] eqn:E3.
  apply embedding_step_run in E3 as (D3 & U3 & F3 & T3 & R3).
  destruct r3 as [embs|e].
  2:{ subst e. intros [= <- <- <-]. rewrite D3, U3, D2, U2.
      split; [now constructor|congruence]. }
  destruct R3 as (answers & -> & Hall).
  rewrite bind_run.
  destruct (insert_document_chunks _ chunks (concat answers) w3) as [[r4 w4] t4] eqn:E4.
  apply insert_document_chunks_run in E4 as (U4 & (F4 & _) & R4). cbv zeta in *.
  rewrite U3, U2 in *.
  destruct R4 as [(-> & D4 & ->) | (-> & D4 & ->)].
  { intros [= <- <- <-]. rewrite D4, U4, D3, D2.
    split; [|congruence].
    rewrite <- ?app_assoc. now apply ChunksFailed. }
  rewrite bind_run.
  destruct (mark_document_completed _ w4) as [[r5 w5] t5] eqn:E5.
  apply mark_document_completed_run in E5 as (U5 & (F5 & _) & R5).
  destruct R5 as [(-> & D5 & ->) | (-> & D5 & ->)].
  { intros [= <- <- <-]. rewrite D5, D4, U5, U4, D3, D2.
    split; [|congruence].
    rewrite <- ?app_assoc. now apply MarkFailed. }
  unfold ret. cbn [app]. intros [= <- <- <-].
  rewrite D5, D4, U5, U4, D3, D2.
  split; [|congruence].
  now apply Indexed.
Qed.

(** ** The rows of a document *)

Lemma chunk_rows_length d i u pairs : length (chunk_rows d i u pairs) = length pairs.
Proof.
  revert i u. induction pairs as [|[doc v] pairs IH]; intros i u; cbn; [reflexivity|].
  now rewrite IH.
Qed.

Lemma chunk_rows_indices d pairs : forall i u,
  map chunk_index (chunk_rows d i u pairs)
  = map (fun j => i + Z.of_nat j) (seq 0 (length pairs)).
Proof.
  induction pairs as [|[doc v] pairs IH]; intros i u; cbn; [reflexivity|].
  f_equal; [lia|]. rewrite IH, <- seq_shift, map_map.
  apply map_ext. intros j. lia.
Qed.

Lemma chunk_rows_contents d pairs : forall i u,
  map chunk_content (chunk_rows d i u pairs) = map (fun p => content (fst p)) pairs.
Proof.
  induction pairs as [|[doc v] pairs IH]; intros i u; cbn; [reflexivity|].
  now rewrite IH.
Qed.

Lemma chunk_rows_each d pairs : forall i u,
  Forall (fun r => document_id r = d /\
                   chunk_metadata r !! key_chunk_index = Some (VInt (chunk_index r)))
         (chunk_rows d i u pairs).
Proof.
  induction pairs as [|[doc v] pairs IH]; intros i u; cbn; constructor.
  - split; [reflexivity|]. cbn. apply lookup_insert_eq.
  - apply IH.
Qed.

Lemma combine_fst_firstn {A B} (xs : list A) (ys : list B) :
  map fst (combine xs ys) = firstn (length (combine xs ys)) xs.
Proof.
  revert ys. induction xs as [|x xs IH]; intros [|y ys]; cbn; try reflexivity.
  now rewrite IH.
Qed.

Lemma seq_indices_nodup n : NoDup (map Z.of_nat (seq 0 n)).
Proof.
  apply NoDup_fmap_2; [intros a b; lia|]. apply NoDup_ListNoDup, seq_NoDup.
Qed.

Lemma chunks_of_with_document s row d :
  chunks_of (with_document s row) d = chunks_of s d.
Proof. reflexivity. Qed.

Lemma chunks_of_completed s d' d : chunks_of (completed s d') d = chunks_of s d.
Proof. reflexivity. Qed.

Lemma filter_all {A} (p : A -> bool) l :
  Forall (fun x => p x = true) l -> List.filter p l = l.
Proof. induction 1 as [|x l H _ IH]; cbn; [reflexivity|]. now rewrite H, IH. Qed.

Lemma filter_none {A} (p : A -> bool) l :
  Forall (fun x => p x = false) l -> List.filter p l = [].
Proof. induction 1 as [|x l H _ IH]; cbn; [reflexivity|]. now rewrite H, IH. Qed.

Lemma chunks_of_with_chunks_same s d i u pairs :
  chunks_of (with_chunks s (chunk_rows d i u pairs)) d
  = chunks_of s d ++ chunk_rows d i u pairs.
Proof.
  unfold chunks_of, with_chunks. cbn [document_chunks].
  rewrite List.filter_app. f_equal. apply filter_all.
  eapply List.Forall_impl; [|apply chunk_rows_each].
  intros r [-> _]. apply N.eqb_refl.
Qed.

Lemma chunks_of_with_chunks_other s d d' i u pairs :
  d' <> d ->
  chunks_of (with_chunks s (chunk_rows d i u pairs)) d' = chunks_of s d'.
Proof.
  intros Hne. unfold chunks_of, with_chunks. cbn [document_chunks].
  rewrite List.filter_app, (filter_none _ (chunk_rows d i u pairs)), app_nil_r;
    [reflexivity|].
  eapply List.Forall_impl; [|apply chunk_rows_each].
  intros r [-> _]. now apply N.eqb_neq.
Qed.

(** No row of the store carries an id the counter has not reached. *)
Definition fresh_store (s : Store) (next : N) : Prop :=
  (forall doc, In doc (documents s) -> (doc_id doc < next)%N) /\
  (forall c, In c (document_chunks s) -> (document_id c < next)%N).

Lemma chunks_of_fresh s next d :
  fresh_store s next -> (next <= d)%N -> chunks_of s d = [].
Proof.
  intros [_ Hc] Hd. unfold chunks_of. apply filter_none.
  apply List.Forall_forall. intros c Hin. apply N.eqb_neq.
  specialize (Hc c Hin). lia.
Qed.

(** What [insert_document_chunks] appends. *)
Lemma insert_document_chunks_rows d chunks embeddings w n w' tr :
  insert_document_chunks d chunks embeddings w = (Ok n, w', tr) ->
  exists rows,
    document_chunks (db w') = document_chunks (db w) ++ rows /\
    n = len rows /\
    length rows = Nat.min (length chunks) (length embeddings) /\
    map chunk_index rows = map Z.of_nat (seq 0 (length rows)) /\
    map chunk_content rows = map content (firstn (length rows) chunks) /\
    Forall (fun r => document_id r = d /\
                     chunk_metadata r !! key_chunk_index = Some (VInt (chunk_index r)))
           rows.
Proof.
  intros H. apply insert_document_chunks_run in H as (_ & _ & [(H & _)|(H & D & _)]);
    [discriminate|].
  injection H as ->. eexists. split; [rewrite D; reflexivity|].
  split; [reflexivity|].
  rewrite chunk_rows_length, length_combine. split; [reflexivity|].
  split; [now rewrite chunk_rows_indices, length_combine|].
  split; [|apply chunk_rows_each].
  rewrite chunk_rows_contents, <- (map_map fst content), combine_fst_firstn.
  now rewrite length_combine.
Qed.

(** C10: after a successful ingestion of a new document that reports [n]
    chunks, the rows of the document, in the order of the table, carry the
    chunk indices 0, 1, ..., n-1, in the order of the chunk list; the
    metadata of each row records the index of its column; so the indices
    are contiguous from 0 and no two rows of the document share one. *)
Theorem ingestion_chunk_indices filename file_type file_size h chunks w d n w' tr :
  fresh_store (db w) (next_uuid w) ->
  find_by_hash (db w) h = None ->
  index_chunks filename file_type file_size h chunks w = (Ok (d, n), w', tr) ->
  let rows := chunks_of (db w') d in
  n = len rows /\
  map chunk_index rows = map Z.of_nat (seq 0 (length rows)) /\
  map chunk_content rows = map content (firstn (length rows) chunks) /\
  Forall (fun r => chunk_metadata r !! key_chunk_index = Some (VInt (chunk_index r)))
         rows /\
  NoDup (map chunk_index rows).
Proof.
  intros Hfresh Hnew Hrun rows.
  apply index_chunks_cases in Hrun as [Hout _].
  assert (E : exists answers,
             d = next_uuid w /\
             n = len (chunk_rows d 0 (d + 1) (combine chunks (concat answers))) /\
             rows = chunk_rows d 0 (d + 1) (combine chunks (concat answers))).
  { unfold rows. remember (db w') as s' eqn:Es'. clear Es'.
    inversion Hout as [doc Hf| | | | | |te answers _ _ _]; subst; [congruence|].
    exists answers. split; [reflexivity|]. split; [reflexivity|].
    rewrite chunks_of_completed, chunks_of_with_chunks_same.
    rewrite chunks_of_with_document, (chunks_of_fresh _ _ _ Hfresh); [reflexivity|lia]. }
  destruct E as (answers & -> & -> & E). rewrite E.
  split; [reflexivity|].
  assert (Hidx : map chunk_index
                   (chunk_rows (next_uuid w) 0 (next_uuid w + 1)
                      (combine chunks (concat answers)))
                 = map Z.of_nat
                     (seq 0 (length (chunk_rows (next_uuid w) 0 (next_uuid w + 1)
                                       (combine chunks (concat answers)))))).
  { now rewrite chunk_rows_indices, chunk_rows_length. }
  split; [exact Hidx|]. split.
  - rewrite chunk_rows_contents, <- (map_map fst content), combine_fst_firstn.
    now rewrite chunk_rows_length.
  - split.
    + eapply List.Forall_impl; [|apply chunk_rows_each]. now intros r [_ Hr].
    + rewrite Hidx. apply seq_indices_nodup.
Qed.

(** ** Completed documents have all their chunks *)

(** The stores a run commits, in order. *)
Fixpoint commits (tr : list Event) : list Store :=
  match tr with
  | [] => []
  | EvCommit s :: tr' => s :: commits tr'
  | _ :: tr' => commits tr'
  end.

(** Every store of a run: the one it starts from, then each one a commit
    leaves. *)
Definition visited (w : World) (tr : list Event) : list Store := db w :: commits tr.

(** The rows of [d] are the chunks, all of them, in order. *)
Definition chunks_complete (s : Store) (d : N) (chunks : list Document) : Prop :=
  map chunk_content (chunks_of s d) = map content chunks /\
  map chunk_index (chunks_of s d) = map Z.of_nat (seq 0 (length chunks)).

(** [manifest] records the chunk list each document was ingested with; a
    store is consistent with it when every document it shows as completed
    has exactly those chunks. *)
Definition consistent (manifest : gmap N (list Document)) (s : Store) : Prop :=
  forall doc, In doc (documents s) -> status doc = Completed ->
    exists chunks, manifest !! doc_id doc = Some chunks /\
                   chunks_complete s (doc_id doc) chunks.

Lemma commits_app t1 t2 : commits (t1 ++ t2) = commits t1 ++ commits t2.
Proof.
  induction t1 as [|e t1 IH]; [reflexivity|].
  destruct e; cbn; rewrite ?IH; reflexivity.
Qed.

Lemma commits_embedding te : Forall embedding_event te -> commits te = [].
Proof.
  induction 1 as [|e te He _ IH]; [reflexivity|].
  destruct e; cbn; try exact IH; contradiction.
Qed.

Lemma not_in_embedding te d :
  Forall embedding_event te -> ~ In (EvMarkCompleted d) te.
Proof.
  intros H Hin. apply (proj1 (List.Forall_forall _ _) H) in Hin. exact Hin.
Qed.

Lemma answered_lengths batches answers :
  (forall batch e vectors e',
      embed_documents batch e = (Some vectors, e') -> length vectors = length batch) ->
  Forall2 answered batches answers ->
  length (concat answers) = length (concat batches).
Proof.
  intros HL. induction 1 as [|b v bs vs (e & e' & Hb) _ IH]; [reflexivity|].
  cbn. rewrite !length_app, IH. f_equal. eapply HL, Hb.
Qed.

Section Consistency.

Variables (manifest : gmap N (list Document)) (s0 : Store) (d : N)
          (row : DocumentRow) (chunks : list Document)
          (embeddings : list (list spec_float)).

Let m' := <[d := chunks]> manifest.
Let s1 := with_document s0 row.
Let rows := chunk_rows d 0 (d + 1) (combine chunks embeddings).
Let s2 := with_chunks s1 rows.
Let s3 := completed s2 d.

Lemma old_document doc : fresh_store s0 d -> In doc (documents s0) -> doc_id doc <> d.
Proof. intros [Hd _] Hin. specialize (Hd doc Hin). lia. Qed.

Lemma consistent_s0 : fresh_store s0 d -> consistent manifest s0 -> consistent m' s0.
Proof.
  intros fresh consistent0 doc Hin Hst.
  destruct (consistent0 doc Hin Hst) as (cs & Hm & Hc).
  exists cs. split; [|exact Hc].
  unfold m'. rewrite lookup_insert_ne; [exact Hm|].
  intros E. now apply (old_document doc fresh Hin).
Qed.

Lemma consistent_s1 :
  fresh_store s0 d -> status row = Processing -> consistent manifest s0 ->
  consistent m' s1.
Proof.
  intros fresh row_status consistent0 doc Hin Hst.
  unfold s1, with_document in Hin. cbn in Hin.
  apply in_app_or in Hin as [Hin|[<-|[]]]; [|congruence].
  destruct (consistent_s0 fresh consistent0 doc Hin Hst) as (cs & Hm & Hc).
  exists cs. split; [exact Hm|exact Hc].
Qed.

Lemma consistent_s2 :
  fresh_store s0 d -> status row = Processing -> consistent manifest s0 ->
  consistent m' s2.
Proof.
  intros fresh row_status consistent0 doc Hin Hst.
  unfold s2, with_chunks in Hin. cbn in Hin.
  apply in_app_or in Hin as [Hin|[<-|[]]]; [|congruence].
  destruct (consistent_s0 fresh consistent0 doc Hin Hst) as (cs & Hm & Hc).
  exists cs. split; [exact Hm|].
  unfold chunks_complete, s2, rows.
  rewrite chunks_of_with_chunks_other by (now apply old_document).
  exact Hc.
Qed.

Lemma rows_complete :
  fresh_store s0 d -> length embeddings = length chunks ->
  chunks_complete s2 d chunks.
Proof.
  intros fresh all_embedded.
  unfold chunks_complete, s2, s1, rows.
  rewrite chunks_of_with_chunks_same, chunks_of_with_document.
  rewrite (chunks_of_fresh _ _ _ fresh) by lia. cbn [app].
  rewrite chunk_rows_contents, chunk_rows_indices, length_combine.
  rewrite all_embedded, Nat.min_id. split; [|reflexivity].
  rewrite <- (map_map fst content), combine_fst_firstn, length_combine.
  rewrite all_embedded, Nat.min_id. now rewrite firstn_all.
Qed.

Lemma consistent_s3 :
  fresh_store s0 d -> status row = Processing ->
  length embeddings = length chunks -> consistent manifest s0 ->
  consistent m' s3.
Proof.
  intros fresh row_status all_embedded consistent0 doc Hin Hst.
  unfold s3, completed in Hin. cbn [documents] in Hin.
  apply in_map_iff in Hin as (doc0 & <- & Hin0).
  unfold complete in *. destruct (N.eqb_spec (doc_id doc0) d) as [E|E]; cbn [doc_id].
  - exists chunks. split; [unfold m'; rewrite E; apply lookup_insert_eq|].
    rewrite E. unfold chunks_complete, s3. rewrite !chunks_of_completed.
    exact (rows_complete fresh all_embedded).
  - destruct (consistent_s2 fresh row_status consistent0 doc0 Hin0 Hst) as (cs & Hm & Hc).
    exists cs. split; [exact Hm|].
    unfold chunks_complete, s3. rewrite !chunks_of_completed. exact Hc.
Qed.

Lemma fresh_s2 :
  fresh_store s0 d -> doc_id row = d ->
  fresh_store s2 (d + 1 + N.of_nat (length rows)).
Proof.
  intros [Hd Hc] row_id. split.
  - intros doc Hin. cbn in Hin. apply in_app_or in Hin as [Hin|[<-|[]]].
    + specialize (Hd _ Hin). lia.
    + rewrite row_id. lia.
  - intros c Hin. cbn in Hin. apply in_app_or in Hin as [Hin|Hin].
    + specialize (Hc _ Hin). lia.
    + pose proof (chunk_rows_each d (combine chunks embeddings) 0 (d + 1)) as Hall.
      apply (proj1 (List.Forall_forall _ _) Hall) in Hin as [-> _]. lia.
Qed.

End Consistency.

Lemma fresh_completed s d u : fresh_store s u -> fresh_store (completed s d) u.
Proof.
  intros [Hd Hc]. split; [|exact Hc].
  intros doc Hin. cbn [documents completed] in Hin.
  apply in_map_iff in Hin as (doc0 & <- & Hin0).
  assert (doc_id (complete d doc0) = doc_id doc0) as ->.
  { unfold complete. now destruct (doc_id doc0 =? d)%N. }
  now apply Hd.
Qed.

Lemma commits_first h d s te :
  Forall embedding_event te ->
  commits ([EvSelectByHash h; EvInsertDocument d; EvCommit s] ++ te) = [s].
Proof. intros H. cbn. now rewrite commits_embedding. Qed.

(** C2: in every run of [index_chunks], [mark_document_completed] is
    called only right after the insert of the chunks was committed, with all
    the chunks in the store; when the run fails and the call was made, it is
    that call which failed (so a failure of the embedding or of the insert
    leaves no such call); and every store the run goes through shows as
    completed only documents that have all their chunks (the embedding model
    answers a sub-batch with one vector for each text; ids are fresh;
    [manifest] holds the chunk list of each earlier document). *)
Theorem index_chunks_completes_after_chunks
    manifest filename file_type file_size h chunks w r w' tr :
  (forall batch e vectors e',
      embed_documents batch e = (Some vectors, e') -> length vectors = length batch) ->
  fresh_store (db w) (next_uuid w) ->
  consistent manifest (db w) ->
  index_chunks filename file_type file_size h chunks w = (r, w', tr) ->
  let d := next_uuid w in
  (forall d', In (EvMarkCompleted d') tr ->
     d' = d /\
     exists before s after,
       tr = before ++ [EvInsertChunks d (length chunks); EvCommit s; EvMarkCompleted d]
               ++ after /\
       chunks_complete s d chunks) /\
  (forall e d', r = Raise e -> In (EvMarkCompleted d') tr ->
     e = DatabaseError /\ exists before, tr = before ++ [EvMarkCompleted d']) /\
  Forall (consistent (<[d := chunks]> manifest)) (visited w tr) /\
  List.last (visited w tr) (db w) = db w' /\
  fresh_store (db w') (next_uuid w').
Proof.
  intros HL Hfresh Hcons Hrun d.
  apply index_chunks_cases in Hrun as [Hout _]. fold d in Hout.
  set (row := processing_row d filename file_type file_size h) in *.
  pose proof (consistent_s0 manifest (db w) d chunks Hfresh Hcons) as C0.
  pose proof (consistent_s1 manifest (db w) d row chunks Hfresh eq_refl Hcons) as C1.
  assert (Hlen : forall answers,
             Forall2 answered (sub_batches 32 (map content chunks)) answers ->
             length (concat answers) = length chunks).
  { intros answers Hall. rewrite (answered_lengths _ _ HL Hall).
    rewrite (proj1 (sub_batches_partition _)). apply length_map. }
  assert (Hrows : forall answers,
             Forall2 answered (sub_batches 32 (map content chunks)) answers ->
             length (chunk_rows d 0 (d + 1) (combine chunks (concat answers)))
             = length chunks).
  { intros answers Hall. rewrite chunk_rows_length, length_combine, (Hlen _ Hall). lia. }
  assert (F1 : forall n, fresh_store (with_document (db w) row) (d + 1 + n)).
  { intros n. destruct Hfresh as [Hfd Hfc]. split.
    - intros doc Hin. cbn in Hin. apply in_app_or in Hin as [Hin|[<-|[]]].
      + specialize (Hfd _ Hin). fold d in Hfd. lia.
      + cbn. lia.
    - intros c Hin. specialize (Hfc _ Hin). fold d in Hfc. cbn in Hin. lia. }
  unfold visited.
  remember (db w') as s' eqn:Es'. remember (next_uuid w') as u' eqn:Eu'.
  clear Es' Eu'.
  inversion Hout as [doc Hf| |Hf|te Hf Hte|te answers Hf Hte Hall
                     |te answers Hf Hte Hall|te answers Hf Hte Hall]; subst.
  - (* the document exists *)
    split; [intros d' [H|[]]; discriminate|]. split; [intros; discriminate|].
    cbn. repeat split; try (constructor; [exact C0|constructor]); apply Hfresh.
  - (* the lookup failed *)
    split; [intros d' [H|[]]; discriminate|].
    split; [intros e d' _ [H|[]]; discriminate|].
    cbn. repeat split; try (constructor; [exact C0|constructor]); apply Hfresh.
  - (* the insert of the document failed *)
    split; [intros d' [H|[H|[]]]; discriminate|].
    split; [intros e d' _ [H|[H|[]]]; discriminate|].
    cbn. split; [constructor; [exact C0|constructor]|]. split; [reflexivity|].
    destruct Hfresh as [Hfd Hfc].
    split; intros x Hin; [specialize (Hfd _ Hin)|specialize (Hfc _ Hin)];
      fold d in Hfd, Hfc; lia.
  - (* the embedding failed *)
    assert (Hno : forall d', ~ In (EvMarkCompleted d')
                               ([EvSelectByHash h; EvInsertDocument d;
                                 EvCommit (with_document (db w) row)] ++ te)).
    { intros d' [H|[H|[H|H]]]; try discriminate.
      now apply (not_in_embedding te d'). }
    split; [intros d' H; now apply Hno in H|].
    split; [intros e d' _ H; now apply Hno in H|].
    rewrite commits_first by assumption.
    split; [constructor; [exact C0|constructor; [exact C1|constructor]]|].
    split; [reflexivity|]. replace (d + 1)%N with (d + 1 + 0)%N by lia. apply F1.
  - (* the insert of the chunks failed *)
    assert (Hno : forall d', ~ In (EvMarkCompleted d')
                               ([EvSelectByHash h; EvInsertDocument d;
                                 EvCommit (with_document (db w) row)] ++ te
                                ++ [EvInsertChunks d
                                      (length (chunk_rows d 0 (d + 1)
                                                 (combine chunks (concat answers))))])).
    { intros d' [H|[H|[H|H]]]; try discriminate.
      cbn [app] in H; apply in_app_or in H as [H|[H|[]]]; [|discriminate].
      now apply (not_in_embedding te d'). }
    split; [intros d' H; now apply Hno in H|].
    split; [intros e d' _ H; now apply Hno in H|].
    rewrite app_assoc, commits_app, commits_first by assumption. cbn.
    split; [constructor; [exact C0|constructor; [exact C1|constructor]]|].
    split; [reflexivity|]. apply F1.
  - (* the status update failed *)
    pose proof (Hrows _ Hall) as Hr. pose proof (Hlen _ Hall) as Hl.
    pose proof (consistent_s2 manifest (db w) d row chunks (concat answers)
                  Hfresh eq_refl Hcons) as C2.
    pose proof (rows_complete (db w) d row chunks (concat answers) Hfresh Hl) as RC.
    pose proof (fresh_s2 (db w) d row chunks (concat answers) Hfresh eq_refl) as F2.
    rewrite Hr in *.
    split; [|split].
    + intros d' [H|[H|[H|H]]]; try discriminate.
      cbn [app] in H; apply in_app_or in H as [H|[H|[H|[H|[]]]]]; try discriminate.
      { now apply (not_in_embedding te d') in H. }
      injection H as <-. split; [reflexivity|].
      eexists (_ :: _ :: _ :: te), _, []. split; [|exact RC].
      reflexivity.
    + intros e d' [= <-] [H|[H|[H|H]]]; try discriminate.
      cbn [app] in H; apply in_app_or in H as [H|[H|[H|[H|[]]]]]; try discriminate.
      { now apply (not_in_embedding te d') in H. }
      injection H as <-. split; [reflexivity|].
      eexists (_ :: _ :: _ :: te ++ [_; _]). cbn. rewrite <- app_assoc. reflexivity.
    + rewrite app_assoc, commits_app, commits_first by assumption. cbn.
      split; [constructor; [exact C0|constructor; [exact C1|constructor;
                [exact C2|constructor]]]|].
      split; [reflexivity|exact F2].
  - (* the document is indexed *)
    pose proof (Hrows _ Hall) as Hr. pose proof (Hlen _ Hall) as Hl.
    pose proof (consistent_s2 manifest (db w) d row chunks (concat answers)
                  Hfresh eq_refl Hcons) as C2.
    pose proof (consistent_s3 manifest (db w) d row chunks (concat answers)
                  Hfresh eq_refl Hl Hcons) as C3.
    pose proof (rows_complete (db w) d row chunks (concat answers) Hfresh Hl) as RC.
    pose proof (fresh_s2 (db w) d row chunks (concat answers) Hfresh eq_refl) as F2.
    rewrite Hr in *.
    split; [|split].
    + intros d' [H|[H|[H|H]]]; try discriminate.
      cbn [app] in H; apply in_app_or in H as [H|[H|[H|[H|[H|[]]]]]]; try discriminate.
      { now apply (not_in_embedding te d') in H. }
      injection H as <-. split; [reflexivity|].
      eexists (_ :: _ :: _ :: te), _, [_]. split; [|exact RC].
      reflexivity.
    + intros; discriminate.
    + rewrite app_assoc, commits_app, commits_first by assumption. cbn.
      split; [constructor; [exact C0|constructor; [exact C1|constructor;
                [exact C2|constructor; [exact C3|constructor]]]]|].
      split; [reflexivity|now apply fresh_completed].
Qed.

(** ** Uploads: [process_upload] *)

(** The name an upload is stored under, and the hash of its bytes. *)
Definition stored_name (file : UploadFile) : list N :=
  Processor.sanitize_filename unicode_alnum (default [] (upload_filename file)).

Definition upload_hash (file : UploadFile) : list N := sha256_hex (upload_bytes file).

(** The events of an upload up to the call of [index_chunks]. *)
Definition before_indexing (file : UploadFile) (units : nat) : list Event :=
  [EvSaveUpload (upload_path (stored_name file));
   EvLoadDocument (upload_path (stored_name file));
   EvSplitDocuments units].

Lemma save_upload_run file w r w' tr :
  save_upload file w = (r, w', tr) ->
  tr = [EvSaveUpload (upload_path (stored_name file))] /\
  db w' = db w /\ next_uuid w' = next_uuid w /\
  (r = Raise BackendError \/
   (r = Ok (upload_path (stored_name file)) /\
    files w' !! upload_path (stored_name file) = Some (upload_bytes file))).
Proof.
  unfold save_upload. fold (stored_name file).
  generalize (upload_path (stored_name file)). intros p.
  unfold bind, emit, ask, ret, raise, get_world, put_world.
  destruct (io_fault (ext w)) as [[|] e]; cbn [app set_files set_ext files db next_uuid ext];
    intros [= <- <- <-]; repeat split; [now left|right].
  split; [reflexivity|apply lookup_insert_eq].
Qed.

(** The part of [process_upload] that follows the save. *)
Definition process_saved (sanitized_filename path : list N) : M (N * Z * list N) :=
  let filename := sanitized_filename in
  let file_type := file_type_of filename in
  do w <- get_world ;
  match files w !! path with
  | None => raise BackendError
  | Some bytes =>
      let actual_file_size := len bytes in
      let content_hash := sha256_hex bytes in
      emit (EvLoadDocument path) ;;
      do loaded <- ask (load_document path bytes) ;
      match loaded with
      | None => raise BackendError
      | Some docs =>
          emit (EvSplitDocuments (length docs)) ;;
          do chunks <-
            lift (Splitter.split_documents recursive_split docs
                    BASE_CHUNK OVERLAP MIN_CHARS) ;
          do indexed <-
            index_chunks filename file_type actual_file_size content_hash chunks ;
          ret (fst indexed, snd indexed, filename)
      end
  end.

Lemma process_saved_run sname p bytes w r w' tr :
  files w !! p = Some bytes ->
  process_saved sname p w = (r, w', tr) ->
  (exists e,
      w' = set_ext e w /\ r = Raise BackendError /\ tr = [EvLoadDocument p])
  \/
  (exists e docs,
      w' = set_ext e w /\ tr = [EvLoadDocument p; EvSplitDocuments (length docs)] /\
      exists e', r = Raise e' /\
      Splitter.split_documents recursive_split docs BASE_CHUNK OVERLAP MIN_CHARS
        = Raise e')
  \/
  (exists e docs chunks ri ti,
      Splitter.split_documents recursive_split docs BASE_CHUNK OVERLAP MIN_CHARS
        = Ok chunks /\
      index_chunks sname (file_type_of sname) (len bytes) (sha256_hex bytes) chunks
        (set_ext e w) = (ri, w', ti) /\
      tr = [EvLoadDocument p; EvSplitDocuments (length docs)] ++ ti /\
      r = match ri with
          | Ok indexed => Ok (fst indexed, snd indexed, sname)
          | Raise e' => Raise e'
          end).
Proof.
  intros Hfile. unfold process_saved.
  rewrite bind_run. unfold get_world at 1. cbv beta iota zeta. rewrite Hfile.
  rewrite bind_run. unfold emit at 1. cbv beta iota zeta.
  rewrite bind_run. unfold ask at 1.
  destruct (load_document p bytes (ext w)) as [[docs|] e].
  2:{ unfold raise. cbn [app]. intros [= <- <- <-]. left. now exists e. }
  rewrite bind_run. unfold emit at 1. cbv beta iota zeta.
  rewrite bind_run. unfold lift at 1.
  destruct (Splitter.split_documents recursive_split docs BASE_CHUNK OVERLAP MIN_CHARS)
    as [chunks|e3] eqn:E3.
  2:{ cbn [app]. intros [= <- <- <-]. right. left. exists e, docs.
      repeat split. now exists e3. }
  rewrite bind_run.
  destruct (index_chunks sname (file_type_of sname) (len bytes) (sha256_hex bytes)
              chunks (set_ext e w)) as [[ri w4] ti] eqn:E4.
  intros Hrun. right. right. exists e, docs, chunks, ri, ti.
  split; [exact E3|].
  destruct ri as [indexed|e4]; unfold ret in Hrun; cbn in Hrun;
    injection Hrun as <- <- <-; rewrite ?app_nil_r; repeat split; exact E4.
Qed.

Lemma process_upload_unfold file :
  process_upload file =
  match upload_filename file with
  | None | Some [] => raise InvalidFileTypeError
  | Some name =>
      let sanitized_filename := Processor.sanitize_filename unicode_alnum name in
      if negb (Processor.validate_extension sanitized_filename)
      then raise InvalidFileTypeError
      else
        let file_size := len (upload_bytes file) in
        if MAX_FILE_SIZE <? file_size then raise FileTooLargeError
        else if file_size =? 0 then raise InvalidFileTypeError
        else
          do path <- try_except (save_upload file)
                                (fun _ => raise DocumentProcessingError) ;
          try_except (process_saved sanitized_filename path)
                     (fun _ => raise DocumentProcessingError)
  end.
Proof. reflexivity. Qed.

(** A run of [process_upload] either stops before [index_chunks], leaving
    the tables as they were, or runs it on the chunks of the document it
    has loaded and split. *)
Lemma process_upload_run file w r w' tr :
  process_upload file w = (r, w', tr) ->
  (exists e units rest,
      r = Raise e /\ db w' = db w /\ next_uuid w' = next_uuid w /\
      tr ++ rest = before_indexing file units)
  \/
  (exists docs chunks w1 ri ti,
      db w1 = db w /\ next_uuid w1 = next_uuid w /\
      Splitter.split_documents recursive_split docs BASE_CHUNK OVERLAP MIN_CHARS
        = Ok chunks /\
      index_chunks (stored_name file) (file_type_of (stored_name file))
        (len (upload_bytes file)) (upload_hash file) chunks w1 = (ri, w', ti) /\
      tr = before_indexing file (length docs) ++ ti /\
      r = match ri with
          | Ok indexed => Ok (fst indexed, snd indexed, stored_name file)
          | Raise _ => Raise DocumentProcessingError
          end).
Proof.
  rewrite process_upload_unfold. unfold upload_hash.
  assert (Hstop : forall e (w0 : World),
             (exists e0 units rest,
                 @Raise (N * Z * list N) e = Raise e0 /\ db w0 = db w0 /\
                 next_uuid w0 = next_uuid w0 /\
                 [] ++ rest = before_indexing file units)).
  { intros e w0. exists e, 0%nat, (before_indexing file 0). now repeat split. }
  pose proof (save_upload_run file w) as Hsave.
  assert (Hname : forall name, upload_filename file = Some name ->
                    Processor.sanitize_filename unicode_alnum name = stored_name file).
  { intros name E. unfold stored_name. now rewrite E. }
  destruct (upload_filename file) as [[|c name]|] eqn:En.
  1, 3: unfold raise; intros [= <- <- <-]; left; apply Hstop.
  cbv zeta. rewrite (Hname _ eq_refl). clear Hname.
  destruct (Processor.validate_extension (stored_name file)); cbn [negb];
    [|unfold raise; intros [= <- <- <-]; left; apply Hstop].
  destruct (MAX_FILE_SIZE <? len (upload_bytes file));
    [unfold raise; intros [= <- <- <-]; left; apply Hstop|].
  destruct (len (upload_bytes file) =? 0);
    [unfold raise; intros [= <- <- <-]; left; apply Hstop|].
  rewrite bind_run. unfold try_except at 1.
  destruct (save_upload file w) as [[r1 w1] t1].
  destruct (Hsave _ _ _ eq_refl) as (-> & D1 & U1 & R1). clear Hsave.
  destruct R1 as [-> | (-> & Hfile)].
  { unfold raise. cbv beta iota. cbn [app]. intros [= <- <- <-]. left.
    exists DocumentProcessingError, 0%nat,
      [EvLoadDocument (upload_path (stored_name file)); EvSplitDocuments 0].
    repeat split; assumption. }
  unfold try_except.
  destruct (process_saved (stored_name file) (upload_path (stored_name file)) w1)
    as [[r2 w2] t2] eqn:E2.
  apply (process_saved_run _ _ _ _ _ _ _ Hfile) in E2
    as [(e & -> & -> & ->)|[(e & docs & -> & -> & e' & -> & _)
                            |(e & docs & chunks & ri & ti & Hs & Hi & -> & ->)]].
  - unfold raise. cbv beta iota. cbn [app]. intros [= <- <- <-]. left.
    exists DocumentProcessingError, 0%nat, [EvSplitDocuments 0].
    repeat split; assumption.
  - unfold raise. cbv beta iota. cbn [app]. intros [= <- <- <-]. left.
    exists DocumentProcessingError, (length docs), [].
    repeat split; assumption.
  - intros Hrun. right. exists docs, chunks, (set_ext e w1), ri, ti.
    split; [exact D1|]. split; [exact U1|]. split; [exact Hs|].
    destruct ri as [indexed|e4]; unfold raise in Hrun; cbv beta iota in Hrun; cbn [app] in Hrun;
      injection Hrun as <- <- <-; rewrite ?app_nil_r; repeat split; exact Hi.
Qed.

(** The checks [process_upload] makes before it writes anything. *)
Definition accepted (file : UploadFile) : Prop :=
  (exists name, upload_filename file = Some name /\ name <> []) /\
  Processor.validate_extension (stored_name file) = true /\
  0 < len (upload_bytes file) <= MAX_FILE_SIZE.

Lemma save_upload_files file w r w' tr :
  save_upload file w = (r, w', tr) ->
  (r = Raise BackendError /\ files w' = files w) \/
  (r = Ok (upload_path (stored_name file)) /\
   files w' = <[upload_path (stored_name file) := upload_bytes file]> (files w)).
Proof.
  unfold save_upload. fold (stored_name file).
  generalize (upload_path (stored_name file)). intros p.
  unfold bind, emit, ask, ret, raise, get_world, put_world.
  destruct (io_fault (ext w)) as [[|] e]; cbn [app set_files set_ext files db next_uuid ext];
    intros [= <- <- <-]; [left|right]; split; reflexivity.
Qed.

(** A run of [process_upload], step by step: refused before anything is
    done; or the save fails; or the file is saved and the rest runs. *)
Lemma process_upload_steps file w r w' tr :
  process_upload file w = (r, w', tr) ->
  (~ accepted file /\ w' = w /\ tr = [] /\
   (r = Raise InvalidFileTypeError \/ r = Raise FileTooLargeError))
  \/
  (accepted file /\ files w' = files w /\
   tr = [EvSaveUpload (upload_path (stored_name file))] /\
   r = Raise DocumentProcessingError)
  \/
  (accepted file /\
   files w' = <[upload_path (stored_name file) := upload_bytes file]> (files w) /\
   (exists rest,
       tr = EvSaveUpload (upload_path (stored_name file))
            :: EvLoadDocument (upload_path (stored_name file)) :: rest) /\
   (r = Raise DocumentProcessingError \/ exists d n, r = Ok (d, n, stored_name file))).
Proof.
  rewrite process_upload_unfold.
  pose proof (save_upload_run file w) as Hsave.
  pose proof (save_upload_files file w) as Hfiles.
  assert (Hname : forall name, upload_filename file = Some name ->
                    Processor.sanitize_filename unicode_alnum name = stored_name file).
  { intros name E. unfold stored_name. now rewrite E. }
  unfold accepted.
  destruct (upload_filename file) as [[|c name]|] eqn:En.
  1, 3: unfold raise; intros [= <- <- <-]; left;
    (split; [intros [(name0 & [= E] & Hn) _]; congruence|]); repeat split; now left.
  cbv zeta. rewrite (Hname _ eq_refl). clear Hname.
  destruct (Processor.validate_extension (stored_name file)) eqn:Ev; cbn [negb].
  2:{ unfold raise. intros [= <- <- <-]. left.
      split; [intros (_ & [=] & _)|]. repeat split. now left. }
  destruct (Z.ltb_spec MAX_FILE_SIZE (len (upload_bytes file))) as [Hmax|Hmax].
  { unfold raise. intros [= <- <- <-]. left.
    split; [intros (_ & _ & H); lia|]. repeat split. now right. }
  destruct (Z.eqb_spec (len (upload_bytes file)) 0) as [Hz|Hz].
  { unfold raise. intros [= <- <- <-]. left.
    split; [intros (_ & _ & H); lia|]. repeat split. now left. }
  assert (Hacc : (exists name0, Some (c :: name) = Some name0 /\ name0 <> []) /\
                 true = true /\ 0 < len (upload_bytes file) <= MAX_FILE_SIZE).
  { split; [now exists (c :: name)|]. split; [reflexivity|].
    unfold len in *. lia. }
  rewrite bind_run. unfold try_except at 1.
  destruct (save_upload file w) as [[r1 w1] t1].
  destruct (Hsave _ _ _ eq_refl) as (-> & _ & _ & _). clear Hsave.
  destruct (Hfiles _ _ _ eq_refl) as [(-> & F1)|(-> & F1)]; clear Hfiles.
  { unfold raise. cbv beta iota. cbn [app]. intros [= <- <- <-]. right. left.
    repeat split; try assumption; apply Hacc. }
  assert (Hfile : files w1 !! upload_path (stored_name file) = Some (upload_bytes file))
    by (rewrite F1; apply lookup_insert_eq).
  unfold try_except.
  destruct (process_saved (stored_name file) (upload_path (stored_name file)) w1)
    as [[r2 w2] t2] eqn:E2.
  apply (process_saved_run _ _ _ _ _ _ _ Hfile) in E2
    as [(e & -> & -> & ->)|[(e & docs & -> & -> & e' & -> & _)
                            |(e & docs & chunks & ri & ti & Hs & Hi & -> & ->)]].
  - unfold raise. cbv beta iota. cbn [app]. intros [= <- <- <-]. right. right.
    split; [exact Hacc|]. split; [exact F1|]. split; [now eexists|now left].
  - unfold raise. cbv beta iota. cbn [app]. intros [= <- <- <-]. right. right.
    split; [exact Hacc|]. split; [exact F1|]. split; [now eexists|now left].
  - apply index_chunks_cases in Hi as [_ Fi]. cbn [files set_ext] in Fi.
    intros Hrun. right. right. split; [exact Hacc|].
    destruct ri as [[d n]|e4]; unfold raise in Hrun; cbv beta iota in Hrun;
      cbn [app] in Hrun; injection Hrun as <- <- <-;
      (split; [now rewrite Fi, F1|]); (split; [now eexists|]).
    + right. now exists d, n.
    + now left.
Qed.

Lemma text_eqb_refl t : Processor.text_eqb t t = true.
Proof. unfold Processor.text_eqb. now apply bool_decide_eq_true. Qed.

Lemma find_map_complete d h docs :
  List.find (fun r => Processor.text_eqb (content_hash r) h) (map (complete d) docs)
  = option_map (complete d)
      (List.find (fun r => Processor.text_eqb (content_hash r) h) docs).
Proof.
  induction docs as [|r docs IH]; [reflexivity|]. cbn [map List.find].
  assert (content_hash (complete d r) = content_hash r) as ->.
  { unfold complete. now destruct (doc_id r =? d)%N. }
  destruct (Processor.text_eqb (content_hash r) h); [reflexivity|exact IH].
Qed.

Lemma find_app_none {A} (f : A -> bool) l1 l2 :
  List.find f l1 = None -> List.find f (l1 ++ l2) = List.find f l2.
Proof.
  induction l1 as [|a l1 IH]; [reflexivity|]. cbn.
  destruct (f a); [discriminate|exact IH].
Qed.

(** After a run of [index_chunks] that returns, a lookup of the hash finds
    the document whose id was returned. *)
Lemma index_chunks_found filename file_type file_size h chunks w d n w' tr :
  index_chunks filename file_type file_size h chunks w = (Ok (d, n), w', tr) ->
  exists doc, find_by_hash (db w') h = Some doc /\ doc_id doc = d.
Proof.
  intros Hrun. apply index_chunks_cases in Hrun as [Hout _].
  remember (db w') as s'. remember (next_uuid w') as u'.
  remember (Ok (d, n)) as r.
  destruct Hout as [doc Hf| |Hf|te Hf Hte|te answers Hf Hte Hall
                     |te answers Hf Hte Hall|te answers Hf Hte Hall];
    try discriminate.
  - injection Heqr as <- <-. now exists doc.
  - injection Heqr as <- <-.
    exists (complete (next_uuid w)
              (processing_row (next_uuid w) filename file_type file_size h)).
    split; [|unfold complete; cbn; now destruct (next_uuid w =? next_uuid w)%N].
    unfold find_by_hash, completed, with_chunks, with_document. cbn [documents].
    rewrite find_map_complete, (find_app_none _ _ _ Hf). cbn.
    now rewrite text_eqb_refl.
Qed.

(** An upload whose hash is in the store: nothing is written and no id is
    drawn, the run stops at the lookup at the latest, and what it returns is
    the id of the document found, with no chunk indexed. *)
Lemma process_upload_existing file w r w' tr doc :
  find_by_hash (db w) (upload_hash file) = Some doc ->
  process_upload file w = (r, w', tr) ->
  db w' = db w /\ next_uuid w' = next_uuid w /\
  (exists units rest,
      tr ++ rest = before_indexing file units ++ [EvSelectByHash (upload_hash file)]) /\
  (forall res, r = Ok res ->
     res = (doc_id doc, 0, stored_name file) /\
     exists units,
       tr = before_indexing file units ++ [EvSelectByHash (upload_hash file)]).
Proof.
  intros Hfind Hrun.
  apply process_upload_run in Hrun
    as [(e & units & rest & -> & D & U & T)
       |(docs & chunks & w1 & ri & ti & D1 & U1 & _ & Hi & -> & ->)].
  { split; [exact D|]. split; [exact U|]. split; [|intros; discriminate].
    exists units, (rest ++ [EvSelectByHash (upload_hash file)]).
    now rewrite app_assoc, T. }
  apply index_chunks_cases in Hi as [Hout _]. rewrite D1, U1 in Hout.
  remember (db w') as s'. remember (next_uuid w') as u'.
  destruct Hout as [doc0 Hf| |Hf|te Hf Hte|te answers Hf Hte Hall
                     |te answers Hf Hte Hall|te answers Hf Hte Hall];
    try congruence.
  - assert (doc0 = doc) as -> by congruence.
    repeat split; [now exists (length docs), []|injection H as <-; reflexivity|].
    now exists (length docs).
  - repeat split; [now exists (length docs), []|discriminate|discriminate].
Qed.

(** C1: an upload whose content hash is already in the store writes
    nothing, embeds nothing and, when it returns, returns the id of the
    existing document with zero chunks indexed; the file is still saved,
    loaded and split before the lookup of the hash.  Hence, after an upload
    that returned, an upload of the same bytes that returns gives the same
    document id and reports zero chunks, and leaves the tables as they
    were.  A run that fails after the checks of the name, the extension and
    the size, that is in the save, the load, the split or the lookup,
    raises [DocumentProcessingError]; a run that fails in those checks has
    done nothing. *)
Theorem process_upload_dedup file w r w' tr :
  process_upload file w = (r, w', tr) ->
  (forall doc, find_by_hash (db w) (upload_hash file) = Some doc ->
     db w' = db w /\ next_uuid w' = next_uuid w /\
     (exists units rest,
         tr ++ rest
         = before_indexing file units ++ [EvSelectByHash (upload_hash file)]) /\
     (forall res, r = Ok res ->
        res = (doc_id doc, 0, stored_name file) /\
        exists units,
          tr = before_indexing file units ++ [EvSelectByHash (upload_hash file)])) /\
  (forall res, r = Ok res ->
     forall file2 res2 w2 tr2,
       upload_bytes file2 = upload_bytes file ->
       process_upload file2 w' = (Ok res2, w2, tr2) ->
       fst (fst res2) = fst (fst res) /\ snd (fst res2) = 0 /\ db w2 = db w' /\
       exists units,
         tr2 = before_indexing file2 units ++ [EvSelectByHash (upload_hash file)]) /\
  (forall e, r = Raise e ->
     (tr = [] /\ w' = w /\ ~ accepted file /\
      (e = InvalidFileTypeError \/ e = FileTooLargeError)) \/
     (tr <> [] /\ accepted file /\ e = DocumentProcessingError)).
Proof.
  intros Hrun. split.
  { intros doc Hfind. exact (process_upload_existing _ _ _ _ _ _ Hfind Hrun). }
  split.
  2:{ intros e ->.
      apply process_upload_steps in Hrun
        as [(Hna & -> & -> & Hr)|[(Ha & _ & -> & [= ->])|(Ha & _ & (rest & ->) & Hr)]].
      - left. repeat split; [exact Hna|].
        destruct Hr as [[= ->]|[= ->]]; [now left|now right].
      - right. split; [discriminate|]. split; [exact Ha|reflexivity].
      - right. split; [discriminate|]. split; [exact Ha|].
        destruct Hr as [[= ->]|(d & n & [=])]. reflexivity. }
  intros res -> file2 res2 w2 tr2 Hbytes Hrun2.
  apply process_upload_run in Hrun
    as [(e & units & rest & [=] & _)
       |(docs & chunks & w1 & ri & ti & _ & _ & _ & Hi & -> & Hr)].
  destruct ri as [[d n]|e]; [|discriminate]. injection Hr as ->.
  apply index_chunks_found in Hi as (doc & Hfind & Hd).
  assert (Hh : upload_hash file2 = upload_hash file).
  { unfold upload_hash. now rewrite Hbytes. }
  rewrite <- Hh in Hfind.
  destruct (process_upload_existing _ _ _ _ _ _ Hfind Hrun2)
    as (D & _ & _ & Hres).
  destruct (Hres _ eq_refl) as (-> & units & ->).
  rewrite <- Hh. cbn [fst snd]. repeat split; [exact Hd|exact D|now exists units].
Qed.

(** ** Retrieval and the answer: [hybrid_search], [stream_rag] *)

Definition retrieval_event (e : Event) : Prop :=
  match e with
  | EvEmbedQuery _ | EvSelectNearest _ => True
  | _ => False
  end.

Lemma embedding_event_query tr :
  Forall embedding_event tr ->
  forall p, ~ In (EvModelStream p) tr.
Proof.
  intros H p Hin. apply (proj1 (List.Forall_forall _ _) H) in Hin. exact Hin.
Qed.

(** A run of [semantic_search]: the tables are left as they were, the
    generation model is not called, and rows come back only for a positive
    [k]. *)
Lemma semantic_search_run query k document_id w r w' tr :
  semantic_search query k document_id w = (r, w', tr) ->
  db w' = db w /\
  (forall p, ~ In (EvModelStream p) tr) /\
  (forall doc docs, r = Ok (doc :: docs) -> 0 < k).
Proof.
  unfold semantic_search. rewrite bind_run.
  destruct (get_embedding_function w) as [[r1 w1] t1] eqn:E1.
  apply get_embedding_function_run in E1 as (D1 & _ & _ & T1 & R1).
  pose proof (embedding_event_query _ T1) as N1.
  destruct R1 as [-> | ->].
  2:{ intros [= <- <- <-]. repeat split; [exact D1|exact N1|discriminate]. }
  unfold bind, emit, ask, ret, raise, get_world. cbv beta iota.
  destruct (embed_query query (ext w1)) as [[vector|] e2]; cbv beta iota.
  2:{ cbn [app]. intros [= <- <- <-]. split; [exact D1|]. split; [|discriminate].
      intros p Hin. apply in_app_or in Hin as [Hin|[Hin|[]]];
        [now apply (N1 p)|discriminate]. }
  destruct (io_fault (ext (set_ext e2 w1))) as [fault e3]; cbv beta iota.
  destruct fault; cbn [orb]; cbv beta iota.
  { cbn [app]. intros [= <- <- <-]. split; [exact D1|]. split; [|discriminate].
    intros p Hin. apply in_app_or in Hin as [Hin|[Hin|[Hin|[]]]];
      [now apply (N1 p)|discriminate|discriminate]. }
  destruct (Z.ltb_spec k 0) as [Hk|Hk]; cbv beta iota.
  { cbn [app]. intros [= <- <- <-]. split; [exact D1|]. split; [|discriminate].
    intros p Hin. apply in_app_or in Hin as [Hin|[Hin|[Hin|[]]]];
      [now apply (N1 p)|discriminate|discriminate]. }
  cbn [app db set_ext]. intros [= <- <- <-]. split; [exact D1|]. split.
  { intros p Hin. apply in_app_or in Hin as [Hin|[Hin|[Hin|[]]]];
      [now apply (N1 p)|discriminate|discriminate]. }
  intros doc docs [= Hrows].
  destruct (Z.to_nat k) eqn:Ek; [discriminate|lia].
Qed.

Lemma hybrid_search_run query k document_id w r w' tr :
  hybrid_search query k document_id w = (r, w', tr) ->
  exists rs,
    semantic_search query k document_id w = (rs, w', tr) /\
    match rs with
    | Raise e => r = Raise e
    | Ok [] => r = Ok []
    | Ok semantic => r = bm25 query k semantic
    end.
Proof.
  unfold hybrid_search. rewrite bind_run.
  destruct (semantic_search query k document_id w) as [[[semantic|e] w1] t1].
  2:{ intros [= <- <- <-]. now exists (Raise e). }
  destruct semantic as [|doc docs].
  - unfold ret. rewrite app_nil_r. intros [= <- <- <-]. now exists (Ok []).
  - unfold lift. rewrite app_nil_r. intros [= <- <- <-]. now exists (Ok (doc :: docs)).
Qed.

(** C8: [hybrid_search] returns the empty list exactly when the semantic
    search returned no row (the BM25 ranking keeps at least one of the
    documents it is given when [k] is positive); and whenever it does,
    [stream_rag] yields the one sentence that nothing was found and ends,
    in the world the search has left, without a call of the model's
    [stream]. *)
Theorem stream_rag_empty_retrieval query k document_id w :
  (forall q n doc docs, 0 < n -> bm25 q n (doc :: docs) <> Ok []) ->
  (forall w1 tr,
      hybrid_search query (default retriever_k k) document_id w = (Ok [], w1, tr) <->
      semantic_search query (default retriever_k k) document_id w = (Ok [], w1, tr)) /\
  (forall w1 tr,
      hybrid_search query (default retriever_k k) document_id w = (Ok [], w1, tr) ->
      stream_rag query k document_id w = (([NOT_FOUND], Ok tt), w1, tr) /\
      forall p, ~ In (EvModelStream p) tr).
Proof.
  intros Hbm25. split.
  - intros w1 tr. split.
    + intros Hrun. apply hybrid_search_run in Hrun as (rs & Hs & Hr).
      destruct rs as [[|doc docs]|e]; [exact Hs| |discriminate].
      apply semantic_search_run in Hs as (_ & _ & Hk).
      exfalso. apply (Hbm25 query (default retriever_k k) doc docs); [|now symmetry].
      now apply (Hk doc docs).
    + intros Hs. unfold hybrid_search. rewrite bind_run, Hs.
      unfold ret. now rewrite app_nil_r.
  - intros w1 tr Hrun. split.
    + unfold stream_rag. cbv zeta. now rewrite Hrun.
    + apply hybrid_search_run in Hrun as (rs & Hs & _).
      now apply semantic_search_run in Hs as (_ & Hno & _).
Qed.

(* ===================================================================== *)
(** * Further properties of the service *)
(* ===================================================================== *)

(** ** The answer stream *)

(** The chunks of the answer that carry text. *)
Definition spoken (chunks : list (option (list N))) : list (list N) :=
  flat_map (fun chunk => match chunk with
                         | Some (c :: text) => [c :: text]
                         | _ => []
                         end) chunks.

Definition lstrip_newlines (text : list N) : list N :=
  lstrip_where (fun c => (c =? 10) || (c =? 13) || (c =? 32))%N text.

Lemma stream_loop_later chunks : forall total,
  0 < total ->
  stream_loop chunks total
  = map (Retrieval.fix_percent_spacing unicode_decimal) (spoken chunks).
Proof.
  induction chunks as [|chunk chunks IH]; intros total Ht; [reflexivity|].
  destruct chunk as [[|c text]|]; cbn [stream_loop spoken flat_map app]; try now apply IH.
  assert (Hl : 0 < len (c :: text)) by (unfold len; cbn; lia).
  destruct (Z.eqb_spec (total + len (c :: text)) (len (c :: text))) as [E|_]; [lia|].
  cbn [map]. f_equal. apply IH. lia.
Qed.


(** ** The embedding function and its cache *)

Lemma get_embedding_function_cold w :
  embedding_cached w = false -> warmed_up w = false ->
  get_embedding_function w
  = match embed_query (lit "warmup") (ext w) with
    | (Some _, e) =>
        (Ok tt, set_embedding_flags true true (set_ext e w), [EvEmbedQuery (lit "warmup")])
    | (None, e) => (Raise EmbeddingError, set_ext e w, [EvEmbedQuery (lit "warmup")])
    end.
Proof.
  intros Ec Ew.
  unfold get_embedding_function, bind, emit, ask, ret, raise, get_world, put_world.
  cbv beta iota. rewrite Ec, Ew. cbv beta iota.
  destruct (embed_query (lit "warmup") (ext w)) as [[v|] e]; reflexivity.
Qed.


(** ** Ingestion: what is sent to the embedding model *)

Lemma get_embedding_function_trace w r w' tr :
  get_embedding_function w = (r, w', tr) ->
  tr = [] \/ tr = [EvEmbedQuery (lit "warmup")].
Proof.
  destruct (embedding_cached w) eqn:Ec.
  { unfold get_embedding_function, bind, get_world, ret. cbv beta iota. rewrite Ec.
    intros [= <- <- <-]. now left. }
  destruct (warmed_up w) eqn:Ew.
  { unfold get_embedding_function, bind, get_world, put_world, ret.
    cbv beta iota. rewrite Ec, Ew. cbv beta iota. cbn [app].
    intros [= <- <- <-]. now left. }
  rewrite (get_embedding_function_cold w Ec Ew).
  destruct (embed_query (lit "warmup") (ext w)) as [[v|] e];
    intros [= <- <- <-]; now right.
Qed.

Lemma attempts_trace_batch batch n b :
  In (EvEmbedDocuments b) (attempts_trace batch n) -> b = batch.
Proof.
  destruct n as [|m]; [intros []|]. cbn [attempts_trace].
  intros [[= ->]|H]; [reflexivity|].
  apply in_flat_map in H as (a & _ & [H|[[= ->]|[]]]); [discriminate|reflexivity].
Qed.

Lemma zip_attempts_batches batches b : forall attempts,
  In (EvEmbedDocuments b) (concat (zip_with attempts_trace batches attempts)) ->
  In b batches.
Proof.
  induction batches as [|x xs IH]; intros [|n ns]; cbn; try (intros []).
  intros H. apply in_app_or in H as [H|H].
  - left. symmetry. now apply (attempts_trace_batch x n).
  - right. now apply (IH ns).
Qed.

Lemma embedding_step_batches texts w r w' tr :
  try_except (get_embedding_function ;; batch_embed texts 32 3)
             (fun _ => raise EmbeddingError) w = (r, w', tr) ->
  forall b, In (EvEmbedDocuments b) tr -> In b (sub_batches 32 texts).
Proof.
  unfold try_except. rewrite bind_run.
  destruct (get_embedding_function w) as [[r1 w1] t1] eqn:E1.
  pose proof (get_embedding_function_trace _ _ _ _ E1) as T1.
  assert (N1 : forall b, ~ In (EvEmbedDocuments b) t1).
  { intros b. destruct T1 as [-> | ->]; [intros []|intros [H|[]]; discriminate]. }
  destruct r1 as [[]|e1].
  2:{ unfold raise. cbn [app]. intros [= <- <- <-] b H.
      rewrite app_nil_r in H. now apply N1 in H. }
  destruct (batch_embed texts 32 3 w1) as [[r2 w2] t2] eqn:E2.
  unfold batch_embed in E2.
  change (py_range 0 3 1) with (@Ok (list Z) [0; 1; 2]) in E2.
  unfold len in E2. rewrite py_range_batches in E2.
  unfold bind, lift in E2. cbv beta iota in E2.
  destruct (embed_batches texts 32 3 [0; 1; 2] _ [] w1) as [[r3 w3] t3] eqn:E3.
  cbn [app] in E2. injection E2 as <- <- <-.
  apply embed_batches_spec in E3. cbv zeta in E3. rewrite sub_batches_slices in E3.
  destruct E3 as (_ & ns & _ & _ & -> & _).
  assert (HT : forall b,
             In (EvEmbedDocuments b)
                (t1 ++ concat (zip_with attempts_trace (sub_batches 32 texts) ns)) ->
             In b (sub_batches 32 texts)).
  { intros b H. apply in_app_or in H as [H|H]; [now apply N1 in H|].
    now apply (zip_attempts_batches _ _ ns). }
  destruct r3 as [embs|e]; unfold raise; cbn [app]; intros [= <- <- <-] b H.
  - now apply HT.
  - rewrite app_nil_r in H. now apply HT.
Qed.

Lemma index_chunks_embed_calls filename file_type file_size h chunks w r w' tr :
  index_chunks filename file_type file_size h chunks w = (r, w', tr) ->
  forall b, In (EvEmbedDocuments b) tr -> In b (sub_batches 32 (map content chunks)).
Proof.
  intros Hrun.
  revert Hrun. unfold index_chunks. rewrite bind_run.
  destruct (get_document_by_hash h w) as [[r1 w1] t1] eqn:E1.
  apply get_document_by_hash_run in E1 as (_ & -> & R1).
  destruct R1 as [-> | ->].
  { intros [= <- <- <-] b [H|[]]. discriminate. }
  destruct (find_by_hash (db w) h) as [doc|]; cbn [option_map].
  { unfold ret. cbn [app]. intros [= <- <- <-] b [H|[]]. discriminate. }
  rewrite bind_run.
  destruct (insert_document filename file_type file_size h w1) as [[r2 w2] t2] eqn:E2.
  apply insert_document_run in E2 as (_ & _ & R2). cbv zeta in R2.
  assert (N2 : forall b, ~ In (EvEmbedDocuments b) t2).
  { intros b. destruct R2 as [(_ & _ & ->)|(_ & _ & ->)];
      [intros [H|[]]|intros [H|[H|[]]]]; discriminate. }
  destruct r2 as [d|e2].
  2:{ intros [= <- <- <-] b [H|H]; [discriminate|now apply N2 in H]. }
  rewrite bind_run.
  destruct (try_except _ _ w2) as [[r3 w3] t3] eqn:E3.
  pose proof (embedding_step_batches _ _ _ _ _ E3) as B3.
  destruct r3 as [embs|e3].
  2:{ intros [= <- <- <-] b [H|H]; [discriminate|]. cbn [app] in H.
      apply in_app_or in H as [H|H]; [now apply N2 in H|now apply B3]. }
  rewrite bind_run.
  destruct (insert_document_chunks d chunks embs w3) as [[r4 w4] t4] eqn:E4.
  apply insert_document_chunks_run in E4 as (_ & _ & R4). cbv zeta in R4.
  assert (N4 : forall b, ~ In (EvEmbedDocuments b) t4).
  { intros b. destruct R4 as [(_ & _ & ->)|(_ & _ & ->)];
      [intros [H|[]]|intros [H|[H|[]]]]; discriminate. }
  destruct r4 as [n|e4].
  2:{ intros [= <- <- <-] b [H|H]; [discriminate|]. cbn [app] in H.
      apply in_app_or in H as [H|H]; [now apply N2 in H|].
      apply in_app_or in H as [H|H]; [now apply B3|now apply N4 in H]. }
  rewrite bind_run.
  destruct (mark_document_completed d w4) as [[r5 w5] t5] eqn:E5.
  apply mark_document_completed_run in E5 as (_ & _ & R5).
  assert (N5 : forall b, ~ In (EvEmbedDocuments b) t5).
  { intros b. destruct R5 as [(_ & _ & ->)|(_ & _ & ->)];
      [intros [H|[]]|intros [H|[H|[]]]]; discriminate. }
  assert (HT : forall b, In (EvEmbedDocuments b)
                           ([EvSelectByHash h] ++ t2 ++ t3 ++ t4 ++ t5) ->
                         In b (sub_batches 32 (map content chunks))).
  { intros b [H|H]; [discriminate|]. cbn [app] in H.
    apply in_app_or in H as [H|H]; [now apply N2 in H|].
    apply in_app_or in H as [H|H]; [now apply B3|].
    apply in_app_or in H as [H|H]; [now apply N4 in H|now apply N5 in H]. }
  destruct r5 as [[]|e5]; unfold ret; intros [= <- <- <-] b H.
  + rewrite app_nil_r in H. now apply HT.
  + now apply HT.
Qed.


(** ** Ingestion: the rows it writes *)

Lemma find_by_hash_new s row :
  find_by_hash s (content_hash row) = None ->
  find_by_hash (with_document s row) (content_hash row) = Some row.
Proof.
  intros Hf. unfold find_by_hash, with_document. cbn [documents].
  rewrite (find_app_none _ _ _ Hf). cbn. now rewrite text_eqb_refl.
Qed.

Lemma map_complete_fresh s d :
  (forall doc, In doc (documents s) -> (doc_id doc < d)%N) ->
  map (complete d) (documents s) = documents s.
Proof.
  intros Hd. rewrite <- (map_id (documents s)) at 2. apply map_ext_in.
  intros doc Hin. unfold complete. specialize (Hd doc Hin).
  destruct (N.eqb_spec (doc_id doc) d); [lia|reflexivity].
Qed.




Lemma chunk_rows_embeddings d chunks : forall embeddings i u,
  map embedding (chunk_rows d i u (combine chunks embeddings))
  = firstn (Nat.min (length chunks) (length embeddings)) embeddings.
Proof.
  induction chunks as [|c cs IH]; intros [|v vs] i u; cbn; try reflexivity.
  f_equal. apply IH.
Qed.


(** ** Uploads: what is refused, and what reaches the disk *)



(** ** Retrieval and summaries *)

(** The rows in the order of [ORDER BY chunk_index ASC] (the order of rows
    with the same index is the database's choice). *)
Variable order_by_chunk_index : list ChunkRow -> list ChunkRow.

(** [get_summary_template(length).format(context=..)]. *)
Inductive SummaryLength := CONCISE | NORMAL | COMPREHENSIVE.

Variable summary_prompt : SummaryLength -> list N -> list N.

(** retrieval.py: [get_all_document_chunks]; a failure of the database is
    not caught. *)
Definition get_all_document_chunks (document_id : N) : M (list Document) :=
  do fault <- ask io_fault ;
  if fault : bool then raise BackendError
  else
    do w <- get_world ;
    ret (map Retrieval.document_of_row
           (order_by_chunk_index (chunks_of (db w) document_id))).

Definition NO_CONTENT : list N :=
  lit "Unable to generate summary: no content found for this document.".

(** streaming.py: [stream_summary] ([get_chat_model()] builds the client
    and calls nothing). *)
Definition stream_summary (document_id : N) (length : SummaryLength)
  : World -> (list (list N) * result unit) * World * list Event :=
  fun w =>
    match get_all_document_chunks document_id w with
    | (Raise e, w1, t1) => (([], Raise e), w1, t1)
    | (Ok [], w1, t1) => (([NO_CONTENT], Ok tt), w1, t1)
    | (Ok chunks, w1, t1) =>
        let context := Retrieval.build_context chunks in
        let prompt := summary_prompt length context in
        let '(answer, failed, e) := model_stream prompt (ext w1) in
        ((stream_loop answer 0, if failed : bool then Raise BackendError else Ok tt),
         set_ext e w1, t1 ++ [EvModelStream prompt])
    end.

Lemma get_all_document_chunks_run d w r w' tr :
  get_all_document_chunks d w = (r, w', tr) ->
  same_process w w' /\ tr = [] /\
  (r = Raise BackendError \/
   r = Ok (map Retrieval.document_of_row (order_by_chunk_index (chunks_of (db w) d)))).
Proof.
  unfold get_all_document_chunks, bind, ask, ret, raise, get_world.
  destruct (io_fault (ext w)) as [[|] e]; cbv beta iota; cbn [app db set_ext];
    intros [= <- <- <-]; (split; [repeat split|]); (split; [reflexivity|]);
    [now left|now right].
Qed.

Lemma semantic_search_rows query k document_id w r w' tr :
  semantic_search query k document_id w = (r, w', tr) ->
  db w' = db w /\ next_uuid w' = next_uuid w /\ files w' = files w /\
  forall docs, r = Ok docs ->
    0 <= k /\
    exists vector,
      docs = map Retrieval.document_of_row
               (firstn (Z.to_nat k)
                  (nearest vector
                     match document_id with
                     | Some d => chunks_of (db w) d
                     | None => document_chunks (db w)
                     end)).
Proof.
  unfold semantic_search. rewrite bind_run.
  destruct (get_embedding_function w) as [[r1 w1] t1] eqn:E1.
  apply get_embedding_function_run in E1 as (D1 & U1 & F1 & _ & R1).
  destruct R1 as [-> | ->].
  2:{ intros [= <- <- <-]. do 3 (split; [assumption|]). intros ? [=]. }
  unfold bind, emit, ask, ret, raise, get_world. cbv beta iota.
  destruct (embed_query query (ext w1)) as [[vector|] e2]; cbv beta iota.
  2:{ intros [= <- <- <-]. do 3 (split; [assumption|]). intros ? [=]. }
  destruct (io_fault (ext (set_ext e2 w1))) as [fault e3]; cbv beta iota.
  destruct fault; cbn [orb]; cbv beta iota.
  { intros [= <- <- <-]. do 3 (split; [assumption|]). intros ? [=]. }
  destruct (Z.ltb_spec k 0) as [Hk|Hk]; cbv beta iota.
  { intros [= <- <- <-]. do 3 (split; [assumption|]). intros ? [=]. }
  cbn [db set_ext]. intros [= <- <- <-]. do 3 (split; [assumption|]).
  intros docs [= <-]. split; [exact Hk|]. exists vector. now rewrite D1.
Qed.

Lemma document_of_row_document_id row :
  metadata (Retrieval.document_of_row row) !! lit "document_id"
  = Some (VUuid (document_id row)) /\
  metadata (Retrieval.document_of_row row) !! lit "chunk_index"
  = Some (VInt (chunk_index row)) /\
  metadata (Retrieval.document_of_row row) !! lit "id" = Some (VUuid (chunk_id row)) /\
  page_content (Retrieval.document_of_row row) = Some (chunk_content row).
Proof.
  unfold Retrieval.document_of_row. cbn [metadata page_content].
  split; [|split; [|split]].
  - rewrite lookup_insert_ne by (vm_compute; discriminate). apply lookup_insert_eq.
  - apply lookup_insert_eq.
  - rewrite !lookup_insert_ne by (vm_compute; discriminate). apply lookup_insert_eq.
  - reflexivity.
Qed.



(** ** Reading a document back *)

(** What [ORDER BY chunk_index ASC] guarantees: the same rows, with their
    indices in ascending order. *)
Definition orders_by_chunk_index : Prop :=
  forall rows,
    Permutation (order_by_chunk_index rows) rows /\
    Sorted Z.le (map chunk_index (order_by_chunk_index rows)).

Lemma strictly_sorted_nodup (l : list Z) :
  StronglySorted Z.le l -> NoDup l -> StronglySorted Z.lt l.
Proof.
  induction 1 as [|x xs Hs IH Hall]; intros Hn; [constructor|].
  apply NoDup_cons in Hn as [Hx Hn]. constructor; [now apply IH|].
  apply List.Forall_forall. intros y Hy.
  pose proof (proj1 (List.Forall_forall _ _) Hall y Hy).
  assert (x <> y) by (intros ->; apply Hx; now apply list_elem_of_In).
  lia.
Qed.

Lemma strongly_sorted_by_index (l : list ChunkRow) :
  StronglySorted Z.lt (map chunk_index l) ->
  StronglySorted (fun a b => chunk_index a < chunk_index b) l.
Proof.
  induction l as [|a l IH]; intros H; [constructor|].
  cbn in H. apply StronglySorted_inv in H as [Hs Hall].
  constructor; [now apply IH|]. exact (proj1 (List.Forall_map _ _ _) Hall).
Qed.

Lemma seq_strictly_sorted n : forall start,
  StronglySorted Z.lt (map Z.of_nat (seq start n)).
Proof.
  induction n as [|n IH]; intros start; [constructor|].
  cbn. constructor; [apply IH|].
  apply List.Forall_forall. intros y Hy. apply in_map_iff in Hy as (j & <- & Hj).
  apply in_seq in Hj. lia.
Qed.

#[local] Instance chunk_index_lt_antisymm :
  AntiSymm eq (fun a b : ChunkRow => chunk_index a < chunk_index b).
Proof. intros a b H1 H2. lia. Qed.

(** Rows whose indices are 0, 1, ... in the order of the table come back
    from [ORDER BY chunk_index ASC] in that order. *)
Lemma order_by_chunk_index_contiguous rows :
  orders_by_chunk_index ->
  map chunk_index rows = map Z.of_nat (seq 0 (length rows)) ->
  order_by_chunk_index rows = rows.
Proof.
  intros Horder Hidx. destruct (Horder rows) as [Hperm Hsorted].
  assert (Hlt : StronglySorted Z.lt (map chunk_index rows))
    by (rewrite Hidx; apply seq_strictly_sorted).
  apply (StronglySorted_unique (fun a b => chunk_index a < chunk_index b)).
  - apply strongly_sorted_by_index, strictly_sorted_nodup.
    + apply Sorted_StronglySorted; [intros x y z; lia|exact Hsorted].
    + rewrite Hperm. rewrite Hidx. apply seq_indices_nodup.
  - now apply strongly_sorted_by_index.
  - exact Hperm.
Qed.



End Service.

(** ** A small instance

    An embedding model that fails [n] times and then answers every text
    with the empty vector; a database and a disk that never fail; a loader
    that returns the bytes as one unit. *)

Definition demo_embed_documents (batch : list (list N)) (failures : nat)
  : option (list (list spec_float)) * nat :=
  match failures with
  | O => (Some (map (fun _ => []) batch), O)
  | S k => (None, k)
  end.

Definition demo_embed_query (query : list N) (failures : nat)
  : option (list spec_float) * nat := (Some [], failures).

Definition demo_io_fault (failures : nat) : bool * nat := (false, failures).

Definition demo_load_document (path bytes : list N) (failures : nat)
  : option (list Document) * nat :=
  (Some [{| page_content := Some bytes; metadata := ∅ |}], failures).

Definition demo_recursive_split (size overlap : Z) (doc : Document)
  : result (list Document) := Ok [doc].

Definition demo_bm25 (query : list N) (k : Z) (docs : list Document)
  : result (list Document) := Ok (firstn (Z.to_nat k) docs).

Definition demo_model_stream (prompt : list N) (failures : nat)
  : list (option (list N)) * bool * nat := ([Some prompt], false, failures).

Definition demo_world (failures : nat) : World :=
  {| db := {| documents := []; document_chunks := [] |}; next_uuid := 0;
     files := ∅; embedding_cached := false; warmed_up := false; ext := failures |}.

Definition demo_chunks : list Document :=
  [{| page_content := Some (lit "alpha"); metadata := ∅ |};
   {| page_content := Some (lit "beta"); metadata := ∅ |}].

Definition demo_index (failures : nat) : result (N * Z) * World * list Event :=
  index_chunks demo_embed_documents demo_embed_query demo_io_fault
    (lit "a.txt") (lit "txt") 9 (lit "h") demo_chunks (demo_world failures).

Definition demo_upload : UploadFile :=
  {| upload_filename := Some (lit "notes/a.txt");
     upload_bytes := lit "hello world, this is a test." |}.

Definition demo_process_upload (file : UploadFile) (w : World)
  : result (N * Z * list N) * World * list Event :=
  process_upload demo_embed_documents demo_embed_query demo_io_fault
    demo_load_document (fun bytes => bytes) demo_recursive_split (fun _ => false)
    800 10 100 1000000 (lit "/data") file w.

Lemma demo_embed_documents_answers batch e vectors e' :
  demo_embed_documents batch e = (Some vectors, e') ->
  Forall2 (fun _ v => v = []) batch vectors.
Proof.
  destruct e as [|k]; [|discriminate]. intros [= <- _].
  induction batch as [|t batch IH]; constructor; [reflexivity|exact IH].
Qed.

Lemma demo_embed_documents_lengths batch e vectors e' :
  demo_embed_documents batch e = (Some vectors, e') ->
  length vectors = length batch.
Proof.
  intros H. apply demo_embed_documents_answers in H.
  symmetry. exact (Forall2_length _ _ _ H).
Qed.

Lemma demo_bm25_keeps_one q n doc docs :
  0 < n -> demo_bm25 q n (doc :: docs) <> Ok [].
Proof.
  intros Hn. unfold demo_bm25. destruct (Z.to_nat n) eqn:E; [lia|discriminate].
Qed.

Lemma demo_world_fresh n : fresh_store (db (demo_world n)) (next_uuid (demo_world n)).
Proof. split; intros x []. Qed.

Lemma batch_embed_retries_witness :
  (forall batch e vectors e',
      demo_embed_documents batch e = (Some vectors, e') ->
      Forall2 (fun _ v => v = []) batch vectors) /\
  batch_embed demo_embed_documents [lit "a"; lit "b"] 32 3 (demo_world 1)
  = (Ok [[]; []], demo_world 0,
     [EvEmbedDocuments [lit "a"; lit "b"]; EvSleep 1;
      EvEmbedDocuments [lit "a"; lit "b"]]) /\
  concat (sub_batches 32 [lit "a"; lit "b"]) = [lit "a"; lit "b"].
Proof.
  split; [exact demo_embed_documents_answers|]. split; [reflexivity|].
  exact (proj1 (batch_embed_retries demo_embed_documents (fun _ v => v = [])
                  [lit "a"; lit "b"] (demo_world 1) _ _ _
                  demo_embed_documents_answers eq_refl)).
Defined.

Lemma ingestion_chunk_indices_witness :
  fresh_store (db (demo_world 1)) (next_uuid (demo_world 1)) /\
  find_by_hash (db (demo_world 1)) (lit "h") = None /\
  demo_index 1 = (Ok (0%N, 2), snd (fst (demo_index 1)), snd (demo_index 1)) /\
  map chunk_index (chunks_of (db (snd (fst (demo_index 1)))) 0)
  = map Z.of_nat (seq 0 (length (chunks_of (db (snd (fst (demo_index 1)))) 0))).
Proof.
  split; [apply demo_world_fresh|]. split; [reflexivity|].
  split; [vm_compute; reflexivity|].
  refine (proj1 (proj2 (ingestion_chunk_indices demo_embed_documents demo_embed_query
                          demo_io_fault (lit "a.txt") (lit "txt") 9 (lit "h")
                          demo_chunks (demo_world 1) 0 2 _ _
                          (demo_world_fresh 1) eq_refl _))).
  vm_compute; reflexivity.
Defined.

Lemma index_chunks_completes_after_chunks_witness :
  (forall batch e vectors e',
      demo_embed_documents batch e = (Some vectors, e') ->
      length vectors = length batch) /\
  fresh_store (db (demo_world 1)) (next_uuid (demo_world 1)) /\
  consistent ∅ (db (demo_world 1)) /\
  Forall (consistent (<[0%N := demo_chunks]> ∅))
    (visited (demo_world 1) (snd (demo_index 1))).
Proof.
  assert (C : consistent ∅ (db (demo_world 1))) by (intros doc []).
  split; [exact demo_embed_documents_lengths|].
  split; [apply demo_world_fresh|]. split; [exact C|].
  refine (proj1 (proj2 (proj2
            (index_chunks_completes_after_chunks demo_embed_documents demo_embed_query
               demo_io_fault ∅ (lit "a.txt") (lit "txt") 9 (lit "h") demo_chunks
               (demo_world 1) (fst (fst (demo_index 1))) (snd (fst (demo_index 1)))
               (snd (demo_index 1))
               demo_embed_documents_lengths (demo_world_fresh 1) C _)))).
  unfold demo_index. now destruct (index_chunks _ _ _ _ _ _ _ _ _) as [[r w'] tr].
Defined.

(** The world a first upload of [demo_upload] leaves. *)
Definition demo_uploaded : World := snd (fst (demo_process_upload demo_upload (demo_world 0))).

Definition demo_upload_path : list N := lit "/data/notes_a.txt".

Lemma process_upload_dedup_witness :
  demo_process_upload demo_upload (demo_world 0)
  = (Ok (0%N, 1, lit "notes_a.txt"), demo_uploaded,
     snd (demo_process_upload demo_upload (demo_world 0))) /\
  demo_process_upload demo_upload demo_uploaded
  = (Ok (0%N, 0, lit "notes_a.txt"), set_ext 0%nat demo_uploaded,
     [EvSaveUpload demo_upload_path; EvLoadDocument demo_upload_path;
      EvSplitDocuments 1; EvSelectByHash (upload_bytes demo_upload)]) /\
  db (set_ext 0%nat demo_uploaded) = db demo_uploaded.
Proof.
  assert (H1 : demo_process_upload demo_upload (demo_world 0)
               = (Ok (0%N, 1, lit "notes_a.txt"), demo_uploaded,
                  snd (demo_process_upload demo_upload (demo_world 0))))
    by (vm_compute; reflexivity).
  assert (H2 : demo_process_upload demo_upload demo_uploaded
               = (Ok (0%N, 0, lit "notes_a.txt"), set_ext 0%nat demo_uploaded,
                  [EvSaveUpload demo_upload_path; EvLoadDocument demo_upload_path;
                   EvSplitDocuments 1; EvSelectByHash (upload_bytes demo_upload)]))
    by (vm_compute; reflexivity).
  split; [exact H1|]. split; [exact H2|].
  exact (proj1 (proj2 (proj2
           (proj1 (proj2 (process_upload_dedup demo_embed_documents demo_embed_query
                            demo_io_fault demo_load_document (fun bytes => bytes)
                            demo_recursive_split (fun _ => false) 800 10 100 1000000
                            (lit "/data") demo_upload (demo_world 0) _ _ _ H1))
              _ eq_refl demo_upload _ _ _ eq_refl H2)))).
Defined.

(** The second upload of the same bytes saves, loads and splits the file
    before it finds the hash in the store. *)
Lemma process_upload_duplicate_reloads :
  exists doc,
    find_by_hash (db demo_uploaded) (upload_bytes demo_upload) = Some doc /\
    snd (demo_process_upload demo_upload demo_uploaded)
    = [EvSaveUpload demo_upload_path; EvLoadDocument demo_upload_path;
       EvSplitDocuments 1; EvSelectByHash (upload_bytes demo_upload)].
Proof. eexists. split; vm_compute; reflexivity. Qed.

Lemma stream_rag_empty_retrieval_witness :
  (forall q n doc docs, 0 < n -> demo_bm25 q n (doc :: docs) <> Ok []) /\
  hybrid_search demo_embed_query demo_io_fault (fun _ rows => rows) demo_bm25
    (lit "what?") 4 None (demo_world 0)
  = (Ok [], set_embedding_flags true true (demo_world 0),
     [EvEmbedQuery (lit "warmup"); EvEmbedQuery (lit "what?"); EvSelectNearest 4]) /\
  stream_rag demo_embed_query demo_io_fault (fun _ rows => rows) demo_bm25
    (fun context query => context ++ query) demo_model_stream (fun _ => false) 4
    (lit "what?") None None (demo_world 0)
  = (([NOT_FOUND], Ok tt), set_embedding_flags true true (demo_world 0),
     [EvEmbedQuery (lit "warmup"); EvEmbedQuery (lit "what?"); EvSelectNearest 4]).
Proof.
  assert (H : hybrid_search demo_embed_query demo_io_fault (fun _ rows => rows)
                demo_bm25 (lit "what?") 4 None (demo_world 0)
              = (Ok [], set_embedding_flags true true (demo_world 0),
                 [EvEmbedQuery (lit "warmup"); EvEmbedQuery (lit "what?");
                  EvSelectNearest 4])) by reflexivity.
  split; [exact demo_bm25_keeps_one|]. split; [exact H|].
  exact (proj1 (proj2 (stream_rag_empty_retrieval demo_embed_query demo_io_fault
                         (fun _ rows => rows) demo_bm25
                         (fun context query => context ++ query) demo_model_stream
                         (fun _ => false) 4 (lit "what?") None None (demo_world 0)
                         demo_bm25_keeps_one) _ _ H)).
Defined.

(** ** The further properties on the small instance *)

(** An ordering by chunk index: merge sort. *)
Definition index_le (a b : ChunkRow) : Prop := chunk_index a <= chunk_index b.

#[local] Instance index_le_dec : RelDecision index_le.
Proof. intros a b. unfold index_le. apply _. Defined.

#[local] Instance index_le_total : Total index_le.
Proof. intros a b. unfold index_le. lia. Qed.

Definition demo_order (rows : list ChunkRow) : list ChunkRow := merge_sort index_le rows.

Lemma sorted_map_chunk_index rows :
  Sorted index_le rows -> Sorted Z.le (map chunk_index rows).
Proof.
  induction 1 as [|a l Hs IH Hd]; [constructor|].
  cbn. constructor; [exact IH|]. destruct Hd; constructor. assumption.
Qed.

Lemma demo_order_orders : orders_by_chunk_index demo_order.
Proof.
  intros rows. split; [apply merge_sort_Permutation|].
  apply sorted_map_chunk_index. apply (Sorted_merge_sort _).
Qed.







(** An upload with a name that is refused. *)
Definition demo_refused : UploadFile :=
  {| upload_filename := Some (lit "photo.jpg"); upload_bytes := lit "not a document" |}.



(** The search on the world the upload has left. *)
Definition demo_search : result (list Document) * World * list Event :=
  semantic_search demo_embed_query demo_io_fault (fun _ rows => rows)
    (lit "hello") 4 (Some 0%N) demo_uploaded.




End Service.
